(** * The flash-faucet request-admission filter

    A shallow embedding of [internal/server/middleware.go]: the proxy-aware
    client-identity derivation [getClientIPFromRequest] and the dual-key,
    TTL-windowed rate limiter [Limiter.ServeHTTP] with [Limiter.limitByKey].

    Go strings are byte sequences and are modelled by [string]; a Go [int],
    a [time.Duration] and an instant of the clock are modelled by [Z]
    (durations and instants in nanoseconds).  The functions of the Go
    standard library the middleware calls are modelled next to it, each
    one following the library's algorithm. *)

From Stdlib Require Import ZArith Lia Ascii String List Bool.
From Stdlib Require Import Decimal DecimalString DecimalPos DecimalN.
From stdpp Require Import base option list gmap strings.

Local Open Scope Z_scope.

(** ** Go strings: length, indexing, slicing *)

Module GoString.

Definition byte (c : ascii) : Z := Z.of_N (N_of_ascii c).

Definition len (s : string) : Z := Z.of_nat (String.length s).

(** [s[i]], for [0 <= i < len s]. *)
Definition at_ (s : string) (i : Z) : Z :=
  match String.get (Z.to_nat i) s with
  | Some c => byte c
  | None => 0
  end.

(** [s[i:j]], for [0 <= i <= j <= len s]. *)
Definition slice (s : string) (i j : Z) : string :=
  String.substring (Z.to_nat i) (Z.to_nat (j - i)) s.

(** [s[i:]]. *)
Definition from (s : string) (i : Z) : string := slice s i (len s).

(** [bytealg.IndexByteString]: the first index of [c] in [s], or [-1]. *)
Fixpoint IndexByteString (s : string) (c : ascii) : Z :=
  match s with
  | EmptyString => -1
  | String d s' =>
      if Ascii.eqb d c then 0
      else let i := IndexByteString s' c in
           if i <? 0 then -1 else i + 1
  end.

(** [bytealg.LastIndexByteString]: the last index of [c] in [s], or [-1]. *)
Fixpoint LastIndexByteString (s : string) (c : ascii) : Z :=
  match s with
  | EmptyString => -1
  | String d s' =>
      let i := LastIndexByteString s' c in
      if 0 <=? i then i + 1
      else if Ascii.eqb d c then 0 else -1
  end.

End GoString.

(** ** UTF-8 decoding ([unicode/utf8]) *)

Module utf8.

Import GoString.

Definition RuneError : Z := 65533.
Definition RuneSelf : Z := 128.
Definition UTFMax : Z := 4.

Definition locb : Z := 128.
Definition hicb : Z := 191.

(** The table [first]: information about the first byte of an encoding. *)
Definition xx : Z := 241.
Definition as_ : Z := 240.
Definition s1 : Z := 2.
Definition s2 : Z := 19.
Definition s3 : Z := 3.
Definition s4 : Z := 35.
Definition s5 : Z := 52.
Definition s6 : Z := 4.
Definition s7 : Z := 68.

Definition first (b : Z) : Z :=
  if b <? 128 then as_
  else if b <? 194 then xx
  else if b <? 224 then s1
  else if b =? 224 then s2
  else if b <? 237 then s3
  else if b =? 237 then s4
  else if b <? 240 then s3
  else if b =? 240 then s5
  else if b <? 244 then s6
  else if b =? 244 then s7
  else xx.

(** The table [acceptRanges]: the range of valid second bytes. *)
Definition acceptRanges (i : Z) : Z * Z :=
  if i =? 0 then (locb, hicb)
  else if i =? 1 then (160, hicb)
  else if i =? 2 then (locb, 159)
  else if i =? 3 then (144, hicb)
  else if i =? 4 then (locb, 143)
  else (0, 0).

Definition RuneStart (b : Z) : bool := negb (Z.land b 192 =? 128).

(** [utf8.DecodeRuneInString]: the first rune of [s] and its width. *)
Definition DecodeRuneInString (s : string) : Z * Z :=
  let n := len s in
  if n <? 1 then (RuneError, 0)
  else
    let s0 := at_ s 0 in
    let x := first s0 in
    if as_ <=? x then
      (if x =? xx then RuneError else s0, 1)
    else
      let sz := Z.land x 7 in
      let accept := acceptRanges (Z.shiftr x 4) in
      if n <? sz then (RuneError, 1)
      else
        let b1 := at_ s 1 in
        if (b1 <? fst accept) || (snd accept <? b1) then (RuneError, 1)
        else if sz <=? 2 then
          (Z.lor (Z.shiftl (Z.land s0 31) 6) (Z.land b1 63), 2)
        else
          let b2 := at_ s 2 in
          if (b2 <? locb) || (hicb <? b2) then (RuneError, 1)
          else if sz <=? 3 then
            (Z.lor (Z.lor (Z.shiftl (Z.land s0 15) 12)
                          (Z.shiftl (Z.land b1 63) 6))
                   (Z.land b2 63), 3)
          else
            let b3 := at_ s 3 in
            if (b3 <? locb) || (hicb <? b3) then (RuneError, 1)
            else
              (Z.lor (Z.lor (Z.lor (Z.shiftl (Z.land s0 7) 18)
                                   (Z.shiftl (Z.land b1 63) 12))
                            (Z.shiftl (Z.land b2 63) 6))
                     (Z.land b3 63), 4).

(** The loop of [DecodeLastRuneInString] that walks back from [start] to the
    first byte that can start a rune, not going below [lim]. *)
Fixpoint back_to_start (fuel : nat) (s : string) (start lim : Z) : Z :=
  match fuel with
  | O => start
  | S fuel' =>
      if start <? lim then start
      else if RuneStart (at_ s start) then start
      else back_to_start fuel' s (start - 1) lim
  end.

(** [utf8.DecodeLastRuneInString]: the last rune of [s] and its width. *)
Definition DecodeLastRuneInString (s : string) : Z * Z :=
  let end_ := len s in
  if end_ =? 0 then (RuneError, 0)
  else
    let start := end_ - 1 in
    let r := at_ s start in
    if r <? RuneSelf then (r, 1)
    else
      let lim := Z.max 0 (end_ - UTFMax) in
      let start := back_to_start 4 s (start - 1) lim in
      let start := Z.max 0 start in
      let '(r, size) := DecodeRuneInString (slice s start end_) in
      if negb (start + size =? end_) then (RuneError, 1)
      else (r, size).

End utf8.

(** ** [unicode.IsSpace] and [strings.TrimSpace] *)

Module unicode.

Definition MaxLatin1 : Z := 255.

(** [unicode.IsSpace]: the Latin-1 spaces, and outside Latin-1 the code
    points of the [White_Space] table. *)
Definition IsSpace (r : Z) : bool :=
  if (0 <=? r) && (r <=? MaxLatin1) then
    (r =? 9) || (r =? 10) || (r =? 11) || (r =? 12) || (r =? 13)
    || (r =? 32) || (r =? 133) || (r =? 160)
  else
    (r =? 5760) || ((8192 <=? r) && (r <=? 8202))
    || (r =? 8232) || (r =? 8233) || (r =? 8239) || (r =? 8287)
    || (r =? 12288).

End unicode.

Module strings.

Import GoString.

(** The table [asciiSpace]. *)
Definition asciiSpace (c : Z) : bool :=
  (c =? 9) || (c =? 10) || (c =? 11) || (c =? 12) || (c =? 13) || (c =? 32).

(** [indexFunc]: the index of the first rune [r] of [s] from [i] on with
    [f r = truth], or [-1]; the [range] loop over a string advances by the
    width of each decoded rune. *)
Fixpoint indexFunc_from (fuel : nat) (s : string) (f : Z -> bool)
    (truth : bool) (i : Z) : Z :=
  match fuel with
  | O => -1
  | S fuel' =>
      if len s <=? i then -1
      else
        let '(r, size) := utf8.DecodeRuneInString (from s i) in
        if Bool.eqb (f r) truth then i
        else indexFunc_from fuel' s f truth (i + size)
  end.

Definition indexFunc (s : string) (f : Z -> bool) (truth : bool) : Z :=
  indexFunc_from (String.length s) s f truth 0.

(** [lastIndexFunc]: the index of the last rune [r] of [s[0:i]] with
    [f r = truth], or [-1]. *)
Fixpoint lastIndexFunc_from (fuel : nat) (s : string) (f : Z -> bool)
    (truth : bool) (i : Z) : Z :=
  match fuel with
  | O => -1
  | S fuel' =>
      if i <=? 0 then -1
      else
        let '(r, size) := utf8.DecodeLastRuneInString (slice s 0 i) in
        let i := i - size in
        if Bool.eqb (f r) truth then i
        else lastIndexFunc_from fuel' s f truth i
  end.

Definition lastIndexFunc (s : string) (f : Z -> bool) (truth : bool) : Z :=
  lastIndexFunc_from (String.length s) s f truth (len s).

Definition TrimLeftFunc (s : string) (f : Z -> bool) : string :=
  let i := indexFunc s f false in
  if i =? -1 then EmptyString else from s i.

Definition TrimRightFunc (s : string) (f : Z -> bool) : string :=
  let i := lastIndexFunc s f false in
  let i :=
    if (0 <=? i) && (utf8.RuneSelf <=? at_ s i) then
      i + snd (utf8.DecodeRuneInString (from s i))
    else i + 1 in
  slice s 0 i.

Definition TrimFunc (s : string) (f : Z -> bool) : string :=
  TrimRightFunc (TrimLeftFunc s f) f.

(** The first loop of [TrimSpace]: skip ASCII spaces from the left.  The
    result is the index reached, or the string to return when a non-ASCII
    byte sends the function to the rune-aware [TrimFunc]. *)
Fixpoint TrimSpace_start (fuel : nat) (s : string) (start : Z)
    : Z + string :=
  match fuel with
  | O => inl start
  | S fuel' =>
      if len s <=? start then inl start
      else
        let c := at_ s start in
        if utf8.RuneSelf <=? c then
          inr (TrimFunc (from s start) unicode.IsSpace)
        else if negb (asciiSpace c) then inl start
        else TrimSpace_start fuel' s (start + 1)
  end.

(** The second loop of [TrimSpace]: skip ASCII spaces from the right. *)
Fixpoint TrimSpace_stop (fuel : nat) (s : string) (start stop : Z)
    : Z + string :=
  match fuel with
  | O => inl stop
  | S fuel' =>
      if stop <=? start then inl stop
      else
        let c := at_ s (stop - 1) in
        if utf8.RuneSelf <=? c then
          inr (TrimRightFunc (slice s start stop) unicode.IsSpace)
        else if negb (asciiSpace c) then inl stop
        else TrimSpace_stop fuel' s start (stop - 1)
  end.

(** [strings.TrimSpace]: [s] without its leading and trailing white space,
    as defined by Unicode. *)
Definition TrimSpace (s : string) : string :=
  match TrimSpace_start (S (String.length s)) s 0 with
  | inr t => t
  | inl start =>
      match TrimSpace_stop (S (String.length s)) s start (len s) with
      | inr t => t
      | inl stop => slice s start stop
      end
  end.

(** [strings.Split] with a one-byte separator: [Split s sep] cuts [s] at
    every occurrence of [sep] and returns the pieces in order; the
    middleware calls it with the separator [","]. *)
Fixpoint Split (s : string) (sep : ascii) : list string :=
  match s with
  | EmptyString => [EmptyString]
  | String c s' =>
      if Ascii.eqb c sep then EmptyString :: Split s' sep
      else match Split s' sep with
           | part :: parts => String c part :: parts
           | [] => [String c EmptyString]
           end
  end.

End strings.

(** ** [net.SplitHostPort] *)

Module net.

Import GoString.

(** [net.AddrError]: the reason and the offending address. *)
Record AddrError := { Err : string; Addr : string }.

Definition missingPort : string := "missing port in address".
Definition tooManyColons : string := "too many colons in address".

Definition addrErr {A} (addr why : string) : A + AddrError :=
  inr {| Err := why; Addr := addr |}.

(** [net.SplitHostPort]: splits ["host:port"], ["host%zone:port"],
    ["[host]:port"] or ["[host%zone]:port"] into host and port. *)
Definition SplitHostPort (hostport : string) : (string * string) + AddrError :=
  (* The port starts after the last colon. *)
  let i := LastIndexByteString hostport ":" in
  if i <? 0 then addrErr hostport missingPort
  else
    let bracketed :=
      if at_ hostport 0 =? byte "[" then
        (* Expect the first ']' just before the last ':'. *)
        let end_ := IndexByteString hostport "]" in
        if end_ <? 0 then addrErr hostport "missing ']' in address"
        else if end_ + 1 =? len hostport then
          (* There can't be a ':' behind the ']' now. *)
          addrErr hostport missingPort
        else if end_ + 1 =? i then
          (* The expected result. *)
          inl (slice hostport 1 end_, 1, end_ + 1)
        else if at_ hostport (end_ + 1) =? byte ":" then
          addrErr hostport tooManyColons
        else addrErr hostport missingPort
      else
        let host := slice hostport 0 i in
        if 0 <=? IndexByteString host ":" then
          addrErr hostport tooManyColons
        else inl (host, 0, 0) in
    match bracketed with
    | inr e => inr e
    | inl (host, j, k) =>
        if 0 <=? IndexByteString (from hostport j) "[" then
          addrErr hostport "unexpected '[' in address"
        else if 0 <=? IndexByteString (from hostport k) "]" then
          addrErr hostport "unexpected ']' in address"
        else inl (host, from hostport (i + 1))
    end.

End net.

(** ** The request and the Identity Resolver *)

(** The fields of [http.Request] the middleware reads: the header map (each
    name with the values of its lines, in order), the address of the peer
    that sent the request, and what [readAddress] extracts the address key
    from. *)
Record Request := {
  Header : gmap string (list string);
  RemoteAddr : string;
  Body : string
}.

(** [http.Header.Get]: the first value of the header, or the empty string when there is
    none.  The name is given in canonical form. *)
Definition Header_Get (h : gmap string (list string)) (key : string) : string :=
  match h !! key with
  | Some (v :: _) => v
  | _ => EmptyString
  end.

(** [a[i]] on a slice: [None] stands for the run-time panic of an index out
    of range. *)
Definition index {A} (a : list A) (i : Z) : option A :=
  if (0 <=? i) && (i <? Z.of_nat (length a)) then a !! Z.to_nat i else None.

(** The fall-back of [getClientIPFromRequest] (its last five lines). *)
Definition remoteIP (r : Request) : string :=
  match net.SplitHostPort (RemoteAddr r) with
  | inl (host, _) => host
  | inr _ => RemoteAddr r
  end.

(** [getClientIPFromRequest]; [None] is a panic.  [proxyCount] is a Go [int];
    in the branch that subtracts it from the number of parts it is positive,
    so the difference does not leave the range of [int]. *)
Definition getClientIPFromRequest (proxyCount : Z) (r : Request)
    : option string :=
  if 0 <? proxyCount then
    let xForwardedFor := Header_Get (Header r) "X-Forwarded-For" in
    if negb (String.eqb xForwardedFor EmptyString) then
      let xForwardedForParts := strings.Split xForwardedFor "," in
      let partIndex := Z.of_nat (length xForwardedForParts) - proxyCount in
      let partIndex := if partIndex <? 0 then 0 else partIndex in
      strings.TrimSpace <$> index xForwardedForParts partIndex
    else Some (remoteIP r)
  else Some (remoteIP r).

(** ** [time.Duration]: rounding and printing

    A [Duration] is an [int64] count of nanoseconds.  The arithmetic of
    [Round] relies on the wrap-around of [int64], which is written out. *)

Module time.

Definition Nanosecond : Z := 1.
Definition Microsecond : Z := 1000 * Nanosecond.
Definition Millisecond : Z := 1000 * Microsecond.
Definition Second : Z := 1000 * Millisecond.

Definition minDuration : Z := - 2 ^ 63.
Definition maxDuration : Z := 2 ^ 63 - 1.

(** The value of an [int64] expression whose mathematical value is [x]. *)
Definition int64 (x : Z) : Z := (x + 2 ^ 63) mod 2 ^ 64 - 2 ^ 63.

(** The conversion [uint64(x)], and the [uint64] an expression of
    mathematical value [x] evaluates to. *)
Definition uint64 (x : Z) : Z := x mod 2 ^ 64.

(** [lessThanHalf]: whether [x + x < y], without overflow, for positive [x]
    and [y]. *)
Definition lessThanHalf (x y : Z) : bool :=
  uint64 (uint64 x + uint64 x) <? uint64 y.

(** [Duration.Round]: [d] rounded to the nearest multiple of [m], halfway
    values away from zero; the extreme [Duration] when the result would
    overflow; [d] itself when [m <= 0]. *)
Definition Round (d m : Z) : Z :=
  if m <=? 0 then d
  else
    let r := Z.rem d m in
    if d <? 0 then
      let r := int64 (- r) in
      if lessThanHalf r m then int64 (d + r)
      else
        let d1 := int64 (d - m + r) in
        if d1 <? d then d1 else minDuration
    else
      if lessThanHalf r m then int64 (d - r)
      else
        let d1 := int64 (d + m - r) in
        if d <? d1 then d1 else maxDuration.

(** The byte of the decimal digit [d]. *)
Definition digit (d : Z) : ascii := ascii_of_N (Z.to_N (d + 48)).

(** The loop of [fmtFrac]: [prec] digits of [v], from the last one, each put
    in front of [buf] once a non-zero digit has been seen. *)
Fixpoint fmtFrac_loop (prec : nat) (buf : string) (v : Z) (print : bool)
    : string * Z * bool :=
  match prec with
  | O => (buf, v, print)
  | S prec' =>
      let d := v mod 10 in
      let print := print || negb (d =? 0) in
      let buf := if print then String (digit d) buf else buf in
      fmtFrac_loop prec' buf (v / 10) print
  end.

(** [fmtFrac]: the fraction of [v / 10^prec] put in front of [buf], trailing
    zeros and a point with nothing after it left out; and [v / 10^prec]. *)
Definition fmtFrac (buf : string) (v : Z) (prec : nat) : string * Z :=
  let '(buf, v, print) := fmtFrac_loop prec buf v false in
  (if print then String "." buf else buf, v).

(** The loop of [fmtInt]; a [uint64] has at most twenty digits. *)
Fixpoint fmtInt_loop (fuel : nat) (buf : string) (v : Z) : string :=
  match fuel with
  | O => buf
  | S fuel' =>
      if 0 <? v then fmtInt_loop fuel' (String (digit (v mod 10)) buf) (v / 10)
      else buf
  end.

(** [fmtInt]: the decimal numeral of [v] put in front of [buf]. *)
Definition fmtInt (buf : string) (v : Z) : string :=
  if v =? 0 then String "0" buf else fmtInt_loop 20 buf v.

(** The two bytes of the micro sign, U+00B5. *)
Definition micro : string :=
  String (ascii_of_N 194) (String (ascii_of_N 181) EmptyString).

(** [Duration.String] (through [Duration.format]): ["72h3m0.5s"], with
    leading zero units left out, a duration under a second in a smaller
    unit, and ["0s"] for zero.  The buffer is filled from its end, so each
    piece is put in front of what is already there. *)
Definition String (d : Z) : string :=
  let neg := d <? 0 in
  let u := uint64 d in
  let u := if neg then uint64 (- u) else u in
  let buf :=
    if u <? uint64 Second then
      (* Special case: if duration is smaller than a second,
         use smaller units, like 1.2ms *)
      if u =? 0 then "0s"
      else
        let '(buf, prec) :=
          if u <? uint64 Microsecond then ("ns", 0%nat)
          else if u <? uint64 Millisecond then (micro +:+ "s", 3%nat)
          else ("ms", 6%nat) in
        let '(buf, u) := fmtFrac buf u prec in
        fmtInt buf u
    else
      let '(buf, u) := fmtFrac "s" u 9 in
      (* u is now integer seconds *)
      let buf := fmtInt buf (u mod 60) in
      let u := u / 60 in
      (* u is now integer minutes *)
      if 0 <? u then
        let buf := fmtInt (String.String "m" buf) (u mod 60) in
        let u := u / 60 in
        (* u is now integer hours *)
        if 0 <? u then fmtInt (String.String "h" buf) u else buf
      else buf in
  if neg then String.String "-" buf else buf.

End time.

(** ** The Rate-Limit Store ([ttlcache.Cache])

    The limiter keeps its entries in a cache of the [ttlcache] library,
    which is not part of this repository.  The model below follows the
    store's contract in the specification; an instant is the reading of the
    clock, in nanoseconds, at which the operation runs. *)

Module ttlcache.

(** Modelled from the spec: an entry of the store (the LimitEntry: the
    value stored under the key, its ttl, and the instant
    [insertion time + ttl] at which it expires). *)
Record item := { data : bool; ttl : Z; expireAt : Z }.

(** Modelled from the spec: the store, a map from keys to entries, with the
    setting that turns off the refresh of an entry's expiry on a hit. *)
Record Cache := { items : gmap string item; skipTTLExtension : bool }.

(** Modelled from the spec: the store as created at startup, empty; a cache
    of the library refreshes expiries on read unless told otherwise. *)
Definition NewCache : Cache :=
  {| items := ∅; skipTTLExtension := false |}.

(** Modelled from the spec: [SkipTTLExtensionOnHit], the switch for the
    no-refresh-on-read behaviour. *)
Definition SkipTTLExtensionOnHit (c : Cache) (value : bool) : Cache :=
  {| items := items c; skipTTLExtension := value |}.

(** Modelled from the spec: an entry is visible from its insertion until
    [insertion time + ttl]; after that instant it is logically absent,
    whether or not it has been purged. *)
Definition expired (it : item) (now : Z) : bool := expireAt it <? now.

(** Modelled from the spec: [Set(key, ttl)], which inserts or overwrites the
    entry for [key] with the fresh expiry [now + ttl]. *)
Definition SetWithTTL (c : Cache) (now : Z) (key : string) (value : bool)
    (d : Z) : Cache :=
  {| items := <[key := {| data := value; ttl := d; expireAt := now + d |}]>
                (items c);
     skipTTLExtension := skipTTLExtension c |}.

(** Modelled from the spec: [Probe(key)], which tells whether [key] is live
    and, if so, the time remaining until its expiry; [None] is the
    library's not-found error.  With the no-refresh setting the store is
    left as it is; without it a hit moves the expiry to [now + ttl]. *)
Definition GetWithTTL (c : Cache) (now : Z) (key : string)
    : Cache * option (bool * Z) :=
  match items c !! key with
  | None => (c, None)
  | Some it =>
      if expired it now then (c, None)
      else if skipTTLExtension c then
        (c, Some (data it, Z.max 0 (expireAt it - now)))
      else
        ({| items := <[key := {| data := data it; ttl := ttl it;
                                 expireAt := now + ttl it |}]> (items c);
            skipTTLExtension := skipTTLExtension c |},
         Some (data it, ttl it))
  end.

(** Modelled from the spec: [Remove(key)], which deletes the entry if
    present and does nothing otherwise. *)
Definition Remove (c : Cache) (key : string) : Cache :=
  {| items := delete key (items c);
     skipTTLExtension := skipTTLExtension c |}.

End ttlcache.

(** ** Responses *)

Module http.

Definition StatusOK : Z := 200.
Definition StatusTooManyRequests : Z := 429.
Definition StatusInternalServerError : Z := 500.

(** [http.StatusText], for the codes the middleware passes to it. *)
Definition StatusText (code : Z) : string :=
  if code =? 200 then "OK"
  else if code =? 429 then "Too Many Requests"
  else if code =? 500 then "Internal Server Error"
  else EmptyString.

End http.

(** [negroni.ResponseWriter]: the status code of the response, [0] as long
    as nothing has been written, and the body written so far. *)
Record ResponseWriter := { Status : Z; Written : string }.

(** Modelled from the spec: [claimResponse], the payload of a response, of
    which the middleware fills the message. *)
Record claimResponse := { Message : string }.

Definition dquote : string := String (ascii_of_N 34) EmptyString.

(** Modelled from the spec: the JSON rendering of a [claimResponse], an
    object with the one member [message]. *)
Definition json_of_claimResponse (v : claimResponse) : string :=
  "{" +:+ dquote +:+ "message" +:+ dquote +:+ ": "
      +:+ dquote +:+ Message v +:+ dquote +:+ "}".

(** Modelled from the spec: [renderJSON], which answers with the JSON body
    of [v] and the HTTP status [status]. *)
Definition renderJSON (w : ResponseWriter) (v : claimResponse) (status : Z)
    : ResponseWriter :=
  {| Status := status; Written := Written w +:+ json_of_claimResponse v |}.

(** Modelled from the spec: [malformedRequest], the error of the
    request-validation collaborator, with the status and message to answer
    with. *)
Record malformedRequest := { status : Z; message : string }.

(** A Go [error] as [readAddress] may return it: a [*malformedRequest],
    another error, or an error that wraps one. *)
Inductive error :=
| error_malformedRequest (mr : malformedRequest)
| error_other (text : string)
| error_wrapped (text : string) (inner : error).

(** [errors.As(err, &mr)] for [mr] of type [*malformedRequest]: the first
    error of that type in the chain of [err]. *)
Fixpoint errors_As (err : error) : option malformedRequest :=
  match err with
  | error_malformedRequest mr => Some mr
  | error_other _ => None
  | error_wrapped _ inner => errors_As inner
  end.

(** ** The limiter

    [ServeHTTP] acts on state that outlives the call and is shared between
    the requests in flight: the mutex and the cache of the [Limiter], and
    the clock the cache reads.  Its body is written as a program over the
    actions that touch this state, and given two readings below: run to
    completion by one caller, and interleaved action by action with the
    programs of other callers. *)

(** [Limiter] *)
Record Limiter := {
  mutex : bool;               (* [sync.Mutex]: whether it is locked *)
  cache : ttlcache.Cache;
  proxyCount : Z;
  ttl : Z
}.

(** [NewLimiter] *)
Definition NewLimiter (proxyCount : Z) (ttl : Z) : Limiter :=
  let cache := ttlcache.NewCache in
  let cache := ttlcache.SkipTTLExtensionOnHit cache true in
  {| mutex := false; cache := cache; proxyCount := proxyCount; ttl := ttl |}.

(** The downstream handler [next]: what it makes of the response writer for
    a request. *)
Definition HandlerFunc : Type := ResponseWriter -> Request -> ResponseWriter.

(** The actions of [ServeHTTP] on the shared state and on its surroundings. *)
Inductive Action :=
| Lock
| Unlock
| GetWithTTL (key : string)
| SetWithTTL (key : string) (value : bool) (d : Z)
| Remove (key : string)
| Next (next : HandlerFunc) (w : ResponseWriter) (r : Request)
| LogInfo (address clientIP text : string).

(** What an action gives back to the program. *)
Definition Result (a : Action) : Type :=
  match a with
  | GetWithTTL _ => option (bool * Z)
  | Next _ _ _ => ResponseWriter
  | _ => unit
  end.

(** A program: it returns, or does an action and goes on with its result. *)
Inductive Prog (A : Type) :=
| Ret (a : A)
| Do (act : Action) (k : Result act -> Prog A).

Arguments Ret {A} a.
Arguments Do {A} act k.

Fixpoint bind {A B} (p : Prog A) (f : A -> Prog B) : Prog B :=
  match p with
  | Ret a => f a
  | Do act k => Do act (fun x => bind (k x) f)
  end.

#[export] Instance Prog_ret : MRet Prog := @Ret.
#[export] Instance Prog_bind : MBind Prog := fun A B f p => bind p f.

(** An action as a program. *)
Definition do (act : Action) : Prog (Result act) := Do act Ret.

(** The [return] statement that ended a call of [ServeHTTP]. *)
Inductive Return :=
| return_error        (* the address could not be read *)
| return_disabled     (* [ttl <= 0]: handed on to [next] *)
| return_limited      (* one of the keys is in the cache *)
| return_removed      (* [next] did not answer 200: entries removed *)
| return_done.        (* [next] answered 200 *)

(** The decision of the Admission Filter a return stands for; a request
    whose address could not be read never reaches the filter. *)
Inductive Decision := admitted | rejected.

Definition decision (ret : Return) : option Decision :=
  match ret with
  | return_error => None
  | return_limited => Some rejected
  | return_disabled | return_removed | return_done => Some admitted
  end.

(** [fmt.Sprintf] with the format of [limitByKey]; [%s] prints a
    [Duration] through its [String] method. *)
Definition Sprintf_rate_limit (d : Z) : string :=
  "You have exceeded the rate limit. Please wait " +:+ time.String d
    +:+ " before you try again".

(** [Limiter.limitByKey] *)
Definition limitByKey (w : ResponseWriter) (key : string)
    : Prog (bool * ResponseWriter) :=
  (res ← do (GetWithTTL key);
   match res with
   | Some (_, ttl) =>
       let errMsg := Sprintf_rate_limit (time.Round ttl time.Second) in
       Ret (true, renderJSON w {| Message := errMsg |}
                    http.StatusTooManyRequests)
   | None => Ret (false, w)
   end).

(** [p || q] on two calls of [limitByKey]: [q] runs only if [p] says
    [false]. *)
Definition orelse (p : Prog (bool * ResponseWriter))
    (q : ResponseWriter -> Prog (bool * ResponseWriter))
    : Prog (bool * ResponseWriter) :=
  ('(b, w) ← p; if b : bool then Ret (true, w) else q w).

(** [Limiter.ServeHTTP].  [readAddress] is the request-validation helper of
    the package, which is not in the file; a panic of
    [getClientIPFromRequest] would end the program with [None]. *)
Definition ServeHTTP (readAddress : Request -> string + error)
    (proxyCount ttl : Z) (w : ResponseWriter) (r : Request)
    (next : HandlerFunc) : option (Prog (Return * ResponseWriter)) :=
  match readAddress r with
  | inr err =>
      match errors_As err with
      | Some mr =>
          Some (Ret (return_error,
                     renderJSON w {| Message := message mr |} (status mr)))
      | None =>
          Some (Ret (return_error,
                     renderJSON w
                       {| Message :=
                            http.StatusText http.StatusInternalServerError |}
                       http.StatusInternalServerError))
      end
  | inl address =>
      if ttl <=? 0 then
        Some (w ← do (Next next w r); Ret (return_disabled, w))
      else
        clientIP ← getClientIPFromRequest proxyCount r;
        Some (do Lock;;
              '(limited, w) ← orelse (limitByKey w address)
                                (fun w => limitByKey w clientIP);
              if limited : bool then
                do Unlock;; Ret (return_limited, w)
              else
                do (SetWithTTL address true ttl);;
                do (SetWithTTL clientIP true ttl);;
                do Unlock;;
                w ← do (Next next w r);
                if negb (Status w =? http.StatusOK) then
                  do (Remove address);;
                  do (Remove clientIP);;
                  Ret (return_removed, w)
                else
                  do (LogInfo address clientIP
                        "Maximum request limit has been reached");;
                  Ret (return_done, w))
  end.

(** ** Running the programs

    The shared state: the limiter, the number of readings of the clock taken
    so far (the cache reads the clock once in every [GetWithTTL] and
    [SetWithTTL]), and the actions done so far, oldest first.  The clock is
    a function from the number of a reading to the instant read. *)

Record World := {
  limiter : Limiter;
  ticks : nat;
  trace : list Action
}.

Definition with_mutex (l : Limiter) (locked : bool) : Limiter :=
  {| mutex := locked; cache := cache l;
     proxyCount := proxyCount l; ttl := ttl l |}.

Definition with_cache (l : Limiter) (c : ttlcache.Cache) : Limiter :=
  {| mutex := mutex l; cache := c;
     proxyCount := proxyCount l; ttl := ttl l |}.

(** One action on the shared state.  [None]: the action cannot be done now
    ([Lock] on a locked mutex waits) or is a fatal error ([Unlock] of an
    unlocked mutex). *)
Definition perform (clock : nat -> Z) (act : Action) (σ : World)
    : option (Result act * World) :=
  let l := limiter σ in
  let now := clock (ticks σ) in
  let log := trace σ ++ [act] in
  match act return option (Result act * World) with
  | Lock =>
      if mutex l then None
      else Some (tt, {| limiter := with_mutex l true;
                        ticks := ticks σ; trace := log |})
  | Unlock =>
      if mutex l
      then Some (tt, {| limiter := with_mutex l false;
                        ticks := ticks σ; trace := log |})
      else None
  | GetWithTTL key =>
      let '(c, res) := ttlcache.GetWithTTL (cache l) now key in
      Some (res, {| limiter := with_cache l c;
                    ticks := S (ticks σ); trace := log |})
  | SetWithTTL key value d =>
      Some (tt, {| limiter :=
                     with_cache l (ttlcache.SetWithTTL (cache l) now key value d);
                   ticks := S (ticks σ); trace := log |})
  | Remove key =>
      Some (tt, {| limiter := with_cache l (ttlcache.Remove (cache l) key);
                   ticks := ticks σ; trace := log |})
  | Next next w r =>
      Some (next w r, {| limiter := l; ticks := ticks σ; trace := log |})
  | LogInfo _ _ _ =>
      Some (tt, {| limiter := l; ticks := ticks σ; trace := log |})
  end.

(** A program run to its end by one caller, nobody else acting meanwhile. *)
Fixpoint run {A} (clock : nat -> Z) (p : Prog A) (σ : World)
    : option (A * World) :=
  match p with
  | Ret a => Some (a, σ)
  | Do act k =>
      match perform clock act σ with
      | Some (x, σ') => run clock (k x) σ'
      | None => None
      end
  end.

(** One call of [l.ServeHTTP(w, r, next)], run to its end: the return taken,
    the response writer and the state left behind. *)
Definition serve (readAddress : Request -> string + error) (clock : nat -> Z)
    (σ : World) (w : ResponseWriter) (r : Request) (next : HandlerFunc)
    : option (Return * ResponseWriter * World) :=
  p ← ServeHTTP readAddress (proxyCount (limiter σ)) (ttl (limiter σ)) w r next;
  run clock p σ.

(** A run of calls, one after the other: what each one returned and wrote,
    and the state left behind by the last. *)
Fixpoint serve_all (readAddress : Request -> string + error)
    (clock : nat -> Z) (σ : World)
    (calls : list (ResponseWriter * Request * HandlerFunc))
    : option (list (Return * ResponseWriter) * World) :=
  match calls with
  | [] => Some ([], σ)
  | (w, r, next) :: calls' =>
      match serve readAddress clock σ w r next with
      | Some (ret, w', σ') =>
          match serve_all readAddress clock σ' calls' with
          | Some (results, σ'') => Some ((ret, w') :: results, σ'')
          | None => None
          end
      | None => None
      end
  end.

(** The state right after [NewLimiter]. *)
Definition start (proxyCount ttl : Z) : World :=
  {| limiter := NewLimiter proxyCount ttl; ticks := 0; trace := [] |}.

(** The calls being served at once: the program each one still has to run.
    A step of the pool is one action of one of its programs. *)
Abbreviation Pool := (list (Prog (Return * ResponseWriter))).

Definition step (clock : nat -> Z) (i : nat) (ps : Pool * World)
    : option (Pool * World) :=
  match ps.1 !! i with
  | Some (Do act k) =>
      match perform clock act ps.2 with
      | Some (x, σ') => Some (<[i := k x]> ps.1, σ')
      | None => None
      end
  | _ => None
  end.

(** The pool after the steps of a schedule, which names the caller that
    acts at each step. *)
Fixpoint steps (clock : nat -> Z) (schedule : list nat) (ps : Pool * World)
    : option (Pool * World) :=
  match schedule with
  | [] => Some ps
  | i :: schedule' =>
      match step clock i ps with
      | Some ps' => steps clock schedule' ps'
      | None => None
      end
  end.

(** The return a caller of the pool has reached, if its program is over. *)
Definition returned (p : Prog (Return * ResponseWriter)) : option Return :=
  match p with
  | Ret (ret, _) => Some ret
  | Do _ _ => None
  end.

(** The limiter between two calls: built by [NewLimiter], so the cache does
    not refresh expiries on read, and with the mutex free. *)
Definition idle (σ : World) : Prop :=
  ttlcache.skipTTLExtension (cache (limiter σ)) = true
  /\ mutex (limiter σ) = false.

(** The remaining time to live a probe of [key] finds at the instant [now],
    if the key is live then. *)
Definition probe (c : ttlcache.Cache) (now : Z) (key : string) : option Z :=
  snd <$> (ttlcache.GetWithTTL c now key).2.

(** The response of a rejection that reports the remaining wait [d]. *)
Definition rejection (w : ResponseWriter) (d : Z) : ResponseWriter :=
  renderJSON w
    {| Message := Sprintf_rate_limit (time.Round d time.Second) |}
    http.StatusTooManyRequests.

(** The state after the actions [acts], which read the clock [n] times and
    leave the cache as [c]. *)
Definition after (σ : World) (c : ttlcache.Cache) (n : nat)
    (acts : list Action) : World :=
  {| limiter := with_cache (limiter σ) c;
     ticks := ticks σ + n;
     trace := trace σ ++ acts |}.

(** ** Notions used to state the properties *)

(** [n] is a whole number of seconds nearest to the duration [d]. *)
Definition nearest_second (d n : Z) : Prop :=
  (exists k, n = k * time.Second) /\ 2 * Z.abs (n - d) <= time.Second.

(** The limiter as the calls before have left it: idle, and with an empty
    cache when limiting is disabled (no call ever writes to it then). *)
Definition sound (σ : World) : Prop :=
  idle σ
  /\ (ttl (limiter σ) <= 0 -> ttlcache.items (cache (limiter σ)) = ∅).

(** Whether the byte [c] occurs in [s]. *)
Fixpoint occurs (c : ascii) (s : string) : bool :=
  match s with
  | EmptyString => false
  | String d s' => Ascii.eqb d c || occurs c s'
  end.

(** A host or a port written without colon and without square bracket. *)
Definition plain (s : string) : Prop :=
  occurs ":" s = false /\ occurs "[" s = false /\ occurs "]" s = false.

(** [strings.Join] with a one-byte separator: the parts, in order, with
    [sep] between two neighbours. *)
Fixpoint Join (parts : list string) (sep : ascii) : string :=
  match parts with
  | [] => EmptyString
  | [part] => part
  | part :: parts' => part +:+ String sep (Join parts' sep)
  end.

(** The decimal numeral of a number that is not negative, as the standard
    library writes it. *)
Definition decimal (n : Z) : string :=
  NilZero.string_of_uint (N.to_uint (Z.to_N n)).

(** A digit put in front of a little-endian numeral. *)
Definition cons_digit (r : N) (d : Decimal.uint) : Decimal.uint :=
  match r with
  | 0 => D0 d | 1 => D1 d | 2 => D2 d | 3 => D3 d | 4 => D4 d
  | 5 => D5 d | 6 => D6 d | 7 => D7 d | 8 => D8 d | _ => D9 d
  end%N.

(** How [Duration.String] writes a whole number [n] of seconds. *)
Definition seconds_text (n : Z) : string :=
  if n <? 60 then decimal n +:+ "s"
  else if n <? 3600 then
    decimal (n / 60) +:+ "m" +:+ decimal (n mod 60) +:+ "s"
  else
    decimal (n / 3600) +:+ "h" +:+ decimal (n / 60 mod 60) +:+ "m"
      +:+ decimal (n mod 60) +:+ "s".

(** Two states are equal when their parts are. *)
Ltac world_eq σ :=
  unfold after, with_cache, with_mutex, idle in *;
  destruct σ as [[? ? ? ?] ? ?]; simpl in *; subst;
  repeat rewrite <- app_assoc; simpl;
  repeat f_equal; try lia.

(** [t] is [s] without the white space at its two ends, for a string [s] of
    ASCII bytes: the bytes of [s] from [start] to [stop], where only space
    bytes come before [start] and from [stop] on, and neither the first nor
    the last byte of [t] is a space. *)
Definition trimmed (s t : string) : Prop :=
  exists start stop,
    0 <= start <= stop /\ stop <= GoString.len s
    /\ t = GoString.slice s start stop
    /\ (forall i, 0 <= i < start ->
          strings.asciiSpace (GoString.at_ s i) = true)
    /\ (forall i, stop <= i < GoString.len s ->
          strings.asciiSpace (GoString.at_ s i) = true)
    /\ (start < stop ->
        strings.asciiSpace (GoString.at_ s start) = false
        /\ strings.asciiSpace (GoString.at_ s (stop - 1)) = false).

(** A string of ASCII bytes. *)
Definition ascii_only (s : string) : Prop :=
  forall i, 0 <= i < GoString.len s -> GoString.at_ s i < utf8.RuneSelf.

(** [probes_key readAddress clock key σ r n]: the call for [r] that starts
    in [σ] comes to probe [key], at the reading [n] of the clock: as its
    address key, at its first reading; or as its identity key, at its
    second, the address key not being live at the first. *)
Definition probes_key (readAddress : Request -> string + error)
    (clock : nat -> Z) (key : string) (σ : World) (r : Request) (n : nat)
    : Prop :=
  (readAddress r = inl key /\ n = ticks σ)
  \/ (exists address,
        readAddress r = inl address
        /\ getClientIPFromRequest (proxyCount (limiter σ)) r = Some key
        /\ probe (cache (limiter σ)) (clock (ticks σ)) address = None
        /\ n = S (ticks σ)).
(** ** The CAPTCHA middleware *)

Module hcaptcha.

(** Modelled from the spec: the client of the external verifier, with the
    site key and the secret it sends along with a token. *)
Record Client := { SiteKey : string; secret : string }.

(** Modelled from the spec: [hcaptcha.New], the client for a secret. *)
Definition New (secret : string) : Client :=
  {| SiteKey := EmptyString; secret := secret |}.

(** Modelled from the spec: the answer of the verifier, of which the
    middleware reads whether the token was accepted. *)
Record Response := { Success : bool }.

End hcaptcha.

(** [Captcha] *)
Record Captcha := { client : hcaptcha.Client; secret : string }.

(** [NewCaptcha] *)
Definition NewCaptcha (hcaptchaSiteKey hcaptchaSecret : string) : Captcha :=
  let client := hcaptcha.New hcaptchaSecret in
  let client := {| hcaptcha.SiteKey := hcaptchaSiteKey;
                   hcaptcha.secret := hcaptcha.secret client |} in
  {| client := client; secret := hcaptchaSecret |}.

(** [Captcha.ServeHTTP].  [VerifyToken] is the call to the external
    verifier, [c.client.VerifyToken]; the header is looked up under the
    canonical form of the name ["h-captcha-response"]. *)
Definition Captcha_ServeHTTP
    (VerifyToken : hcaptcha.Client -> string -> hcaptcha.Response)
    (c : Captcha) (w : ResponseWriter) (r : Request) (next : HandlerFunc)
    : ResponseWriter :=
  if String.eqb (secret c) EmptyString then next w r
  else
    let response :=
      VerifyToken (client c) (Header_Get (Header r) "H-Captcha-Response") in
    if negb (hcaptcha.Success response) then
      renderJSON w
        {| Message := "Captcha verification failed, please try again" |}
        http.StatusTooManyRequests
    else next w r.

(** ** The CORS middleware *)

(** The [http.ResponseWriter] of [CORSMiddleware]: the header map of the
    response, besides the status code and the body. *)
Record Response := {
  ResponseHeader : gmap string (list string);
  writer : ResponseWriter
}.

(** The [http.Request] of [CORSMiddleware]: its method, besides the fields
    the other middlewares read. *)
Record MethodRequest := { Method : string; fields : Request }.

(** [http.Handler] *)
Definition Handler : Type := Response -> MethodRequest -> Response.

(** [http.Header.Set]: the values of the header are replaced by the one
    value.  The name is given in canonical form. *)
Definition Header_Set (h : gmap string (list string)) (key value : string)
    : gmap string (list string) :=
  <[key := [value]]> h.

(** [w.Header().Set(key, value)] *)
Definition set_header (w : Response) (key value : string) : Response :=
  {| ResponseHeader := Header_Set (ResponseHeader w) key value;
     writer := writer w |}.

(** [w.WriteHeader(code)]: the first call fixes the status code of the
    response; a call on a response that has a status code is ignored. *)
Definition WriteHeader (w : Response) (code : Z) : Response :=
  if Status (writer w) =? 0 then
    {| ResponseHeader := ResponseHeader w;
       writer := {| Status := code; Written := Written (writer w) |} |}
  else w.

(** [CORSMiddleware] *)
Definition CORSMiddleware (next : Handler) : Handler :=
  fun w r =>
    let w := set_header w "Access-Control-Allow-Origin" "*" in
    let w := set_header w "Access-Control-Allow-Methods"
               "GET, POST, OPTIONS" in
    let w := set_header w "Access-Control-Allow-Headers"
               "Content-Type, Authorization" in
    if String.eqb (Method r) "OPTIONS" then WriteHeader w http.StatusOK
    else next w r.

(** ** Callers served at once

    The places a caller of [ServeHTTP] can be at under a positive ttl, once
    its address key has been read: before each of its actions, and at its
    return. *)

Inductive Phase :=
| at_Lock
| at_GetAddress
| at_GetClientIP
| at_Unlock_limited (w' : ResponseWriter)
| at_SetAddress
| at_SetClientIP
| at_Unlock
| at_Next
| at_RemoveAddress (w' : ResponseWriter)
| at_RemoveClientIP (w' : ResponseWriter)
| at_LogInfo (w' : ResponseWriter)
| at_return (ret : Return) (w' : ResponseWriter).

(** Where a probe leads: to the rejection if the key is live, on if not. *)
Definition after_probe (w : ResponseWriter) (res : option (bool * Z))
    (absent : Phase) : Phase :=
  match res with
  | Some (_, rem) => at_Unlock_limited (rejection w rem)
  | None => absent
  end.

(** Where the answer of the downstream handler leads. *)
Definition after_next (w' : ResponseWriter) : Phase :=
  if negb (Status w' =? http.StatusOK) then at_RemoveAddress w'
  else at_LogInfo w'.

(** [at_phase address clientIP d w r next ph p]: the program [p] is what is
    left to run of [ServeHTTP], for the keys [address] and [clientIP] under
    the ttl [d], by the caller with [w], [r] and [next] that is at [ph]. *)
Fixpoint at_phase (address clientIP : string) (d : Z) (w : ResponseWriter)
    (r : Request) (next : HandlerFunc) (ph : Phase)
    (p : Prog (Return * ResponseWriter)) {struct p} : Prop :=
  let here := at_phase address clientIP d w r next in
  match p with
  | Ret (ret, w') => ph = at_return ret w'
  | Do act k =>
      match act as a return (Result a -> Prog (Return * ResponseWriter)) -> Prop
      with
      | Lock => fun k =>
          ph = at_Lock /\ forall x, here at_GetAddress (k x)
      | GetWithTTL key => fun k =>
          (ph = at_GetAddress /\ key = address
           /\ forall res, here (after_probe w res at_GetClientIP) (k res))
          \/ (ph = at_GetClientIP /\ key = clientIP
              /\ forall res, here (after_probe w res at_SetAddress) (k res))
      | SetWithTTL key value d' => fun k =>
          value = true /\ d' = d
          /\ ((ph = at_SetAddress /\ key = address
               /\ forall x, here at_SetClientIP (k x))
              \/ (ph = at_SetClientIP /\ key = clientIP
                  /\ forall x, here at_Unlock (k x)))
      | Unlock => fun k =>
          (exists w', ph = at_Unlock_limited w'
                      /\ forall x, here (at_return return_limited w') (k x))
          \/ (ph = at_Unlock /\ forall x, here at_Next (k x))
      | Next next' w' r' => fun k =>
          ph = at_Next /\ next' = next /\ w' = w /\ r' = r
          /\ forall w'', here (after_next w'') (k w'')
      | Remove key => fun k =>
          exists w',
            (ph = at_RemoveAddress w' /\ key = address
             /\ forall x, here (at_RemoveClientIP w') (k x))
            \/ (ph = at_RemoveClientIP w' /\ key = clientIP
                /\ forall x, here (at_return return_removed w') (k x))
      | LogInfo _ _ _ => fun k =>
          exists w', ph = at_LogInfo w'
                     /\ forall x, here (at_return return_done w') (k x)
      end k
  end.

(** A caller between [Lock] and [Unlock]. *)
Definition critical (ph : Phase) : bool :=
  match ph with
  | at_GetAddress | at_GetClientIP | at_Unlock_limited _
  | at_SetAddress | at_SetClientIP | at_Unlock => true
  | _ => false
  end.

(** A caller that has set the address key, and has not removed it. *)
Definition reserved (ph : Phase) : bool :=
  match ph with
  | at_SetClientIP | at_Unlock | at_Next | at_RemoveAddress _ | at_LogInfo _
  | at_return return_done _ => true
  | _ => false
  end.

(** A caller that has found the address key absent, and has not (or not
    yet) been rejected on the identity key nor removed its entries. *)
Definition claimed (ph : Phase) : bool :=
  match ph with
  | at_GetClientIP | at_SetAddress => true
  | _ => reserved ph
  end.

(** A caller that has been rejected. *)
Definition limited (ph : Phase) : bool :=
  match ph with
  | at_Unlock_limited _ | at_return return_limited _ => true
  | _ => false
  end.

(** The places a caller can be at when every handler answers 200. *)
Definition no_rollback (ph : Phase) : bool :=
  match ph with
  | at_RemoveAddress _ | at_RemoveClientIP _ => false
  | at_return return_limited _ | at_return return_done _ => true
  | at_return _ _ => false
  | _ => true
  end.

(** The number of actions a caller still has to do, at most. *)
Definition rank (ph : Phase) : nat :=
  match ph with
  | at_Lock => 8
  | at_GetAddress => 7
  | at_GetClientIP => 6
  | at_SetAddress => 5
  | at_SetClientIP => 4
  | at_Unlock => 3
  | at_Next => 2
  | at_RemoveAddress _ => 2
  | at_RemoveClientIP _ => 1
  | at_LogInfo _ => 1
  | at_Unlock_limited _ => 1
  | at_return _ _ => 0
  end.

(** A caller: its response writer, its request and its handler. *)
Record Caller := {
  caller_w : ResponseWriter;
  caller_r : Request;
  caller_next : HandlerFunc
}.

(** The programs of callers that enter [l.ServeHTTP] on one limiter [l]. *)
Definition spawn (readAddress : Request -> string + error) (l : Limiter)
    (callers : list Caller) : option Pool :=
  mapM (fun c => ServeHTTP readAddress (proxyCount l) (ttl l)
                   (caller_w c) (caller_r c) (caller_next c)) callers.

(** A caller whose next action is one of the critical section: a probe, a
    set or the unlock. *)
Definition in_critical_section (p : Prog (Return * ResponseWriter)) : bool :=
  match p with
  | Do (GetWithTTL _) _ | Do (SetWithTTL _ _ _) _ | Do Unlock _ => true
  | _ => false
  end.

(** What holds of callers of one identity served at once, while none has
    rolled back and the clock stays within the window opened at [σ0]:
    [phs] tells where each caller is. *)
Record Inv (clock : nat -> Z) (address clientIP : string) (d : Z)
    (σ0 : World) (callers : list Caller) (phs : list Phase) (pool : Pool)
    (σ : World) : Prop := {
  inv_phases : length phs = length callers;
  inv_pool : length pool = length callers;
  inv_at : forall i c ph p,
    callers !! i = Some c -> phs !! i = Some ph -> pool !! i = Some p ->
    at_phase address clientIP d (caller_w c) (caller_r c) (caller_next c) ph p;
  inv_skip : ttlcache.skipTTLExtension (cache (limiter σ)) = true;
  inv_ticks : (ticks σ0 <= ticks σ)%nat;
  inv_no_rollback : forall i ph, phs !! i = Some ph -> no_rollback ph = true;
  inv_locked : forall i ph,
    phs !! i = Some ph -> critical ph = true -> mutex (limiter σ) = true;
  inv_holder :
    mutex (limiter σ) = true ->
    exists i ph, phs !! i = Some ph /\ critical ph = true;
  inv_exclusion : forall i j phi phj,
    phs !! i = Some phi -> phs !! j = Some phj ->
    critical phi = true -> critical phj = true -> i = j;
  inv_one_claim : forall i j phi phj,
    phs !! i = Some phi -> phs !! j = Some phj ->
    claimed phi = true -> claimed phj = true -> i = j;
  inv_reserved : forall i ph,
    phs !! i = Some ph -> reserved ph = true ->
    exists it, ttlcache.items (cache (limiter σ)) !! address = Some it
               /\ clock (ticks σ0) + d <= ttlcache.expireAt it;
  inv_untouched :
    (forall i ph, phs !! i = Some ph -> reserved ph = false) ->
    cache (limiter σ) = cache (limiter σ0);
  inv_limited : forall i ph,
    phs !! i = Some ph -> limited ph = true ->
    exists j phj, phs !! j = Some phj /\ reserved phj = true
}.
(** ** Notions used to state what the middleware keeps to *)

(** The keys a call of [ServeHTTP] for [r] probes and sets under a positive
    ttl: the address key and the identity key; none when the address cannot
    be read. *)
Definition keys (readAddress : Request -> string + error) (proxyCount : Z)
    (r : Request) : list string :=
  match readAddress r, getClientIPFromRequest proxyCount r with
  | inl address, Some clientIP => [address; clientIP]
  | _, _ => []
  end.

(** The actions a caller does while it holds the mutex: the probes, the
    sets and the unlock. *)
Definition under_mutex (act : Action) : bool :=
  match act with
  | Unlock | GetWithTTL _ | SetWithTTL _ _ _ => true
  | _ => false
  end.

(** Whether a caller holds the mutex after an action, given whether it held
    it before. *)
Definition holds_after (act : Action) (held : bool) : bool :=
  match act with
  | Lock => true
  | Unlock => false
  | _ => held
  end.

(** [disciplined n held p]: whatever its actions give back, the program [p]
    of a caller that holds the mutex or not, as [held] tells, does at most
    [n] actions; it probes, sets and unlocks only while it holds the mutex;
    it locks, removes, calls the downstream handler and logs only while it
    does not; and it does not hold the mutex when it returns. *)
Fixpoint disciplined {A} (n : nat) (held : bool) (p : Prog A) {struct p}
    : Prop :=
  match p with
  | Ret _ => held = false
  | Do act k =>
      match n with
      | O => False
      | S n' =>
          under_mutex act = held
          /\ forall x, disciplined n' (holds_after act held) (k x)
      end
  end.

(** What holds of any callers served at once: [ns] bounds the number of
    actions each caller still has to do. *)
Record Locking (ns : list nat) (pool : Pool) (σ : World) : Prop := {
  locking_bounds : length ns = length pool;
  locking_disciplined : forall i n p,
    ns !! i = Some n -> pool !! i = Some p ->
    disciplined n (in_critical_section p) p;
  locking_holder :
    mutex (limiter σ) = true ->
    exists i p, pool !! i = Some p /\ in_critical_section p = true;
  locking_locked : forall i p,
    pool !! i = Some p -> in_critical_section p = true ->
    mutex (limiter σ) = true;
  locking_exclusion : forall i j p q,
    pool !! i = Some p -> pool !! j = Some q ->
    in_critical_section p = true -> in_critical_section q = true -> i = j
}.


(** The calls of a run whose requests use none of the keys of another
    request of the run. *)
Fixpoint apart (readAddress : Request -> string + error) (proxyCount : Z)
    (calls : list (ResponseWriter * Request * HandlerFunc)) : Prop :=
  match calls with
  | [] => True
  | (_, r, _) :: calls' =>
      (forall w' r' next' key,
         (w', r', next') ∈ calls' ->
         key ∈ keys readAddress proxyCount r ->
         key ∉ keys readAddress proxyCount r')
      /\ apart readAddress proxyCount calls'
  end.

(** The paths of a call under a positive ttl, from the equation
    [serve_positive] gives for it. *)
Ltac serve_paths H :=
  cbv zeta in H;
  repeat match type of H with
         | Some (match ?x with _ => _ end) = _ => destruct x eqn:?
         | Some (if ?x then _ else _) = _ => destruct x eqn:?
         end.

(** [confined own probing p]: the program [p] probes, sets and removes no
    other keys than [own]; it probes only as long as it has set none, which
    [probing] tells; and, as long as its probes find nothing, it does not
    return rejected. *)
Fixpoint confined (own : list string) (probing : bool)
    (p : Prog (Return * ResponseWriter)) {struct p} : Prop :=
  match p with
  | Ret (ret, _) => ret <> return_limited
  | Do act k =>
      match act as a return (Result a -> Prog (Return * ResponseWriter)) -> Prop
      with
      | GetWithTTL key => fun k =>
          probing = true /\ key ∈ own /\ confined own true (k None)
      | SetWithTTL key _ _ => fun k =>
          key ∈ own /\ forall x, confined own false (k x)
      | Remove key => fun k =>
          key ∈ own /\ forall x, confined own false (k x)
      | Lock => fun k => forall x, confined own probing (k x)
      | Unlock => fun k => forall x, confined own probing (k x)
      | Next _ _ _ => fun k => forall x, confined own probing (k x)
      | LogInfo _ _ _ => fun k => forall x, confined own probing (k x)
      end k
  end.

(** What holds of callers served at once whose requests use keys that are
    not in the store at the start, no key being used by two of them: [owns]
    are the keys of each caller, [flags] tell which callers have set no
    entry yet. *)
Record Confined (owns : list (list string)) (flags : list bool)
    (pool : Pool) (σ : World) : Prop := {
  confined_owns : length owns = length pool;
  confined_flags : length flags = length pool;
  confined_programs : forall i own probing p,
    owns !! i = Some own -> flags !! i = Some probing ->
    pool !! i = Some p -> confined own probing p;
  confined_absent : forall i own key,
    owns !! i = Some own -> flags !! i = Some true -> key ∈ own ->
    ttlcache.items (cache (limiter σ)) !! key = None
}.

(** A key is not one of the keys listed. *)
Ltac not_listed :=
  let H := fresh in
  intros H;
  repeat (apply elem_of_cons in H as [H|H]; [discriminate H|]);
  apply elem_of_nil in H; exact H.

(** The members of a list that is written out, one by one. *)
Ltac listed H :=
  repeat (apply elem_of_cons in H as [H|H]; [|]);
  [..|apply elem_of_nil in H; contradiction].

(** ** A sample deployment, for concrete runs *)

Module Sample.

(** A stand-in for [readAddress]: the address key is the body of the
    request, and an empty body is a malformed request. *)
Definition readAddress (r : Request) : string + error :=
  if String.eqb (Body r) EmptyString then
    inr (error_malformedRequest
           {| status := 400; message := "Request body must not be empty" |})
  else inl (Body r).

(** A request for [address] from the peer [remote], with the forwarded-for
    header [forwarded] if it is not empty. *)
Definition request (address remote forwarded : string) : Request :=
  {| Header :=
       if String.eqb forwarded EmptyString then ∅
       else {[ "X-Forwarded-For" := [forwarded] ]};
     RemoteAddr := remote;
     Body := address |}.

(** A clock that advances by a tenth of a second from one reading to the
    next, and one that advances by a minute. *)
Definition clock (n : nat) : Z := Z.of_nat n * 100000000.
Definition slow_clock (n : nat) : Z := Z.of_nat n * 60000000000.

(** A downstream handler that answers 200, and one that answers 500. *)
Definition succeed : HandlerFunc :=
  fun w _ => {| Status := 200; Written := Written w +:+ "ok" |}.
Definition fail : HandlerFunc :=
  fun w _ => {| Status := 500; Written := Written w +:+ "error" |}.

(** A response writer nothing has been written to. *)
Definition fresh : ResponseWriter := {| Status := 0; Written := EmptyString |}.

Definition alice : Request := request "0xA11CE" "192.0.2.7:51234" EmptyString.
Definition bob : Request := request "0xB0B" "198.51.100.9:40000" EmptyString.

(** A request that came through two proxies. *)
Definition proxied : Request :=
  request "0xC0FFEE" "10.0.0.2:443" "1.2.3.4, 10.0.0.1, 10.0.0.2".

(** A limiter with a window of one minute and no trusted proxy. *)
Definition minute : World := start 0 60000000000.

(** The state of that limiter once alice has been admitted and served. *)
Definition after_alice : World :=
  match serve readAddress clock minute fresh alice succeed with
  | Some (_, _, σ) => σ
  | None => minute
  end.

(** A limiter with limiting disabled. *)
Definition disabled : World := start 0 0.

(** A clock that stops after a minute. *)
Definition bounded_clock (n : nat) : Z :=
  Z.min (Z.of_nat n * 100000000) 60000000000.

(** A limiter with a window of a tenth of a second. *)
Definition short : World := start 0 100000000.

(** Two calls of alice at once, and what is left of them after the first
    has been admitted and served while the second was rejected. *)
Definition twice (next : HandlerFunc) : list Caller :=
  [{| caller_w := fresh; caller_r := alice; caller_next := next |};
   {| caller_w := fresh; caller_r := alice; caller_next := next |}].

Definition racers (next : HandlerFunc) (σ : World) : Pool :=
  match spawn readAddress (limiter σ) (twice next) with
  | Some pool => pool
  | None => []
  end.

Definition interleaved : list nat :=
  [0; 0; 0; 0; 0; 0; 1; 0; 1; 1; 0]%nat.

Definition race_end : Pool * World :=
  match steps bounded_clock interleaved (racers succeed minute, minute)
  with
  | Some ps => ps
  | None => ([], minute)
  end.

(** The first caller reserves and is served; the second locks; the first
    removes its entries; the second probes, reserves and is served. *)
Definition rolled_back : list nat :=
  [0; 0; 0; 0; 0; 0; 0; 1; 0; 0; 1; 1; 1; 1; 1; 1; 1; 1]%nat.

(** The first caller reserves; the second locks, probes, reserves and is
    served while the first is still with its handler. *)
Definition overtaken : list nat :=
  [0; 0; 0; 0; 0; 0; 1; 1; 1; 1; 1; 1; 0; 1; 0; 1]%nat.

(** What the callers of a pool have returned. *)
Definition returns (ps : option (Pool * World))
    : option (list (option Return)) :=
  match ps with
  | Some (pool, _) => Some (map returned pool)
  | None => None
  end.

(** Alice, whose handler answers 200, and then bob, whose handler fails. *)
Definition two_calls : list (ResponseWriter * Request * HandlerFunc) :=
  [(fresh, alice, succeed); (fresh, bob, fail)].

Definition after_two_calls : list (Return * ResponseWriter) * World :=
  match serve_all readAddress clock minute two_calls with
  | Some run => run
  | None => ([], minute)
  end.



(** Alice under the clock that advances by a minute, and bob after her. *)
Definition slow_alice : Return * ResponseWriter * World :=
  match serve readAddress slow_clock minute fresh alice succeed with
  | Some call => call
  | None => (return_error, fresh, minute)
  end.

Definition then_bob : list (ResponseWriter * Request * HandlerFunc) :=
  [(fresh, bob, succeed)].

Definition slow_bob : list (Return * ResponseWriter) * World :=
  match serve_all readAddress slow_clock slow_alice.2 then_bob with
  | Some run => run
  | None => ([], minute)
  end.

(** Alice and bob at once. *)
Definition both (next : HandlerFunc) : list Caller :=
  [{| caller_w := fresh; caller_r := alice; caller_next := next |};
   {| caller_w := fresh; caller_r := bob; caller_next := next |}].

Definition both_pool (next : HandlerFunc) (σ : World) : Pool :=
  match spawn readAddress (limiter σ) (both next) with
  | Some pool => pool
  | None => []
  end.

(** Alice reserves; bob locks while alice is with her handler, reserves and
    is served. *)
Definition side_by_side : list nat :=
  [0; 0; 0; 0; 0; 0; 1; 0; 1; 1; 1; 1; 1; 0; 1; 1]%nat.

Definition both_end : Pool * World :=
  match steps clock side_by_side (both_pool succeed minute, minute) with
  | Some ps => ps
  | None => ([], minute)
  end.

(** A request whose forwarded-for header ends with a comma and a space. *)
Definition trailing : Request :=
  request "0xD00D" "10.0.0.2:443" "1.2.3.4, ".

(** A verifier that accepts the token ["valid"] only. *)
Definition verifier (c : hcaptcha.Client) (token : string)
    : hcaptcha.Response :=
  {| hcaptcha.Success := String.eqb token "valid" |}.

(** A response nothing has been written to, with a header of its own, and a
    preflight request. *)
Definition fresh_response : Response :=
  {| ResponseHeader := {[ "Content-Type" := ["application/json"] ]};
     writer := fresh |}.

Definition preflight : MethodRequest :=
  {| Method := "OPTIONS"; fields := alice |}.

End Sample.

(** * Properties of the library models *)

Section Durations.

Import time.

Lemma Second_value : Second = 1000000000.
Proof. reflexivity. Qed.

Lemma int64_small x : - 2 ^ 63 <= x < 2 ^ 63 -> int64 x = x.
Proof.
  intros H. unfold int64.
  rewrite Z.mod_small by lia. lia.
Qed.

Lemma uint64_small x : 0 <= x < 2 ^ 64 -> uint64 x = x.
Proof. intros H. unfold uint64. apply Z.mod_small. lia. Qed.

(** [Round] to the second, on a duration that is not negative and at least
    half a second short of the longest one: the quotient of [d] plus half a
    second by a second, in seconds. *)
Lemma Round_Second d :
  0 <= d -> d + 500000000 <= maxDuration ->
  Round d Second = Second * ((d + 500000000) / Second).
Proof.
  intros Hd Hmax. unfold Round, maxDuration in *.
  rewrite Second_value.
  change (1000000000 <=? 0) with false. cbv iota.
  destruct (Z.ltb_spec d 0) as [|_]; [lia|].
  rewrite Z.rem_mod_nonneg by lia.
  assert (Hr : 0 <= d mod 1000000000 < 1000000000)
    by (apply Z.mod_pos_bound; lia).
  unfold lessThanHalf.
  rewrite (uint64_small (d mod 1000000000)) by lia.
  rewrite uint64_small by lia.
  rewrite (uint64_small 1000000000) by lia.
  pose proof (Z.div_mod d 1000000000 ltac:(lia)) as Hdm.
  destruct (Z.ltb_spec (d mod 1000000000 + d mod 1000000000) 1000000000).
  - rewrite int64_small by lia.
    assert ((d + 500000000) / 1000000000 = d / 1000000000) as ->; [|lia].
    symmetry. apply Z.div_unique with (r := d mod 1000000000 + 500000000); lia.
  - rewrite int64_small by lia.
    destruct (Z.ltb_spec d (d + 1000000000 - d mod 1000000000)); [|lia].
    assert ((d + 500000000) / 1000000000 = d / 1000000000 + 1) as ->; [|lia].
    symmetry. apply Z.div_unique with (r := d mod 1000000000 - 500000000); lia.
Qed.

Lemma Round_nearest_second d :
  0 <= d -> d + 500000000 <= maxDuration ->
  nearest_second d (Round d Second).
Proof.
  intros Hd Hmax. rewrite Round_Second by assumption.
  split.
  - exists ((d + 500000000) / Second). lia.
  - rewrite Second_value.
    pose proof (Z.div_mod (d + 500000000) 1000000000 ltac:(lia)).
    pose proof (Z.mod_pos_bound (d + 500000000) 1000000000 ltac:(lia)).
    lia.
Qed.

Lemma Round_Second_mono d1 d2 :
  0 <= d1 <= d2 -> d2 + 500000000 <= maxDuration ->
  Round d1 Second <= Round d2 Second.
Proof.
  intros H Hmax. rewrite !Round_Second by lia.
  rewrite Second_value.
  apply Z.mul_le_mono_nonneg_l; [lia|].
  apply Z.div_le_mono; lia.
Qed.

(** [Round] to the second on every duration that is not negative: down to
    the second below, up to the second above, or, where that second is
    beyond the longest [Duration], the longest [Duration]. *)
Lemma Round_Second_cases d :
  0 <= d <= maxDuration ->
  Round d Second
  = if 2 * (d mod 1000000000) <? 1000000000 then d - d mod 1000000000
    else if d + 1000000000 - d mod 1000000000 <=? maxDuration
         then d + 1000000000 - d mod 1000000000
         else maxDuration.
Proof.
  intros Hd. unfold Round, maxDuration in *.
  rewrite Second_value.
  change (1000000000 <=? 0) with false. cbv iota.
  destruct (Z.ltb_spec d 0) as [|_]; [lia|].
  rewrite Z.rem_mod_nonneg by lia.
  assert (Hr : 0 <= d mod 1000000000 < 1000000000)
    by (apply Z.mod_pos_bound; lia).
  unfold lessThanHalf.
  rewrite (uint64_small (d mod 1000000000)) by lia.
  rewrite uint64_small by lia.
  rewrite (uint64_small 1000000000) by lia.
  destruct (Z.ltb_spec (d mod 1000000000 + d mod 1000000000) 1000000000);
    destruct (Z.ltb_spec (2 * (d mod 1000000000)) 1000000000); try lia.
  - apply int64_small. lia.
  - destruct (Z.leb_spec (d + 1000000000 - d mod 1000000000) (2 ^ 63 - 1)).
    + rewrite int64_small by lia.
      destruct (Z.ltb_spec d (d + 1000000000 - d mod 1000000000)); lia.
    + unfold int64.
      replace (d + 1000000000 - d mod 1000000000 + 2 ^ 63)
        with (d + 1000000000 - d mod 1000000000 - 2 ^ 63 + 1 * 2 ^ 64) by lia.
      rewrite Z.mod_add by lia. rewrite Z.mod_small by lia.
      destruct (Z.ltb_spec d
                  (d + 1000000000 - d mod 1000000000 - 2 ^ 63 - 2 ^ 63)); lia.
Qed.

(** Rounding to the second keeps the order of durations. *)
Lemma Round_Second_le d1 d2 :
  0 <= d1 <= d2 -> d2 <= maxDuration ->
  Round d1 Second <= Round d2 Second.
Proof.
  intros H Hmax. rewrite !Round_Second_cases by lia.
  unfold maxDuration in *.
  pose proof (Z.div_mod d1 1000000000 ltac:(lia)).
  pose proof (Z.div_mod d2 1000000000 ltac:(lia)).
  pose proof (Z.mod_pos_bound d1 1000000000 ltac:(lia)).
  pose proof (Z.mod_pos_bound d2 1000000000 ltac:(lia)).
  assert (d1 / 1000000000 <= d2 / 1000000000)
    by (apply Z.div_le_mono; lia).
  repeat match goal with
         | |- context [?a <? ?b] => destruct (Z.ltb_spec a b)
         | |- context [?a <=? ?b] => destruct (Z.leb_spec a b)
         end; lia.
Qed.

End Durations.

Section Strings.

Import GoString.

Lemma len_nonneg s : 0 <= len s.
Proof. unfold len. lia. Qed.

Lemma len_String c s : len (String c s) = len s + 1.
Proof. unfold len. simpl. lia. Qed.

Lemma len_app a b : len (a +:+ b) = len a + len b.
Proof.
  induction a as [|c a IH]; [reflexivity|].
  change (String c a +:+ b) with (String c (a +:+ b)).
  rewrite !len_String, IH. lia.
Qed.

Lemma IndexByteString_none s c :
  occurs c s = false -> IndexByteString s c = -1.
Proof.
  induction s as [|d s IH]; simpl; [reflexivity|].
  destruct (Ascii.eqb d c); simpl; [discriminate|].
  intros H. rewrite (IH H). reflexivity.
Qed.

Lemma IndexByteString_range s c : -1 <= IndexByteString s c < len s.
Proof.
  induction s as [|d s IH]; simpl.
  - unfold len. simpl. lia.
  - rewrite len_String. destruct (Ascii.eqb d c); [lia|].
    destruct (Z.ltb_spec (IndexByteString s c) 0); lia.
Qed.

Lemma IndexByteString_some s c :
  occurs c s = true -> 0 <= IndexByteString s c.
Proof.
  induction s as [|d s IH]; simpl; [discriminate|].
  destruct (Ascii.eqb d c); simpl; [lia|].
  intros H. specialize (IH H).
  destruct (Z.ltb_spec (IndexByteString s c) 0); lia.
Qed.

(** The first occurrence: after a prefix without the byte. *)
Lemma IndexByteString_app a b c :
  occurs c a = false -> IndexByteString (a +:+ String c b) c = len a.
Proof.
  induction a as [|d a IH]; simpl.
  - rewrite Ascii.eqb_refl. reflexivity.
  - destruct (Ascii.eqb d c); simpl; [discriminate|].
    intros H. rewrite (IH H), len_String.
    pose proof (len_nonneg a).
    destruct (Z.ltb_spec (len a) 0); lia.
Qed.

Lemma LastIndexByteString_none s c :
  occurs c s = false -> LastIndexByteString s c = -1.
Proof.
  induction s as [|d s IH]; simpl; [reflexivity|].
  destruct (Ascii.eqb d c); simpl; [discriminate|].
  intros H. rewrite (IH H). reflexivity.
Qed.

(** The last occurrence: before a suffix without the byte. *)
Lemma LastIndexByteString_app a b c :
  occurs c b = false -> LastIndexByteString (a +:+ String c b) c = len a.
Proof.
  intros Hb. induction a as [|d a IH]; simpl.
  - rewrite (LastIndexByteString_none _ _ Hb). simpl.
    rewrite Ascii.eqb_refl. reflexivity.
  - rewrite IH, len_String. pose proof (len_nonneg a).
    destruct (Z.leb_spec 0 (len a)); lia.
Qed.

Lemma occurs_app c a b : occurs c (a +:+ b) = occurs c a || occurs c b.
Proof.
  induction a as [|d a IH]; simpl; [reflexivity|].
  rewrite IH. apply orb_assoc.
Qed.

Lemma substring_all s : String.substring 0 (String.length s) s = s.
Proof. induction s as [|c s IH]; simpl; [reflexivity|]. rewrite IH. reflexivity. Qed.

Lemma substring_prefix a b :
  String.substring 0 (String.length a) (a +:+ b) = a.
Proof.
  induction a as [|c a IH]; simpl.
  - destruct b; reflexivity.
  - rewrite IH. reflexivity.
Qed.

Lemma substring_skip a b n :
  String.substring (String.length a) n (a +:+ b) = String.substring 0 n b.
Proof. induction a as [|c a IH]; simpl; [reflexivity|]. exact IH. Qed.

(** [(a ++ b)[0:len a] = a] *)
Lemma slice_prefix a b : slice (a +:+ b) 0 (len a) = a.
Proof.
  unfold slice, len. rewrite Z.sub_0_r, Nat2Z.id. simpl.
  apply substring_prefix.
Qed.

(** [(a ++ b)[len a:] = b] *)
Lemma from_suffix a b : from (a +:+ b) (len a) = b.
Proof.
  unfold from, slice. rewrite len_app.
  replace (len a + len b - len a) with (len b) by lia.
  unfold len. rewrite !Nat2Z.id, substring_skip. apply substring_all.
Qed.

Lemma from_0 s : from s 0 = s.
Proof. apply (from_suffix EmptyString s). Qed.

Lemma at_0 c s : at_ (String c s) 0 = byte c.
Proof. reflexivity. Qed.

Lemma byte_inj c d : byte c = byte d -> c = d.
Proof.
  unfold byte. intros H. apply N2Z.inj in H.
  rewrite <- (ascii_N_embedding c), <- (ascii_N_embedding d), H. reflexivity.
Qed.

Lemma byte_eqb c d : (byte c =? byte d) = Ascii.eqb c d.
Proof.
  destruct (Ascii.eqb_spec c d) as [->|Hne].
  - apply Z.eqb_refl.
  - apply Z.eqb_neq. intros H. apply Hne, byte_inj, H.
Qed.

Lemma at_0_other c s :
  s <> EmptyString -> occurs c s = false -> (at_ s 0 =? byte c) = false.
Proof.
  destruct s as [|d s]; [congruence|]. simpl. intros _ H.
  apply orb_false_elim in H as [H _]. rewrite at_0, byte_eqb. exact H.
Qed.

Lemma app_assoc_string a b c : (a +:+ b) +:+ c = a +:+ (b +:+ c).
Proof.
  induction a as [|d a IH]; [reflexivity|].
  change (String d ((a +:+ b) +:+ c) = String d (a +:+ (b +:+ c))).
  rewrite IH. reflexivity.
Qed.

(** [(a ++ b ++ c)[len a : len a + len b] = b] *)
Lemma slice_middle a b c :
  slice (a +:+ b +:+ c) (len a) (len a + len b) = b.
Proof.
  unfold slice. replace (len a + len b - len a) with (len b) by lia.
  unfold len. rewrite !Nat2Z.id, substring_skip. apply substring_prefix.
Qed.

(** [net.SplitHostPort] on ["host:port"]. *)
Lemma SplitHostPort_plain host port :
  plain host -> plain port ->
  net.SplitHostPort (host +:+ String ":" port) = inl (host, port).
Proof.
  intros (Hc & Ho & Hcl) (Pc & Po & Pcl). unfold net.SplitHostPort.
  rewrite (LastIndexByteString_app _ _ _ Pc).
  pose proof (len_nonneg host).
  destruct (Z.ltb_spec (len host) 0) as [|_]; [lia|].
  rewrite at_0_other;
    [|destruct host; discriminate
     |rewrite occurs_app; simpl; rewrite Ho, Po; reflexivity].
  rewrite slice_prefix, (IndexByteString_none _ _ Hc).
  change (0 <=? -1) with false. cbv iota.
  rewrite from_0.
  rewrite !IndexByteString_none
    by (rewrite occurs_app; simpl; rewrite ?Ho, ?Po, ?Hcl, ?Pcl; reflexivity).
  change (0 <=? -1) with false. cbv iota.
  replace (len host + 1) with (len (host +:+ ":")) by (rewrite len_app; reflexivity).
  change (host +:+ String ":" port) with (host +:+ (":" +:+ port)).
  rewrite <- app_assoc_string, from_suffix. reflexivity.
Qed.

(** [net.SplitHostPort] on ["[host]:port"]: the brackets go too. *)
Lemma SplitHostPort_bracketed host port :
  occurs "[" host = false -> occurs "]" host = false -> plain port ->
  net.SplitHostPort (String "[" (host +:+ String "]" (String ":" port)))
  = inl (host, port).
Proof.
  intros Ho Hcl (Pc & Po & Pcl).
  pose proof (len_nonneg host). pose proof (len_nonneg port).
  set (hp := String "[" (host +:+ String "]" (String ":" port))).
  assert (E1 : hp = ("[" +:+ host +:+ "]") +:+ String ":" port).
  { subst hp.
    change (String "[" (host +:+ String "]" (String ":" port))
            = String "[" ((host +:+ "]") +:+ String ":" port)).
    rewrite (app_assoc_string host "]" (String ":" port)). reflexivity. }
  assert (E2 : hp = ("[" +:+ host) +:+ String "]" (String ":" port))
    by reflexivity.
  assert (E3 : hp = "[" +:+ host +:+ String "]" (String ":" port))
    by reflexivity.
  assert (E4 : hp = ("[" +:+ host +:+ "]:") +:+ port).
  { subst hp.
    change (String "[" (host +:+ String "]" (String ":" port))
            = String "[" ((host +:+ "]:") +:+ port)).
    rewrite (app_assoc_string host "]:" port). reflexivity. }
  assert (Hi : LastIndexByteString hp ":" = len host + 2).
  { rewrite E1, (LastIndexByteString_app _ _ _ Pc), !len_app.
    change (len "[") with 1. change (len "]") with 1. lia. }
  assert (Hend : IndexByteString hp "]" = len host + 1).
  { rewrite E2, IndexByteString_app by (simpl; exact Hcl).
    rewrite len_app. change (len "[") with 1. lia. }
  assert (Hlen : len hp = len host + len port + 3).
  { rewrite E4, !len_app. change (len "[") with 1. change (len "]:") with 2.
    lia. }
  assert (Hhost : slice hp 1 (len host + 1) = host).
  { rewrite E3, Z.add_comm. apply (slice_middle "[" host _). }
  assert (Hfrom1 : from hp 1 = host +:+ String "]" (String ":" port)).
  { rewrite E3. apply (from_suffix "[" _). }
  assert (Hfromk : from hp (len host + 1 + 1) = String ":" port).
  { replace (len host + 1 + 1) with (len ("[" +:+ host +:+ "]"))
      by (rewrite !len_app; change (len "[") with 1; change (len "]") with 1;
          lia).
    rewrite E1. apply from_suffix. }
  assert (Hport : from hp (len host + 2 + 1) = port).
  { replace (len host + 2 + 1) with (len ("[" +:+ host +:+ "]:"))
      by (rewrite !len_app; change (len "[") with 1; change (len "]:") with 2;
          lia).
    rewrite E4. apply from_suffix. }
  unfold net.SplitHostPort. rewrite Hi, Hend, Hlen, Hhost.
  destruct (Z.ltb_spec (len host + 2) 0) as [|_]; [lia|].
  change (at_ hp 0) with (byte "["). rewrite Z.eqb_refl.
  destruct (Z.ltb_spec (len host + 1) 0) as [|_]; [lia|].
  destruct (Z.eqb_spec (len host + 1 + 1) (len host + len port + 3))
    as [|_]; [lia|].
  destruct (Z.eqb_spec (len host + 1 + 1) (len host + 2)) as [_|]; [|lia].
  cbv beta iota. rewrite Hfrom1, Hfromk, Hport.
  rewrite IndexByteString_none
    by (rewrite occurs_app; simpl; rewrite Ho, Po; reflexivity).
  change (0 <=? -1) with false. cbv iota.
  rewrite IndexByteString_none by (simpl; exact Pcl).
  reflexivity.
Qed.

(** The first loop of [TrimSpace] on ASCII bytes stops at the first byte
    that is not a space. *)
Lemma TrimSpace_start_spec fuel s start :
  ascii_only s ->
  0 <= start <= len s ->
  len s - start < Z.of_nat fuel ->
  (forall i, 0 <= i < start -> strings.asciiSpace (at_ s i) = true) ->
  exists start',
    strings.TrimSpace_start fuel s start = inl start'
    /\ start <= start' <= len s
    /\ (forall i, 0 <= i < start' -> strings.asciiSpace (at_ s i) = true)
    /\ (start' < len s -> strings.asciiSpace (at_ s start') = false).
Proof.
  intros Hascii. revert start.
  induction fuel as [|fuel IH]; intros start Hstart Hfuel Hspaces; [lia|].
  simpl. destruct (Z.leb_spec (len s) start) as [Hend|Hin].
  - exists start. split; [reflexivity|]. split; [lia|].
    split; [exact Hspaces|]. intros; lia.
  - destruct (Z.leb_spec utf8.RuneSelf (at_ s start)) as [Hhigh|_].
    { specialize (Hascii start ltac:(lia)). lia. }
    destruct (strings.asciiSpace (at_ s start)) eqn:Hsp; simpl.
    + destruct (IH (start + 1)) as (start' & Hrun & Hle & Hsp' & Hstop);
        [lia|lia| |].
      * intros i Hi. destruct (Z.eq_dec i start) as [->|]; [exact Hsp|].
        apply Hspaces. lia.
      * exists start'. split; [exact Hrun|]. split; [lia|].
        split; assumption.
    + exists start. split; [reflexivity|]. split; [lia|].
      split; [exact Hspaces|]. intros _. exact Hsp.
Qed.

(** The second loop stops after the last byte that is not a space. *)
Lemma TrimSpace_stop_spec fuel s start stop :
  ascii_only s ->
  0 <= start <= stop -> stop <= len s ->
  stop - start < Z.of_nat fuel ->
  (forall i, stop <= i < len s -> strings.asciiSpace (at_ s i) = true) ->
  exists stop',
    strings.TrimSpace_stop fuel s start stop = inl stop'
    /\ start <= stop' <= stop
    /\ (forall i, stop' <= i < len s -> strings.asciiSpace (at_ s i) = true)
    /\ (start < stop' -> strings.asciiSpace (at_ s (stop' - 1)) = false).
Proof.
  intros Hascii. revert stop.
  induction fuel as [|fuel IH]; intros stop Hstart Hstop Hfuel Hspaces; [lia|].
  simpl. destruct (Z.leb_spec stop start) as [Hend|Hin].
  - exists stop. split; [reflexivity|]. split; [lia|].
    split; [exact Hspaces|]. intros; lia.
  - destruct (Z.leb_spec utf8.RuneSelf (at_ s (stop - 1))) as [Hhigh|_].
    { specialize (Hascii (stop - 1) ltac:(lia)). lia. }
    destruct (strings.asciiSpace (at_ s (stop - 1))) eqn:Hsp; simpl.
    + destruct (IH (stop - 1)) as (stop' & Hrun & Hle & Hsp' & Hlast);
        [lia|lia|lia| |].
      * intros i Hi. destruct (Z.eq_dec i (stop - 1)) as [->|]; [exact Hsp|].
        apply Hspaces. lia.
      * exists stop'. split; [exact Hrun|]. split; [lia|].
        split; assumption.
    + exists stop. split; [reflexivity|]. split; [lia|].
      split; [exact Hspaces|]. intros _. exact Hsp.
Qed.

(** [strings.TrimSpace] on ASCII bytes. *)
Lemma TrimSpace_trimmed s : ascii_only s -> trimmed s (strings.TrimSpace s).
Proof.
  intros Hascii. unfold strings.TrimSpace.
  pose proof (len_nonneg s) as Hlen.
  destruct (TrimSpace_start_spec (S (String.length s)) s 0 Hascii)
    as (start & -> & Hstart & Hlead & Hfirst);
    [lia|unfold len; lia|intros; lia|].
  destruct (TrimSpace_stop_spec (S (String.length s)) s start (len s) Hascii)
    as (stop & -> & Hstop & Htrail & Hlast);
    [lia|lia|unfold len; lia|intros; lia|].
  exists start, stop.
  split; [lia|]. split; [lia|]. split; [reflexivity|].
  split; [exact Hlead|]. split; [exact Htrail|].
  intros Hlt. split; [apply Hfirst|apply Hlast]; lia.
Qed.

End Strings.

Section Resolver.

Lemma Split_length s sep : (1 <= length (strings.Split s sep))%nat.
Proof.
  induction s as [|c s IH]; simpl; [lia|].
  destruct (Ascii.eqb c sep); simpl; [lia|].
  destruct (strings.Split s sep); simpl in *; lia.
Qed.

Lemma index_in_range {A} (a : list A) (i : Z) :
  0 <= i < Z.of_nat (length a) -> is_Some (index a i).
Proof.
  intros H. unfold index.
  destruct (Z.leb_spec 0 i); [|lia].
  destruct (Z.ltb_spec i (Z.of_nat (length a))); [|lia].
  simpl. apply lookup_lt_is_Some. lia.
Qed.

(** The index [getClientIPFromRequest] reads is within the parts. *)
Lemma partIndex_in_range (parts : list string) (proxyCount : Z) :
  (1 <= length parts)%nat -> 0 < proxyCount ->
  let partIndex := Z.of_nat (length parts) - proxyCount in
  0 <= (if partIndex <? 0 then 0 else partIndex) < Z.of_nat (length parts).
Proof.
  intros Hlen Hpc partIndex. subst partIndex.
  destruct (Z.ltb_spec (Z.of_nat (length parts) - proxyCount) 0); lia.
Qed.

Lemma getClientIPFromRequest_total proxyCount r :
  is_Some (getClientIPFromRequest proxyCount r).
Proof.
  unfold getClientIPFromRequest.
  destruct (Z.ltb_spec 0 proxyCount); [|eauto].
  destruct (negb _); [|eauto].
  apply fmap_is_Some, index_in_range, partIndex_in_range;
    [apply Split_length | assumption].
Qed.

(** The parts [strings.Split] returns are the pieces of [s] between the
    separators: joined again they give [s], and none holds a separator. *)
Lemma Split_Join s sep : Join (strings.Split s sep) sep = s.
Proof.
  induction s as [|c s IH]; simpl; [reflexivity|].
  pose proof (Split_length s sep) as Hlen.
  destruct (Ascii.eqb_spec c sep) as [->|Hne].
  - destruct (strings.Split s sep) as [|part parts]; [simpl in Hlen; lia|].
    change (String sep (Join (part :: parts) sep) = String sep s).
    rewrite IH. reflexivity.
  - destruct (strings.Split s sep) as [|part parts]; [simpl in Hlen; lia|].
    rewrite <- IH. destruct parts; reflexivity.
Qed.

Lemma Split_no_separator s sep :
  Forall (fun part => occurs sep part = false) (strings.Split s sep).
Proof.
  induction s as [|c s IH]; simpl.
  - constructor; [reflexivity|constructor].
  - destruct (Ascii.eqb c sep) eqn:Hc.
    + constructor; [reflexivity|exact IH].
    + destruct (strings.Split s sep) as [|part parts].
      * constructor; [simpl; rewrite Hc; reflexivity|constructor].
      * inversion IH as [|? ? Hpart Hparts]; subst.
        constructor; [simpl; rewrite Hc, Hpart; reflexivity|exact Hparts].
Qed.

(** C5: with a positive proxy count and a forwarded-for header that is not
    empty, the resolver cuts the header at its commas (the tokens, joined
    with commas, are the header, and no token holds a comma), reads the
    token at index [len(tokens) - proxyCount], or at index 0 when that is
    negative, which is always an index of the list, and returns that token
    with the white space around it trimmed (for a token of ASCII bytes: the
    token without the space bytes at its two ends); it never panics.  The
    header
    ["1.2.3.4, 10.0.0.1, 10.0.0.2"] with a proxy count of 2 gives
    ["10.0.0.1"], and the header ["1.2.3.4"] with a proxy count of 5 gives
    ["1.2.3.4"]. *)
Theorem C5_forwarded_for_token proxyCount r xForwardedFor :
  0 < proxyCount ->
  Header_Get (Header r) "X-Forwarded-For" = xForwardedFor ->
  xForwardedFor <> EmptyString ->
  let tokens := strings.Split xForwardedFor "," in
  let i := Z.max 0 (Z.of_nat (length tokens) - proxyCount) in
  Join tokens "," = xForwardedFor
  /\ Forall (fun token => occurs "," token = false) tokens
  /\ 0 <= i < Z.of_nat (length tokens)
  /\ (exists token,
        tokens !! Z.to_nat i = Some token
        /\ getClientIPFromRequest proxyCount r
           = Some (strings.TrimSpace token)
        /\ (ascii_only token -> trimmed token (strings.TrimSpace token)))
  /\ (xForwardedFor = "1.2.3.4, 10.0.0.1, 10.0.0.2" -> proxyCount = 2 ->
      getClientIPFromRequest proxyCount r = Some "10.0.0.1")
  /\ (xForwardedFor = "1.2.3.4" -> proxyCount = 5 ->
      getClientIPFromRequest proxyCount r = Some "1.2.3.4").
Proof.
  intros Hpc Hget Hne tokens i.
  assert (Hrun : getClientIPFromRequest proxyCount r
                 = strings.TrimSpace <$> index tokens i).
  { unfold getClientIPFromRequest. rewrite Hget.
    destruct (Z.ltb_spec 0 proxyCount) as [_|]; [|lia].
    destruct (String.eqb_spec xForwardedFor EmptyString) as [|_];
      [contradiction|].
    simpl. fold tokens. f_equal. f_equal. subst i.
    destruct (Z.ltb_spec (Z.of_nat (length tokens) - proxyCount) 0); lia. }
  assert (Hi : 0 <= i < Z.of_nat (length tokens)).
  { subst i. pose proof (Split_length xForwardedFor ",") as Hlen.
    fold tokens in Hlen. lia. }
  split; [apply Split_Join|]. split; [apply Split_no_separator|].
  split; [exact Hi|]. split; [|split].
  - destruct (index_in_range tokens i Hi) as [token Htoken].
    exists token. rewrite Hrun, Htoken.
    split; [|split; [reflexivity|apply TrimSpace_trimmed]].
    unfold index in Htoken.
    destruct (Z.leb_spec 0 i); [|lia].
    destruct (Z.ltb_spec i (Z.of_nat (length tokens))); [|lia].
    exact Htoken.
  - intros -> ->. rewrite Hrun. reflexivity.
  - intros -> ->. rewrite Hrun. reflexivity.
Qed.

(** C7: the resolver always returns a string.  When the proxy count is not
    positive or there is no forwarded-for value, the string is the remote
    address of the request without its port: the host of ["host:port"] and
    of ["[host]:port"], whatever [net.SplitHostPort] accepts, and the remote
    address as it is when [net.SplitHostPort] refuses it. *)
Theorem C7_fallback_remote_address proxyCount r :
  is_Some (getClientIPFromRequest proxyCount r)
  /\ (proxyCount <= 0
      \/ Header_Get (Header r) "X-Forwarded-For" = EmptyString ->
      getClientIPFromRequest proxyCount r = Some (remoteIP r)
      /\ (forall host port,
            net.SplitHostPort (RemoteAddr r) = inl (host, port) ->
            remoteIP r = host)
      /\ (forall e,
            net.SplitHostPort (RemoteAddr r) = inr e ->
            remoteIP r = RemoteAddr r)
      /\ (forall host port,
            RemoteAddr r = host +:+ String ":" port ->
            plain host -> plain port -> remoteIP r = host)
      /\ (forall host port,
            RemoteAddr r = String "[" (host +:+ String "]" (String ":" port)) ->
            occurs "[" host = false -> occurs "]" host = false ->
            plain port -> remoteIP r = host)).
Proof.
  split; [apply getClientIPFromRequest_total|].
  intros Hfallback. split; [|repeat split].
  - unfold getClientIPFromRequest.
    destruct (Z.ltb_spec 0 proxyCount) as [Hpc|]; [|reflexivity].
    destruct Hfallback as [Hle|Hempty]; [lia|rewrite Hempty; reflexivity].
  - intros host port H. unfold remoteIP. rewrite H. reflexivity.
  - intros e H. unfold remoteIP. rewrite H. reflexivity.
  - intros host port Heq Hhost Hport. unfold remoteIP. rewrite Heq.
    rewrite SplitHostPort_plain by assumption. reflexivity.
  - intros host port Heq Ho Hc Hport. unfold remoteIP. rewrite Heq.
    rewrite SplitHostPort_bracketed by assumption. reflexivity.
Qed.

End Resolver.

(** ** [fmtInt] writes decimal numerals *)

Section Numerals.

Import time.

Lemma digits_below_ten (r : N) :
  (r < 10)%N ->
  r = 0%N \/ r = 1%N \/ r = 2%N \/ r = 3%N \/ r = 4%N
  \/ r = 5%N \/ r = 6%N \/ r = 7%N \/ r = 8%N \/ r = 9%N.
Proof. lia. Qed.

Lemma to_lu_cons (q r : N) :
  (0 < q)%N -> (r < 10)%N ->
  Unsigned.to_lu (10 * q + r) = cons_digit r (Unsigned.to_lu q).
Proof.
  intros Hq Hr. destruct q as [|p]; [lia|].
  pose proof (Unsigned.to_ldec_tenfold p) as H10.
  destruct (digits_below_ten r Hr)
    as [->|[->|[->|[->|[->|[->|[->|[->|[->| ->]]]]]]]]].
  - rewrite N.add_0_r. exact H10.
  - change 1%N with (N.succ 0).
    rewrite N.add_succ_r, N.add_0_r, Unsigned.to_lu_succ, H10. reflexivity.
  - change 2%N with (N.succ (N.succ 0)).
    rewrite !N.add_succ_r, N.add_0_r, !Unsigned.to_lu_succ, H10. reflexivity.
  - change 3%N with (N.succ (N.succ (N.succ 0))).
    rewrite !N.add_succ_r, N.add_0_r, !Unsigned.to_lu_succ, H10. reflexivity.
  - change 4%N with (N.succ (N.succ (N.succ (N.succ 0)))).
    rewrite !N.add_succ_r, N.add_0_r, !Unsigned.to_lu_succ, H10. reflexivity.
  - change 5%N with (N.succ (N.succ (N.succ (N.succ (N.succ 0))))).
    rewrite !N.add_succ_r, N.add_0_r, !Unsigned.to_lu_succ, H10. reflexivity.
  - change 6%N with (N.succ (N.succ (N.succ (N.succ (N.succ (N.succ 0)))))).
    rewrite !N.add_succ_r, N.add_0_r, !Unsigned.to_lu_succ, H10. reflexivity.
  - change 7%N
      with (N.succ (N.succ (N.succ (N.succ (N.succ (N.succ (N.succ 0))))))).
    rewrite !N.add_succ_r, N.add_0_r, !Unsigned.to_lu_succ, H10. reflexivity.
  - change 8%N
      with (N.succ (N.succ (N.succ (N.succ (N.succ (N.succ (N.succ
             (N.succ 0)))))))).
    rewrite !N.add_succ_r, N.add_0_r, !Unsigned.to_lu_succ, H10. reflexivity.
  - change 9%N
      with (N.succ (N.succ (N.succ (N.succ (N.succ (N.succ (N.succ
             (N.succ (N.succ 0))))))))).
    rewrite !N.add_succ_r, N.add_0_r, !Unsigned.to_lu_succ, H10. reflexivity.
Qed.

Lemma to_uint_rev (n : N) : N.to_uint n = Decimal.rev (Unsigned.to_lu n).
Proof. destruct n; reflexivity. Qed.

Lemma string_of_revapp (d acc : Decimal.uint) :
  NilEmpty.string_of_uint (Decimal.revapp d acc)
  = NilEmpty.string_of_uint (Decimal.revapp d Nil)
    +:+ NilEmpty.string_of_uint acc.
Proof.
  revert acc. induction d as [|d IH|d IH|d IH|d IH|d IH|d IH|d IH|d IH|d IH|d IH];
    intros acc; [reflexivity|..]; simpl;
    rewrite IH; symmetry; rewrite IH; rewrite app_assoc_string; reflexivity.
Qed.

Lemma string_of_cons_digit (r : N) (acc : Decimal.uint) :
  (r < 10)%N ->
  NilEmpty.string_of_uint (cons_digit r acc)
  = String.String (digit (Z.of_N r)) (NilEmpty.string_of_uint acc).
Proof.
  intros Hr.
  destruct (digits_below_ten r Hr)
    as [->|[->|[->|[->|[->|[->|[->|[->|[->| ->]]]]]]]]]; reflexivity.
Qed.

(** The numeral of [10 q + r] is the numeral of [q] followed by the digit
    [r]. *)
Lemma to_uint_step (q r : N) :
  (0 < q)%N -> (r < 10)%N ->
  NilEmpty.string_of_uint (N.to_uint (10 * q + r))
  = NilEmpty.string_of_uint (N.to_uint q)
    +:+ String.String (digit (Z.of_N r)) EmptyString.
Proof.
  intros Hq Hr. rewrite !to_uint_rev, to_lu_cons by assumption.
  unfold Decimal.rev.
  assert (Decimal.revapp (cons_digit r (Unsigned.to_lu q)) Nil
          = Decimal.revapp (Unsigned.to_lu q) (cons_digit r Nil)) as ->.
  { destruct (digits_below_ten r Hr)
      as [->|[->|[->|[->|[->|[->|[->|[->|[->| ->]]]]]]]]]; reflexivity. }
  rewrite string_of_revapp, string_of_cons_digit by assumption. reflexivity.
Qed.

Lemma to_uint_digit (r : N) :
  (0 < r < 10)%N ->
  NilEmpty.string_of_uint (N.to_uint r)
  = String.String (digit (Z.of_N r)) EmptyString.
Proof.
  intros [H0 Hr].
  destruct (digits_below_ten r Hr)
    as [->|[->|[->|[->|[->|[->|[->|[->|[->| ->]]]]]]]]];
    [lia|reflexivity..].
Qed.

(** The loop of [fmtInt] puts the numeral of [v] in front of the buffer,
    given as many rounds as [v] has digits. *)
Lemma fmtInt_loop_decimal fuel buf v :
  0 < v < 10 ^ Z.of_nat fuel ->
  fmtInt_loop fuel buf v
  = NilEmpty.string_of_uint (N.to_uint (Z.to_N v)) +:+ buf.
Proof.
  revert buf v. induction fuel as [|fuel IH]; intros buf v Hv.
  - simpl in Hv. lia.
  - simpl fmtInt_loop. destruct (Z.ltb_spec 0 v) as [_|]; [|lia].
    pose proof (Z.div_mod v 10 ltac:(lia)) as Hdm.
    pose proof (Z.mod_pos_bound v 10 ltac:(lia)) as Hmod.
    destruct (Z.eq_dec (v / 10) 0) as [Hq|Hq].
    + rewrite Hq.
      assert (fmtInt_loop fuel (String.String (digit (v mod 10)) buf) 0
              = String.String (digit (v mod 10)) buf) as ->
        by (destruct fuel; reflexivity).
      assert (v mod 10 = v) as -> by lia.
      rewrite to_uint_digit by lia. rewrite Z2N.id by lia. reflexivity.
    + assert (Hqpos : 0 < v / 10) by (apply Z.div_str_pos; lia).
      rewrite IH.
      2:{ split; [lia|]. apply Z.div_lt_upper_bound; [lia|].
          rewrite Nat2Z.inj_succ, Z.pow_succ_r in Hv by lia. lia. }
      replace (Z.to_N v)
        with (10 * Z.to_N (v / 10) + Z.to_N (v mod 10))%N by lia.
      rewrite to_uint_step by lia.
      rewrite Z2N.id by lia. rewrite app_assoc_string. reflexivity.
Qed.

(** [fmtInt] puts the decimal numeral of [v] in front of the buffer. *)
Lemma fmtInt_decimal buf v :
  0 <= v < 2 ^ 64 -> fmtInt buf v = decimal v +:+ buf.
Proof.
  intros Hv. unfold fmtInt, decimal.
  destruct (Z.eqb_spec v 0) as [->|Hne]; [reflexivity|].
  rewrite fmtInt_loop_decimal by (change (Z.of_nat 20) with 20; lia).
  destruct (N.to_uint (Z.to_N v)) eqn:Hd; try reflexivity.
  exfalso. destruct (Z.to_N v) eqn:Hn; [lia|].
  simpl in Hd. exact (Unsigned.to_uint_nonnil _ Hd).
Qed.

Lemma fmtFrac_loop_zeros prec buf a :
  0 <= a ->
  fmtFrac_loop prec buf (a * 10 ^ Z.of_nat prec) false = (buf, a, false).
Proof.
  intros Ha. induction prec as [|prec IH].
  - simpl. rewrite Z.mul_1_r. reflexivity.
  - rewrite Nat2Z.inj_succ, Z.pow_succ_r by lia.
    simpl fmtFrac_loop.
    replace (a * (10 * 10 ^ Z.of_nat prec))
      with (a * 10 ^ Z.of_nat prec * 10) by lia.
    rewrite Z.mod_mul, Z.div_mul by lia. simpl. exact IH.
Qed.

(** A whole number of seconds has no fraction to print. *)
Lemma fmtFrac_seconds buf n :
  0 <= n -> fmtFrac buf (n * Second) 9 = (buf, n).
Proof.
  intros Hn. unfold fmtFrac.
  change Second with (10 ^ Z.of_nat 9).
  rewrite fmtFrac_loop_zeros by assumption. reflexivity.
Qed.

(** [Duration.String] on a whole number of seconds: seconds alone under a
    minute, minutes and seconds under an hour, hours, minutes and seconds
    from there on. *)
Lemma String_seconds n :
  0 <= n -> n * Second <= maxDuration ->
  time.String (n * Second) = seconds_text n.
Proof.
  intros Hn Hmax. unfold maxDuration in Hmax. unfold seconds_text.
  assert (HS : Second = 1000000000) by reflexivity.
  unfold time.String.
  destruct (Z.ltb_spec (n * Second) 0) as [|_]; [lia|].
  rewrite (uint64_small (n * Second)) by lia.
  rewrite (uint64_small Second) by (rewrite HS; lia).
  destruct (Z.ltb_spec (n * Second) Second) as [Hlt|Hge].
  - assert (n = 0) as -> by lia. reflexivity.
  - assert (1 <= n) by lia.
    rewrite fmtFrac_seconds by lia.
    pose proof (Z.mod_pos_bound n 60 ltac:(lia)).
    pose proof (Z.div_mod n 60 ltac:(lia)).
    rewrite (fmtInt_decimal _ (n mod 60)) by lia.
    destruct (Z.ltb_spec 0 (n / 60)) as [Hmin|Hmin].
    + destruct (Z.ltb_spec n 60) as [|_]; [lia|].
      pose proof (Z.mod_pos_bound (n / 60) 60 ltac:(lia)).
      pose proof (Z.div_mod (n / 60) 60 ltac:(lia)).
      rewrite (fmtInt_decimal _ (n / 60 mod 60)) by lia.
      rewrite Z.div_div by lia. change (60 * 60) with 3600.
      assert (n / 60 / 60 = n / 3600) as Hh
        by (rewrite Z.div_div by lia; reflexivity).
      destruct (Z.ltb_spec 0 (n / 3600)) as [Hhour|Hhour].
      * destruct (Z.ltb_spec n 3600) as [Hn'|_].
        { rewrite Z.div_small in Hhour by lia. lia. }
        rewrite fmtInt_decimal by lia. reflexivity.
      * destruct (Z.ltb_spec n 3600) as [_|Hn'].
        { rewrite (Z.mod_small (n / 60)) by lia. reflexivity. }
        assert (1 <= n / 3600) by (apply Z.div_le_lower_bound; lia).
        lia.
    + destruct (Z.ltb_spec n 60) as [_|]; [|lia].
      rewrite Z.mod_small by lia. reflexivity.
Qed.

End Numerals.
Example TrimSpace_ascii :
  strings.TrimSpace " 	10.0.0.1  " = "10.0.0.1".
Proof. reflexivity. Qed.

Example TrimSpace_blank : strings.TrimSpace "   " = EmptyString.
Proof. reflexivity. Qed.

(** A no-break space (U+00A0, bytes [C2 A0]) and an ideographic space
    (U+3000, bytes [E3 80 80]) around a token are trimmed too. *)
Example TrimSpace_unicode :
  strings.TrimSpace
    (String (ascii_of_nat 194) (String (ascii_of_nat 160)
       ("a b " +:+ String (ascii_of_nat 227) (String (ascii_of_nat 128)
          (String (ascii_of_nat 128) EmptyString)))))
  = "a b".
Proof. vm_compute. reflexivity. Qed.

(** A stray continuation byte is not white space and stays. *)
Example TrimSpace_invalid :
  strings.TrimSpace (" x" +:+ String (ascii_of_nat 160) " ")
  = "x" +:+ String (ascii_of_nat 160) EmptyString.
Proof. vm_compute. reflexivity. Qed.

Example Split_example :
  strings.Split "1.2.3.4, 10.0.0.1, 10.0.0.2" ","
  = ["1.2.3.4"; " 10.0.0.1"; " 10.0.0.2"].
Proof. reflexivity. Qed.

Example Split_empty : strings.Split EmptyString "," = [EmptyString].
Proof. reflexivity. Qed.

Example Split_trailing : strings.Split "a,,b," "," = ["a"; EmptyString; "b"; EmptyString].
Proof. reflexivity. Qed.

Example SplitHostPort_v4 :
  net.SplitHostPort "192.0.2.7:51234" = inl ("192.0.2.7", "51234").
Proof. reflexivity. Qed.

Example SplitHostPort_v6 :
  net.SplitHostPort "[2001:db8::1]:443" = inl ("2001:db8::1", "443").
Proof. reflexivity. Qed.

Example SplitHostPort_noport :
  net.SplitHostPort "192.0.2.7"
  = inr {| net.Err := "missing port in address"; net.Addr := "192.0.2.7" |}.
Proof. reflexivity. Qed.

Example SplitHostPort_bare_v6 :
  net.SplitHostPort "2001:db8::1"
  = inr {| net.Err := "too many colons in address"; net.Addr := "2001:db8::1" |}.
Proof. reflexivity. Qed.

Example SplitHostPort_empty_host :
  net.SplitHostPort ":80" = inl (EmptyString, "80").
Proof. reflexivity. Qed.

Example Duration_String_examples :
  time.String 0 = "0s"
  /\ time.String 7000000000 = "7s"
  /\ time.String 59000000000 = "59s"
  /\ time.String 60000000000 = "1m0s"
  /\ time.String 90000000000 = "1m30s"
  /\ time.String 3600000000000 = "1h0m0s"
  /\ time.String 259380500000000 = "72h3m0.5s"
  /\ time.String 1500000 = "1.5ms"
  /\ time.String 999 = "999ns"
  /\ time.String (-1500000000) = "-1.5s"
  /\ time.String time.maxDuration = "2562047h47m16.854775807s"
  /\ time.String time.minDuration = "-2562047h47m16.854775808s".
Proof. vm_compute. repeat split. Qed.

Example Duration_Round_examples :
  time.Round 1499999999 time.Second = 1000000000
  /\ time.Round 1500000000 time.Second = 2000000000
  /\ time.Round 499999999 time.Second = 0
  /\ time.Round (-1500000000) time.Second = -2000000000
  /\ time.Round (-1499999999) time.Second = -1000000000
  /\ time.Round time.maxDuration time.Second = time.maxDuration
  /\ time.Round time.minDuration time.Second = time.minDuration.
Proof. vm_compute. repeat split. Qed.

(** * Properties of one caller at a time *)

Section Sequential.

Context (readAddress : Request -> string + error) (clock : nat -> Z).

Local Abbreviation serve := (serve readAddress clock).

Lemma probe_skip c now key :
  ttlcache.skipTTLExtension c = true ->
  ttlcache.GetWithTTL c now key
  = (c, (fun d => (true, d)) <$> probe c now key)
  \/ exists d, ttlcache.GetWithTTL c now key = (c, Some (false, d))
               /\ probe c now key = Some d.
Proof.
  intros Hskip. unfold probe, ttlcache.GetWithTTL.
  destruct (ttlcache.items c !! key) as [it|]; [|left; reflexivity].
  destruct (ttlcache.expired it now); [left; reflexivity|].
  rewrite Hskip. destruct (ttlcache.data it); simpl; eauto.
Qed.

Lemma serve_positive σ w r next address clientIP :
  idle σ ->
  readAddress r = inl address ->
  0 < ttl (limiter σ) ->
  getClientIPFromRequest (proxyCount (limiter σ)) r = Some clientIP ->
  let c := cache (limiter σ) in
  let t := ticks σ in
  let d := ttl (limiter σ) in
  serve σ w r next
  = Some
      match probe c (clock t) address with
      | Some rem =>
          (return_limited, rejection w rem,
           after σ c 1 [Lock; GetWithTTL address; Unlock])
      | None =>
          match probe c (clock (S t)) clientIP with
          | Some rem =>
              (return_limited, rejection w rem,
               after σ c 2
                 [Lock; GetWithTTL address; GetWithTTL clientIP; Unlock])
          | None =>
              let c' :=
                ttlcache.SetWithTTL
                  (ttlcache.SetWithTTL c (clock (S (S t))) address true d)
                  (clock (S (S (S t)))) clientIP true d in
              let reserve :=
                [Lock; GetWithTTL address; GetWithTTL clientIP;
                 SetWithTTL address true d; SetWithTTL clientIP true d;
                 Unlock; Next next w r] in
              let w' := next w r in
              if negb (Status w' =? http.StatusOK) then
                (return_removed, w',
                 after σ
                   (ttlcache.Remove (ttlcache.Remove c' address) clientIP) 4
                   (reserve ++ [Remove address; Remove clientIP]))
              else
                (return_done, w',
                 after σ c' 4
                   (reserve ++
                    [LogInfo address clientIP
                       "Maximum request limit has been reached"]))
          end
      end.
Proof.
  intros [Hskip Hfree] Haddr Httl Hip c t d.
  unfold serve, ServeHTTP. rewrite Haddr.
  destruct (Z.leb_spec (ttl (limiter σ)) 0) as [|_]; [lia|].
  rewrite Hip. simpl. rewrite Hfree. simpl.
  destruct (probe_skip c (clock t) address Hskip) as [E|(rem & E & P)];
    fold c t; rewrite E; [destruct (probe c (clock t) address) as [rem|]|rewrite P];
    simpl.
  1, 3: f_equal; f_equal; world_eq σ.
  destruct (probe_skip c (clock (S t)) clientIP Hskip) as [E'|(rem & E' & P')];
    rewrite E'; [destruct (probe c (clock (S t)) clientIP) as [rem|]|rewrite P'];
    simpl.
  1, 3: f_equal; f_equal; world_eq σ.
  fold d. destruct (negb (Status (next w r) =? http.StatusOK)); simpl;
    f_equal; f_equal; world_eq σ.
Qed.

Lemma serve_error σ w r next err :
  readAddress r = inr err ->
  serve σ w r next
  = Some (return_error,
          match errors_As err with
          | Some mr => renderJSON w {| Message := message mr |} (status mr)
          | None =>
              renderJSON w {| Message := "Internal Server Error" |}
                http.StatusInternalServerError
          end, σ).
Proof.
  intros Herr. unfold serve, ServeHTTP. rewrite Herr.
  destruct (errors_As err); reflexivity.
Qed.

Lemma serve_disabled σ w r next address :
  readAddress r = inl address ->
  ttl (limiter σ) <= 0 ->
  serve σ w r next
  = Some (return_disabled, next w r,
          {| limiter := limiter σ; ticks := ticks σ;
             trace := trace σ ++ [Next next w r] |}).
Proof.
  intros Haddr Httl. unfold serve, ServeHTTP. rewrite Haddr.
  destruct (Z.leb_spec (ttl (limiter σ)) 0); [reflexivity|lia].
Qed.

(** The cases of a call, by what [readAddress] says and the sign of the
    configured ttl. *)
Lemma serve_cases (σ : World) (r : Request) :
  (exists err, readAddress r = inr err)
  \/ (exists address, readAddress r = inl address /\ ttl (limiter σ) <= 0)
  \/ (exists address clientIP,
        readAddress r = inl address /\ 0 < ttl (limiter σ)
        /\ getClientIPFromRequest (proxyCount (limiter σ)) r = Some clientIP).
Proof.
  destruct (readAddress r) as [address|err]; [|eauto].
  destruct (Z_le_gt_dec (ttl (limiter σ)) 0); [eauto|].
  destruct (getClientIPFromRequest_total (proxyCount (limiter σ)) r)
    as [clientIP Hip].
  right. right. exists address, clientIP. repeat split; [lia|assumption].
Qed.

(** A call on an idle limiter returns: it neither panics nor waits for the
    mutex for ever. *)
Lemma serve_total σ w r next :
  idle σ -> is_Some (serve σ w r next).
Proof.
  intros Hidle.
  destruct (serve_cases σ r)
    as [(err & Herr)|[(address & Haddr & Httl)
                     |(address & clientIP & Haddr & Httl & Hip)]].
  - rewrite (serve_error _ _ _ _ _ Herr). eauto.
  - rewrite (serve_disabled _ _ _ _ _ Haddr Httl). eauto.
  - rewrite (serve_positive _ _ _ _ _ _ Hidle Haddr Httl Hip). eauto.
Qed.

End Sequential.

(** * The Admission Filter, one call at a time *)

Section Admission.

Context (readAddress : Request -> string + error) (clock : nat -> Z).

Local Abbreviation serve := (serve readAddress clock).

Lemma probe_nonneg c now key rem :
  ttlcache.skipTTLExtension c = true ->
  probe c now key = Some rem -> 0 <= rem.
Proof.
  unfold probe, ttlcache.GetWithTTL. intros ->.
  destruct (ttlcache.items c !! key) as [it|]; [|discriminate].
  destruct (ttlcache.expired it now); [discriminate|].
  simpl. intros [= <-]. lia.
Qed.

(** What a probe finds is decided by the entry under the key. *)
Lemma probe_lookup c now key :
  ttlcache.skipTTLExtension c = true ->
  probe c now key
  = match ttlcache.items c !! key with
    | Some it =>
        if ttlcache.expireAt it <? now then None
        else Some (ttlcache.expireAt it - now)
    | None => None
    end.
Proof.
  unfold probe, ttlcache.GetWithTTL, ttlcache.expired. intros ->.
  destruct (ttlcache.items c !! key) as [it|]; [|reflexivity].
  destruct (Z.ltb_spec (ttlcache.expireAt it) now); [reflexivity|].
  simpl. f_equal. lia.
Qed.


(** C6: when the configured ttl is not positive, a call whose address key
    was read hands the request to the downstream handler whatever the state
    left by earlier calls, and neither reads nor changes the store: the
    limiter and the count of clock readings stay as they were, and the call
    of the handler is the only action. *)
Theorem C6_disabled_admits σ w r next address :
  readAddress r = inl address ->
  ttl (limiter σ) <= 0 ->
  exists σ',
    serve σ w r next = Some (return_disabled, next w r, σ')
    /\ decision return_disabled = Some admitted
    /\ limiter σ' = limiter σ
    /\ ticks σ' = ticks σ
    /\ trace σ' = trace σ ++ [Next next w r].
Proof.
  intros Haddr Httl. eexists. split.
  - eapply serve_disabled; eassumption.
  - repeat split.
Qed.

(** C9: when the address key cannot be read, the call answers with the
    status and message of the malformed-request error if the error is (or
    wraps) one, and with status 500 and its standard text otherwise; in both
    cases no action is done: the store is not touched and the downstream
    handler is not called. *)
Theorem C9_unreadable_address σ w r next err :
  readAddress r = inr err ->
  exists w',
    serve σ w r next = Some (return_error, w', σ)
    /\ decision return_error = None
    /\ match errors_As err with
       | Some mr => w' = renderJSON w {| Message := message mr |} (status mr)
       | None =>
           w' = renderJSON w {| Message := "Internal Server Error" |} 500
       end.
Proof.
  intros Herr. eexists. split; [eapply serve_error; eassumption|].
  split; [reflexivity|]. destruct (errors_As err); reflexivity.
Qed.

(** A call leaves the limiter idle. *)
Lemma serve_idle σ w r next ret w' σ' :
  idle σ -> serve σ w r next = Some (ret, w', σ') -> idle σ'.
Proof.
  intros Hidle Hserve.
  destruct (serve_cases readAddress σ r)
    as [(err & Herr)|[(address & Haddr & Httl)
                     |(address & clientIP & Haddr & Httl & Hip)]].
  - rewrite (serve_error readAddress clock _ _ _ _ _ Herr) in Hserve.
    congruence.
  - rewrite (serve_disabled readAddress clock _ _ _ _ _ Haddr Httl) in Hserve.
    injection Hserve as <- <- <-. exact Hidle.
  - rewrite (serve_positive readAddress clock _ _ _ _ _ _ Hidle Haddr Httl Hip)
      in Hserve.
    cbv zeta in Hserve. destruct Hidle as [Hskip Hfree].
    repeat match type of Hserve with
           | Some (match ?x with _ => _ end) = _ => destruct x
           | Some (if ?x then _ else _) = _ => destruct x
           end;
      injection Hserve as <- <- <-; split; assumption.
Qed.

(** A rejected call leaves the limiter as it was. *)
Lemma serve_limited_frame σ w r next w' σ' :
  idle σ ->
  serve σ w r next = Some (return_limited, w', σ') ->
  limiter σ' = limiter σ.
Proof.
  intros Hidle Hserve.
  destruct (serve_cases readAddress σ r)
    as [(err & Herr)|[(address & Haddr & Httl)
                     |(address & clientIP & Haddr & Httl & Hip)]].
  - rewrite (serve_error readAddress clock _ _ _ _ _ Herr) in Hserve.
    discriminate.
  - rewrite (serve_disabled readAddress clock _ _ _ _ _ Haddr Httl) in Hserve.
    discriminate.
  - rewrite (serve_positive readAddress clock _ _ _ _ _ _ Hidle Haddr Httl Hip)
      in Hserve.
    cbv zeta in Hserve.
    repeat match type of Hserve with
           | Some (match ?x with _ => _ end) = _ => destruct x
           | Some (if ?x then _ else _) = _ => destruct x
           end;
      try discriminate;
      injection Hserve as <- <-; world_eq σ.
Qed.

(** C10: a rejected call leaves the limiter, and so the whole store, as it
    was: under every key the same entry with the same expiry, so that a
    probe at any instant finds what it would have found without the call. *)
Theorem C10_rejection_leaves_store σ w r next w' σ' :
  idle σ ->
  serve σ w r next = Some (return_limited, w', σ') ->
  limiter σ' = limiter σ
  /\ (forall key,
        ttlcache.items (cache (limiter σ')) !! key
        = ttlcache.items (cache (limiter σ)) !! key)
  /\ (forall now key,
        probe (cache (limiter σ')) now key = probe (cache (limiter σ)) now key).
Proof.
  intros Hidle Hserve.
  rewrite (serve_limited_frame _ _ _ _ _ _ Hidle Hserve). repeat split.
Qed.

(** A call keeps the limiter sound. *)
Lemma serve_sound σ w r next ret w' σ' :
  sound σ -> serve σ w r next = Some (ret, w', σ') -> sound σ'.
Proof.
  intros [Hidle Hempty] Hserve. split; [eapply serve_idle; eassumption|].
  destruct (serve_cases readAddress σ r)
    as [(err & Herr)|[(address & Haddr & Httl)
                     |(address & clientIP & Haddr & Httl & Hip)]].
  - rewrite (serve_error readAddress clock _ _ _ _ _ Herr) in Hserve.
    injection Hserve as <- <- <-. exact Hempty.
  - rewrite (serve_disabled readAddress clock _ _ _ _ _ Haddr Httl) in Hserve.
    injection Hserve as <- <- <-. exact Hempty.
  - assert (ttl (limiter σ') = ttl (limiter σ)) as ->; [|lia].
    rewrite (serve_positive readAddress clock _ _ _ _ _ _ Hidle Haddr Httl Hip)
      in Hserve.
    cbv zeta in Hserve.
    repeat match type of Hserve with
           | Some (match ?x with _ => _ end) = _ => destruct x
           | Some (if ?x then _ else _) = _ => destruct x
           end;
      injection Hserve as <- <- <-; reflexivity.
Qed.

(** The limiter made by [NewLimiter] is sound, and stays so through every
    run of calls; every call of such a run returns. *)
Lemma start_sound proxyCount ttl : sound (start proxyCount ttl).
Proof. repeat split. Qed.

Lemma serve_all_sound calls σ results σ' :
  sound σ ->
  serve_all readAddress clock σ calls = Some (results, σ') ->
  sound σ'.
Proof.
  revert σ results. induction calls as [|[[w r] next] calls IH];
    intros σ results Hsound Hrun; simpl in Hrun.
  - injection Hrun as _ <-. exact Hsound.
  - destruct (serve σ w r next) as [[[ret w'] σ1]|] eqn:Hserve;
      [|discriminate].
    destruct (serve_all readAddress clock σ1 calls) as [[results1 σ2]|] eqn:Hrest;
      [|discriminate].
    injection Hrun as _ <-.
    eapply IH; [|exact Hrest]. eapply serve_sound; eassumption.
Qed.

Lemma serve_all_total calls σ :
  idle σ -> is_Some (serve_all readAddress clock σ calls).
Proof.
  revert σ. induction calls as [|[[w r] next] calls IH]; intros σ Hidle;
    simpl; [eauto|].
  destruct (serve_total readAddress clock σ w r next Hidle)
    as [[[ret w'] σ1] Hserve].
  rewrite Hserve.
  destruct (IH σ1) as [[results σ2] Hrest];
    [eapply serve_idle; eassumption|].
  rewrite Hrest. eauto.
Qed.

(** C2: for an admitted call, the response is the one the downstream handler
    made.  If its status is not 200, the store holds no entry for the
    address key nor for the identity key when the call returns, and a call
    that follows at once for the same two keys is admitted.  If its status
    is 200 (under a positive ttl), the store holds an entry for each of the
    two keys, and a probe finds it, counting down, at every instant up to
    its expiry, which is the configured ttl after the instant it was set. *)
Theorem C2_rollback_on_failure σ w r next address clientIP ret w' σ' :
  sound σ ->
  readAddress r = inl address ->
  getClientIPFromRequest (proxyCount (limiter σ)) r = Some clientIP ->
  serve σ w r next = Some (ret, w', σ') ->
  decision ret = Some admitted ->
  let c' := cache (limiter σ') in
  w' = next w r
  /\ (Status w' <> 200 ->
      ttlcache.items c' !! address = None
      /\ ttlcache.items c' !! clientIP = None
      /\ forall w2 r2 next2,
           readAddress r2 = inl address ->
           getClientIPFromRequest (proxyCount (limiter σ')) r2 = Some clientIP ->
           exists ret2 w2' σ2,
             serve σ' w2 r2 next2 = Some (ret2, w2', σ2)
             /\ decision ret2 = Some admitted)
  /\ (Status w' = 200 -> 0 < ttl (limiter σ) ->
      exists ta ti,
        (ta = clock (S (S (ticks σ))) \/ ta = clock (S (S (S (ticks σ)))))
        /\ ti = clock (S (S (S (ticks σ))))
        /\ ttlcache.items c' !! address
           = Some {| ttlcache.data := true; ttlcache.ttl := ttl (limiter σ);
                     ttlcache.expireAt := ta + ttl (limiter σ) |}
        /\ ttlcache.items c' !! clientIP
           = Some {| ttlcache.data := true; ttlcache.ttl := ttl (limiter σ);
                     ttlcache.expireAt := ti + ttl (limiter σ) |}
        /\ (forall now, now <= ta + ttl (limiter σ) ->
              probe c' now address = Some (ta + ttl (limiter σ) - now))
        /\ (forall now, now <= ti + ttl (limiter σ) ->
              probe c' now clientIP = Some (ti + ttl (limiter σ) - now))).
Proof.
  intros Hsound Haddr Hip Hserve Hdec c'.
  pose proof (serve_sound _ _ _ _ _ _ _ Hsound Hserve) as [[Hskip' Hfree'] _].
  destruct Hsound as [Hidle Hempty].
  destruct (Z_le_gt_dec (ttl (limiter σ)) 0) as [Httl|Httl].
  - (* limiting disabled *)
    rewrite (serve_disabled readAddress clock _ _ _ _ _ Haddr Httl) in Hserve.
    injection Hserve as <- <- <-. subst c'. simpl.
    split; [reflexivity|]. split; [|lia].
    intros _. rewrite (Hempty Httl), !lookup_empty.
    split; [reflexivity|]. split; [reflexivity|].
    intros w2 r2 next2 Haddr2 _. eexists _, _, _.
    split;
      [apply (serve_disabled readAddress clock) with (address := address);
       assumption
      |reflexivity].
  - (* limiting enabled *)
    apply Z.gt_lt in Httl.
    rewrite (serve_positive readAddress clock _ _ _ _ _ _ Hidle Haddr Httl Hip)
      in Hserve.
    cbv zeta in Hserve.
    destruct (probe _ _ address); [injection Hserve as <- <- <-; discriminate|].
    destruct (probe _ _ clientIP); [injection Hserve as <- <- <-; discriminate|].
    destruct (Z.eqb_spec (Status (next w r)) http.StatusOK) as [H200|H200];
      simpl in Hserve; injection Hserve as <- <- <-; subst c';
      (split; [reflexivity|]); split.
    + intros Hne. exfalso. apply Hne. exact H200.
    + intros _ _. simpl in *.
      assert (Hlk_i :
        (<[clientIP:={| ttlcache.data := true; ttlcache.ttl := ttl (limiter σ);
                        ttlcache.expireAt :=
                          clock (S (S (S (ticks σ)))) + ttl (limiter σ) |}]>
           (<[address:={| ttlcache.data := true; ttlcache.ttl := ttl (limiter σ);
                          ttlcache.expireAt :=
                            clock (S (S (ticks σ))) + ttl (limiter σ) |}]>
              (ttlcache.items (cache (limiter σ))))) !! clientIP
        = Some {| ttlcache.data := true; ttlcache.ttl := ttl (limiter σ);
                  ttlcache.expireAt :=
                    clock (S (S (S (ticks σ)))) + ttl (limiter σ) |})
        by apply lookup_insert_eq.
      destruct (decide (address = clientIP)) as [Heq|Hne].
      * subst clientIP.
        exists (clock (S (S (S (ticks σ))))), (clock (S (S (S (ticks σ))))).
        split; [right; reflexivity|]. split; [reflexivity|].
        split; [exact Hlk_i|]. split; [exact Hlk_i|].
        split; intros now Hnow; rewrite probe_lookup by assumption;
          simpl; rewrite Hlk_i; simpl;
          destruct (Z.ltb_spec (clock (S (S (S (ticks σ)))) + ttl (limiter σ)) now);
          (lia || reflexivity).
      * exists (clock (S (S (ticks σ)))), (clock (S (S (S (ticks σ))))).
        assert (Hlk_a :
          (<[clientIP:={| ttlcache.data := true; ttlcache.ttl := ttl (limiter σ);
                          ttlcache.expireAt :=
                            clock (S (S (S (ticks σ)))) + ttl (limiter σ) |}]>
             (<[address:={| ttlcache.data := true; ttlcache.ttl := ttl (limiter σ);
                            ttlcache.expireAt :=
                              clock (S (S (ticks σ))) + ttl (limiter σ) |}]>
                (ttlcache.items (cache (limiter σ))))) !! address
          = Some {| ttlcache.data := true; ttlcache.ttl := ttl (limiter σ);
                    ttlcache.expireAt :=
                      clock (S (S (ticks σ))) + ttl (limiter σ) |}).
        { rewrite lookup_insert_ne by congruence. apply lookup_insert_eq. }
        split; [left; reflexivity|]. split; [reflexivity|].
        split; [exact Hlk_a|]. split; [exact Hlk_i|].
        split; intros now Hnow; rewrite probe_lookup by assumption;
          simpl; [rewrite Hlk_a|rewrite Hlk_i]; simpl;
          match goal with
          | |- context [?a <? ?b] => destruct (Z.ltb_spec a b)
          end; (lia || reflexivity).
    + intros _. simpl in *.
      assert (Hgone : forall key, key = address \/ key = clientIP ->
        delete clientIP
          (delete address
             (<[clientIP:={| ttlcache.data := true; ttlcache.ttl := ttl (limiter σ);
                             ttlcache.expireAt :=
                               clock (S (S (S (ticks σ)))) + ttl (limiter σ) |}]>
                (<[address:={| ttlcache.data := true; ttlcache.ttl := ttl (limiter σ);
                               ttlcache.expireAt :=
                                 clock (S (S (ticks σ))) + ttl (limiter σ) |}]>
                   (ttlcache.items (cache (limiter σ)))))) !! key = None).
      { intros key [->| ->].
        - destruct (decide (clientIP = address)) as [->|Hne];
            [apply lookup_delete_eq|].
          rewrite lookup_delete_ne by congruence. apply lookup_delete_eq.
        - apply lookup_delete_eq. }
      split; [apply Hgone; tauto|]. split; [apply Hgone; tauto|].
      intros w2 r2 next2 Haddr2 Hip2.
      match goal with
      | |- context [serve ?s _ _ _] =>
          assert (Hidle2 : idle s) by (split; assumption);
          pose proof (serve_positive readAddress clock s w2 r2 next2
                        address clientIP Hidle2 Haddr2 Httl Hip2) as Hs2
      end.
      cbv zeta in Hs2. rewrite !probe_lookup in Hs2 by assumption.
      simpl in Hs2. rewrite !Hgone in Hs2 by tauto.
      rewrite Hs2.
      destruct (negb (Status (next2 w2 r2) =? http.StatusOK));
        eexists _, _, _; (split; [reflexivity|reflexivity]).
    + intros Heq. exfalso. apply H200. exact Heq.
Qed.

End Admission.

Section Window.

Context (readAddress : Request -> string + error) (clock : nat -> Z).
Hypothesis clock_monotone : forall i j, (i <= j)%nat -> clock i <= clock j.

Local Abbreviation serve := (serve readAddress clock).

(** An entry that is still live when a call probes is there, unchanged, when
    the call returns: a call that uses its key is rejected, and any other
    call writes and removes other keys only. *)
Lemma serve_keeps_live_entry σ w r next ret w' σ' key it :
  idle σ ->
  ttlcache.items (cache (limiter σ)) !! key = Some it ->
  clock (S (ticks σ)) <= ttlcache.expireAt it ->
  serve σ w r next = Some (ret, w', σ') ->
  ttlcache.items (cache (limiter σ')) !! key = Some it
  /\ (ticks σ <= ticks σ')%nat
  /\ forall address clientIP,
       readAddress r = inl address ->
       0 < ttl (limiter σ) ->
       getClientIPFromRequest (proxyCount (limiter σ)) r = Some clientIP ->
       (address = key ->
        ret = return_limited
        /\ w' = rejection w (ttlcache.expireAt it - clock (ticks σ)))
       /\ (clientIP = key -> ret = return_limited).
Proof.
  intros Hidle Hit Hlive Hserve.
  assert (Hnow : clock (ticks σ) <= clock (S (ticks σ)))
    by (apply clock_monotone; lia).
  destruct (serve_cases readAddress σ r)
    as [(err & Herr)|[(address & Haddr & Httl)
                     |(address & clientIP & Haddr & Httl & Hip)]].
  - rewrite (serve_error readAddress clock _ _ _ _ _ Herr) in Hserve.
    injection Hserve as <- <- <-. split; [assumption|]. split; [lia|].
    intros ? ? ?; congruence.
  - rewrite (serve_disabled readAddress clock _ _ _ _ _ Haddr Httl) in Hserve.
    injection Hserve as <- <- <-. split; [assumption|]. split; [simpl; lia|].
    intros ? ? ? ?; lia.
  - rewrite (serve_positive readAddress clock _ _ _ _ _ _ Hidle Haddr Httl Hip)
      in Hserve.
    cbv zeta in Hserve. destruct Hidle as [Hskip Hfree].
    rewrite !probe_lookup in Hserve by assumption.
    assert (Huse : forall a c, readAddress r = inl a ->
              getClientIPFromRequest (proxyCount (limiter σ)) r = Some c ->
              a = address /\ c = clientIP) by (intros; split; congruence).
    destruct (decide (address = key)) as [->|Hna].
    { rewrite Hit in Hserve.
      destruct (Z.ltb_spec (ttlcache.expireAt it) (clock (ticks σ))); [lia|].
      injection Hserve as <- <- <-. split; [assumption|]. split; [simpl; lia|].
      intros a c Ha _ Hc. destruct (Huse a c Ha Hc) as [-> ->].
      split; intros; split; reflexivity. }
    destruct (ttlcache.items (cache (limiter σ)) !! address) as [ia|] eqn:Hia;
      [destruct (ttlcache.expireAt ia <? clock (ticks σ))|].
    2: { injection Hserve as <- <- <-. split; [assumption|]. split; [simpl; lia|].
         intros a c Ha _ Hc. destruct (Huse a c Ha Hc) as [-> ->].
         split; [congruence|reflexivity]. }
    all: destruct (decide (clientIP = key)) as [->|Hnc].
    all: try (rewrite Hit in Hserve;
              destruct (Z.ltb_spec (ttlcache.expireAt it) (clock (S (ticks σ))));
              [lia|];
              injection Hserve as <- <- <-; split; [assumption|];
              split; [simpl; lia|];
              intros a c Ha _ Hc; destruct (Huse a c Ha Hc) as [-> ->];
              split; [congruence|reflexivity]).
    all: repeat match type of Hserve with
           | Some (match ?x with _ => _ end) = _ => destruct x
           | Some (if ?x then _ else _) = _ => destruct x
           end;
         injection Hserve as <- <- <-; simpl;
         (split;
          [rewrite ?lookup_delete_ne, ?lookup_insert_ne by congruence;
           assumption|]);
         (split; [lia|]);
         intros a c Ha _ Hc; destruct (Huse a c Ha Hc) as [-> ->];
         split; congruence.
Qed.

(** A call that comes to probe a live key is rejected, and reports the time
    the entry has left at the reading of the clock at which it probes. *)
Lemma serve_probes_key σ w r next key it n :
  idle σ ->
  0 < ttl (limiter σ) ->
  ttlcache.items (cache (limiter σ)) !! key = Some it ->
  clock (S (ticks σ)) <= ttlcache.expireAt it ->
  probes_key readAddress clock key σ r n ->
  exists σ',
    serve σ w r next
    = Some (return_limited,
            rejection w (ttlcache.expireAt it - clock n), σ')
    /\ (ticks σ <= n < ticks σ')%nat.
Proof.
  intros Hidle Httl Hit Hlive Hprobes.
  assert (Hnow : clock (ticks σ) <= clock (S (ticks σ)))
    by (apply clock_monotone; lia).
  assert (Hfound : forall m,
            clock m <= ttlcache.expireAt it ->
            probe (cache (limiter σ)) (clock m) key
            = Some (ttlcache.expireAt it - clock m)).
  { intros m Hm. rewrite probe_lookup by apply Hidle. rewrite Hit.
    destruct (Z.ltb_spec (ttlcache.expireAt it) (clock m)); [lia|].
    reflexivity. }
  destruct Hprobes as [[Haddr ->]|(address & Haddr & Hip & Hnone & ->)].
  - destruct (getClientIPFromRequest_total (proxyCount (limiter σ)) r)
      as [clientIP Hip].
    rewrite (serve_positive readAddress clock _ _ _ _ _ _ Hidle Haddr Httl Hip).
    cbv zeta. rewrite Hfound by lia.
    eexists. split; [reflexivity|]. simpl. lia.
  - rewrite (serve_positive readAddress clock _ _ _ _ _ _ Hidle Haddr Httl Hip).
    cbv zeta. rewrite Hnone, Hfound by lia.
    eexists. split; [reflexivity|]. simpl. lia.
Qed.

(** C4, amended: while an entry is live (as the entries a successful
    admission leaves for its two keys are, within the ttl), a call that uses
    its key as address key or as identity key is rejected; no call changes
    the entry, so probing never refreshes its expiry.  A call rejected on
    the key reports the time the entry has left at the reading of the clock
    at which the call probes it: the first reading when the key is its
    address key, the second when it is its identity key and its address key
    is not live (when that is live too, the wait of the address key is
    what is reported).  The waits reported for the key by two calls, one
    after the other, each rejected on it as address key or as identity key,
    do not increase: the remaining time decreases as the clock advances
    (strictly when it advances strictly), and the reported value is that
    time rounded to the second, which may be the same for both. *)
Theorem C4_live_entry_rejects σ1 w1 r1 next1 key it :
  idle σ1 ->
  0 < ttl (limiter σ1) ->
  ttlcache.items (cache (limiter σ1)) !! key = Some it ->
  clock (S (ticks σ1)) <= ttlcache.expireAt it ->
  exists ret1 w1' σ1',
    serve σ1 w1 r1 next1 = Some (ret1, w1', σ1')
    /\ ttlcache.items (cache (limiter σ1')) !! key = Some it
    /\ (forall address clientIP,
          readAddress r1 = inl address ->
          getClientIPFromRequest (proxyCount (limiter σ1)) r1 = Some clientIP ->
          address = key \/ clientIP = key ->
          ret1 = return_limited /\ limiter σ1' = limiter σ1)
    /\ (readAddress r1 = inl key ->
        let rem1 := ttlcache.expireAt it - clock (ticks σ1) in
        w1' = rejection w1 rem1
        /\ forall σ2 w2 r2 next2,
             idle σ2 ->
             0 < ttl (limiter σ2) ->
             ttlcache.items (cache (limiter σ2)) !! key = Some it ->
             (ticks σ1 <= ticks σ2)%nat ->
             clock (S (ticks σ2)) <= ttlcache.expireAt it ->
             readAddress r2 = inl key ->
             let rem2 := ttlcache.expireAt it - clock (ticks σ2) in
             exists σ2',
               serve σ2 w2 r2 next2
               = Some (return_limited, rejection w2 rem2, σ2')
               /\ 0 <= rem2 <= rem1
               /\ (clock (ticks σ1) < clock (ticks σ2) -> rem2 < rem1)
               /\ (rem1 <= time.maxDuration ->
                   time.Round rem2 time.Second <= time.Round rem1 time.Second))
    /\ (forall address,
          readAddress r1 = inl address ->
          getClientIPFromRequest (proxyCount (limiter σ1)) r1 = Some key ->
          match probe (cache (limiter σ1)) (clock (ticks σ1)) address with
          | Some rem => w1' = rejection w1 rem
          | None =>
              w1' = rejection w1
                      (ttlcache.expireAt it - clock (S (ticks σ1)))
          end)
    /\ (forall n1,
          probes_key readAddress clock key σ1 r1 n1 ->
          let rem1 := ttlcache.expireAt it - clock n1 in
          ret1 = return_limited
          /\ w1' = rejection w1 rem1
          /\ (ticks σ1 <= n1 < ticks σ1')%nat
          /\ forall σ2 w2 r2 next2 n2,
               idle σ2 ->
               0 < ttl (limiter σ2) ->
               ttlcache.items (cache (limiter σ2)) !! key = Some it ->
               (ticks σ1' <= ticks σ2)%nat ->
               clock (S (ticks σ2)) <= ttlcache.expireAt it ->
               probes_key readAddress clock key σ2 r2 n2 ->
               let rem2 := ttlcache.expireAt it - clock n2 in
               exists σ2',
                 serve σ2 w2 r2 next2
                 = Some (return_limited, rejection w2 rem2, σ2')
                 /\ 0 <= rem2 <= rem1
                 /\ (clock n1 < clock n2 -> rem2 < rem1)
                 /\ (rem1 <= time.maxDuration ->
                     time.Round rem2 time.Second
                     <= time.Round rem1 time.Second)).
Proof.
  intros Hidle1 Httl1 Hit1 Hlive1.
  destruct (serve_total readAddress clock σ1 w1 r1 next1 Hidle1)
    as [[[ret1 w1'] σ1'] Hserve1].
  exists ret1, w1', σ1'. split; [exact Hserve1|].
  destruct (serve_keeps_live_entry _ _ _ _ _ _ _ _ _ Hidle1 Hit1 Hlive1 Hserve1)
    as (Hkept & _ & Huse1).
  split; [exact Hkept|]. split; [|split; [|split]].
  - intros address clientIP Haddr Hip Hkey.
    destruct (Huse1 address clientIP Haddr Httl1 Hip) as [Ha Hc].
    assert (ret1 = return_limited) as -> by (destruct Hkey; tauto).
    split; [reflexivity|].
    eapply serve_limited_frame; eassumption.
  - intros Haddr1 rem1.
    destruct (getClientIPFromRequest_total (proxyCount (limiter σ1)) r1)
      as [ip1 Hip1].
    destruct (Huse1 key ip1 Haddr1 Httl1 Hip1) as [Ha _].
    destruct (Ha eq_refl) as [_ Hw1]. split; [exact Hw1|].
    intros σ2 w2 r2 next2 Hidle2 Httl2 Hit2 Hticks Hlive2 Haddr2 rem2.
    destruct (serve_total readAddress clock σ2 w2 r2 next2 Hidle2)
      as [[[ret2 w2'] σ2'] Hserve2].
    destruct (serve_keeps_live_entry _ _ _ _ _ _ _ _ _ Hidle2 Hit2 Hlive2 Hserve2)
      as (_ & _ & Huse2).
    destruct (getClientIPFromRequest_total (proxyCount (limiter σ2)) r2)
      as [ip2 Hip2].
    destruct (Huse2 key ip2 Haddr2 Httl2 Hip2) as [Ha2 _].
    destruct (Ha2 eq_refl) as [-> ->].
    assert (H12 : clock (ticks σ1) <= clock (ticks σ2))
      by (apply clock_monotone; assumption).
    assert (H22 : clock (ticks σ2) <= clock (S (ticks σ2)))
      by (apply clock_monotone; lia).
    exists σ2'. subst rem1 rem2.
    split; [exact Hserve2|]. split; [lia|]. split; [lia|].
    intros Hmax. apply Round_Second_le; lia.
  - intros address Haddr Hip.
    destruct (probe (cache (limiter σ1)) (clock (ticks σ1)) address)
      as [rem|] eqn:Hprobe.
    + rewrite (serve_positive readAddress clock _ _ _ _ _ _ Hidle1 Haddr
                 Httl1 Hip) in Hserve1.
      cbv zeta in Hserve1. rewrite Hprobe in Hserve1.
      injection Hserve1 as _ <- _. reflexivity.
    + destruct (serve_probes_key σ1 w1 r1 next1 key it (S (ticks σ1))
                  Hidle1 Httl1 Hit1 Hlive1) as (σ' & Hserve' & _).
      { right. exists address. repeat split; assumption. }
      rewrite Hserve' in Hserve1. injection Hserve1 as _ <- _. reflexivity.
  - intros n1 Hprobes1 rem1.
    destruct (serve_probes_key σ1 w1 r1 next1 key it n1
                Hidle1 Httl1 Hit1 Hlive1 Hprobes1) as (σ' & Hserve' & Hn1).
    rewrite Hserve' in Hserve1. injection Hserve1 as <- <- <-.
    split; [reflexivity|]. split; [reflexivity|]. split; [exact Hn1|].
    intros σ2 w2 r2 next2 n2 Hidle2 Httl2 Hit2 Hticks Hlive2 Hprobes2 rem2.
    destruct (serve_probes_key σ2 w2 r2 next2 key it n2
                Hidle2 Httl2 Hit2 Hlive2 Hprobes2) as (σ2' & Hserve2 & Hn2).
    exists σ2'. split; [exact Hserve2|].
    assert (Hn2' : (n2 <= S (ticks σ2))%nat)
      by (destruct Hprobes2 as [[_ ->]|(? & _ & _ & _ & ->)]; lia).
    assert (H12 : clock n1 <= clock n2) by (apply clock_monotone; lia).
    assert (H22 : clock n2 <= clock (S (ticks σ2)))
      by (apply clock_monotone; exact Hn2').
    subst rem1 rem2. split; [lia|]. split; [lia|].
    intros Hmax. apply Round_Second_le; lia.
Qed.

End Window.

Section Message.

Context (readAddress : Request -> string + error) (clock : nat -> Z).

Local Abbreviation serve := (serve readAddress clock).

(** C3, amended: a rejection answers 429 with the JSON object whose member
    [message] is "You have exceeded the rate limit. Please wait D before you
    try again", where D is the remaining time to live of the key that was
    found, rounded to the nearest whole second [n] and written as Go writes
    a duration: [n] followed by [s] under a minute, minutes and seconds
    ([1m30s]) from a minute on, hours, minutes and seconds from an hour
    on. *)
Theorem C3_rejection_message σ w r next w' σ' :
  idle σ ->
  serve σ w r next = Some (return_limited, w', σ') ->
  exists key rem text,
    (probe (cache (limiter σ)) (clock (ticks σ)) key = Some rem
     \/ probe (cache (limiter σ)) (clock (S (ticks σ))) key = Some rem)
    /\ 0 <= rem
    /\ Status w' = 429
    /\ Written w'
       = Written w +:+ "{" +:+ dquote +:+ "message" +:+ dquote +:+ ": "
           +:+ dquote +:+ text +:+ dquote +:+ "}"
    /\ text
       = "You have exceeded the rate limit. Please wait "
           +:+ time.String (time.Round rem time.Second)
           +:+ " before you try again"
    /\ (rem + 500000000 <= time.maxDuration ->
        let n := (rem + 500000000) / 1000000000 in
        nearest_second rem (n * time.Second)
        /\ time.String (time.Round rem time.Second) = seconds_text n
        /\ (n < 60 ->
            text = "You have exceeded the rate limit. Please wait "
                     +:+ decimal n +:+ "s before you try again")).
Proof.
  intros Hidle Hserve.
  assert (Hfound : exists key rem,
            (probe (cache (limiter σ)) (clock (ticks σ)) key = Some rem
             \/ probe (cache (limiter σ)) (clock (S (ticks σ))) key = Some rem)
            /\ w' = rejection w rem).
  { destruct (serve_cases readAddress σ r)
      as [(err & Herr)|[(address & Haddr & Httl)
                       |(address & clientIP & Haddr & Httl & Hip)]].
    - rewrite (serve_error readAddress clock _ _ _ _ _ Herr) in Hserve.
      discriminate.
    - rewrite (serve_disabled readAddress clock _ _ _ _ _ Haddr Httl) in Hserve.
      discriminate.
    - rewrite (serve_positive readAddress clock _ _ _ _ _ _ Hidle Haddr Httl Hip)
        in Hserve.
      cbv zeta in Hserve.
      destruct (probe _ _ address) as [rem|] eqn:Pa.
      { injection Hserve as <- _. exists address, rem. tauto. }
      destruct (probe _ _ clientIP) as [rem|] eqn:Pi.
      { injection Hserve as <- _. exists clientIP, rem. tauto. }
      destruct (negb _); discriminate. }
  destruct Hfound as (key & rem & Hprobe & ->).
  assert (Hrem : 0 <= rem).
  { destruct Hidle as [Hskip _].
    destruct Hprobe; eapply probe_nonneg; eassumption. }
  exists key, rem, (Sprintf_rate_limit (time.Round rem time.Second)).
  split; [exact Hprobe|]. split; [exact Hrem|]. split; [reflexivity|].
  split; [reflexivity|]. split; [reflexivity|].
  intros Hmax n.
  assert (Hround : time.Round rem time.Second = n * time.Second).
  { rewrite Round_Second by assumption. subst n.
    rewrite Second_value. lia. }
  assert (Hn : 0 <= n) by (subst n; apply Z.div_pos; lia).
  assert (Hbound : n * time.Second <= time.maxDuration).
  { rewrite <- Hround.
    pose proof (Round_nearest_second rem Hrem Hmax) as [_ Hnear].
    pose proof Second_value as HS. lia. }
  split; [rewrite <- Hround; apply Round_nearest_second; assumption|].
  split; [rewrite Hround; apply String_seconds; assumption|].
  intros H60. unfold Sprintf_rate_limit.
  rewrite Hround, String_seconds by assumption. unfold seconds_text.
  destruct (Z.ltb_spec n 60); [|lia].
  rewrite app_assoc_string. reflexivity.
Qed.

End Message.

(** * Callers of one identity served at once *)

Section Concurrent.

Context (readAddress : Request -> string + error) (clock : nat -> Z).
Context (address clientIP : string) (d : Z) (σ0 : World).
Context (callers : list Caller).

Hypothesis clock_monotone : forall i j, (i <= j)%nat -> clock i <= clock j.
Hypothesis window : forall n, clock n <= clock (ticks σ0) + d.
Hypothesis absent : forall n key,
  (ticks σ0 <= n)%nat -> key = address \/ key = clientIP ->
  probe (cache (limiter σ0)) (clock n) key = None.
Hypothesis handlers_succeed : forall c,
  c ∈ callers ->
  Status (caller_next c (caller_w c) (caller_r c)) = http.StatusOK.

Local Abbreviation Inv := (Inv clock address clientIP d σ0 callers).

(** The program of [ServeHTTP] starts at the lock. *)
Lemma ServeHTTP_at_Lock proxyCount w r next p :
  readAddress r = inl address ->
  0 < d ->
  getClientIPFromRequest proxyCount r = Some clientIP ->
  ServeHTTP readAddress proxyCount d w r next = Some p ->
  at_phase address clientIP d w r next at_Lock p.
Proof.
  intros Haddr Hd Hip. unfold ServeHTTP. rewrite Haddr, Hip.
  destruct (Z.leb_spec d 0); [lia|]. intros [= <-].
  simpl. split; [reflexivity|]. intros _.
  left. split; [reflexivity|]. split; [reflexivity|].
  intros [[v rem]|]; simpl.
  - left. eexists. split; [reflexivity|]. intros _. reflexivity.
  - right. split; [reflexivity|]. split; [reflexivity|].
    intros [[v rem]|]; simpl.
    + left. eexists. split; [reflexivity|]. intros _. reflexivity.
    + split; [reflexivity|]. split; [reflexivity|].
      left. split; [reflexivity|]. split; [reflexivity|]. intros _.
      split; [reflexivity|]. split; [reflexivity|].
      right. split; [reflexivity|]. split; [reflexivity|]. intros _.
      right. split; [reflexivity|]. intros _.
      split; [reflexivity|]. split; [reflexivity|]. split; [reflexivity|].
      split; [reflexivity|]. intros w''. unfold after_next.
      destruct (negb (Status w'' =? http.StatusOK)); simpl.
      * eexists. left. split; [reflexivity|]. split; [reflexivity|].
        intros _. eexists. right. split; [reflexivity|].
        split; [reflexivity|]. intros _. reflexivity.
      * eexists. split; [reflexivity|]. intros _. reflexivity.
Qed.

Lemma lookup_insert_cases {A} (l : list A) (i j : nat) (x y : A) :
  <[i:=x]> l !! j = Some y ->
  (j = i /\ y = x) \/ (j <> i /\ l !! j = Some y).
Proof.
  intros H. destruct (decide (j = i)) as [->|Hne].
  - left. split; [reflexivity|].
    destruct (decide (i < length l)%nat) as [Hlt|Hge].
    + rewrite list_lookup_insert_eq in H by assumption. congruence.
    + rewrite list_insert_ge in H by lia.
      apply lookup_lt_Some in H. lia.
  - right. split; [assumption|].
    rewrite list_lookup_insert_ne in H by congruence. exact H.
Qed.

(** A step of caller [i] from [ph] to [ph'] that leaves the cache as it is
    keeps the invariant, given what the step does to the mutex and how the
    roles of the caller change. *)
Lemma Inv_update_same_cache i c ph ph' p' phs pool σ σ' :
  Inv phs pool σ ->
  callers !! i = Some c -> phs !! i = Some ph ->
  at_phase address clientIP d (caller_w c) (caller_r c) (caller_next c) ph' p' ->
  cache (limiter σ') = cache (limiter σ) ->
  (ticks σ <= ticks σ')%nat ->
  no_rollback ph' = true ->
  reserved ph' = reserved ph ->
  ((mutex (limiter σ') = true /\ critical ph' = true)
   \/ (critical ph = true /\ critical ph' = false
       /\ mutex (limiter σ') = false)
   \/ (mutex (limiter σ') = mutex (limiter σ)
       /\ critical ph' = critical ph)) ->
  (critical ph' = true ->
   critical ph = true \/ mutex (limiter σ) = false) ->
  (claimed ph' = true ->
   claimed ph = true
   \/ forall j phj, phs !! j = Some phj -> claimed phj = false) ->
  (limited ph' = true ->
   limited ph = true
   \/ exists j phj, phs !! j = Some phj /\ reserved phj = true) ->
  Inv (<[i:=ph']> phs) (<[i:=p']> pool) σ'.
Proof.
  intros HI Hc Hph Hat Hcache Hticks Hnr Hres Hmutex Hexcl Hclaim Hlim.
  destruct HI
    as [Hlp Hlq Hall Hskip Ht Hnrb Hlock Hhold Hex Hone Hrsv Hunt Hlimd].
  assert (Hi : (i < length phs)%nat) by (eapply lookup_lt_Some; eassumption).
  split.
  - rewrite length_insert. exact Hlp.
  - rewrite length_insert. exact Hlq.
  - intros j c' ph'' p'' Hc' Hph'' Hp''.
    apply lookup_insert_cases in Hph'' as [[-> ->]|[Hne Hph'']].
    + rewrite list_lookup_insert_eq in Hp'' by lia.
      injection Hp'' as <-. congruence.
    + rewrite list_lookup_insert_ne in Hp'' by congruence. eauto.
  - rewrite Hcache. exact Hskip.
  - lia.
  - intros j phj Hj. apply lookup_insert_cases in Hj as [[-> ->]|[Hne Hj]]; eauto.
  - intros j phj Hj Hcrit.
    apply lookup_insert_cases in Hj as [[-> ->]|[Hne Hj]].
    + destruct Hmutex as [[Hm _]|[(_ & Hm & _)|[Hm Hsame]]];
        [exact Hm|congruence|].
      rewrite Hm. rewrite Hsame in Hcrit. eauto.
    + destruct Hmutex as [[Hm _]|[(Hm & _)|[Hm _]]];
        [exact Hm| |rewrite Hm; eauto].
      exfalso. apply Hne. eapply Hex; eassumption.
  - intros Hm'.
    destruct Hmutex as [[_ Hcr]|[(_ & _ & Hm)|[Hm Hsame]]]; [|congruence|].
    + exists i, ph'. split; [apply list_lookup_insert_eq; lia|exact Hcr].
    + rewrite Hm in Hm'. destruct (Hhold Hm') as (j & phj & Hj & Hcr).
      destruct (decide (j = i)) as [->|Hne].
      * exists i, ph'. split; [apply list_lookup_insert_eq; lia|].
        assert (phj = ph) as -> by congruence. congruence.
      * exists j, phj. split; [|exact Hcr].
        rewrite list_lookup_insert_ne by congruence. exact Hj.
  - intros j1 j2 ph1 ph2 H1 H2 Hc1 Hc2.
    apply lookup_insert_cases in H1 as [[-> ->]|[Hne1 H1]];
      apply lookup_insert_cases in H2 as [[-> ->]|[Hne2 H2]];
      [reflexivity| | |eauto].
    + destruct (Hexcl Hc1) as [Hold|Hfree]; [symmetry; eauto|].
      rewrite (Hlock _ _ H2 Hc2) in Hfree. discriminate.
    + destruct (Hexcl Hc2) as [Hold|Hfree]; [eauto|].
      rewrite (Hlock _ _ H1 Hc1) in Hfree. discriminate.
  - intros j1 j2 ph1 ph2 H1 H2 Hc1 Hc2.
    apply lookup_insert_cases in H1 as [[-> ->]|[Hne1 H1]];
      apply lookup_insert_cases in H2 as [[-> ->]|[Hne2 H2]];
      [reflexivity| | |eauto].
    + destruct (Hclaim Hc1) as [Hold|Hnone]; [symmetry; eauto|].
      rewrite (Hnone _ _ H2) in Hc2. discriminate.
    + destruct (Hclaim Hc2) as [Hold|Hnone]; [eauto|].
      rewrite (Hnone _ _ H1) in Hc1. discriminate.
  - intros j phj Hj Hr. rewrite Hcache.
    apply lookup_insert_cases in Hj as [[-> ->]|[Hne Hj]]; [|eauto].
    rewrite Hres in Hr. eauto.
  - intros Hnone. rewrite Hcache. apply Hunt.
    intros j phj Hj. destruct (decide (j = i)) as [->|Hne].
    + assert (phj = ph) as -> by congruence.
      rewrite <- Hres. apply (Hnone i).
      apply list_lookup_insert_eq. lia.
    + apply (Hnone j). rewrite list_lookup_insert_ne by congruence. exact Hj.
  - intros j phj Hj Hl.
    assert (Hold : exists j' phj', phs !! j' = Some phj' /\ reserved phj' = true).
    { apply lookup_insert_cases in Hj as [[-> ->]|[Hne Hj]]; [|eauto].
      destruct (Hlim Hl) as [Hl'|Hex']; eauto. }
    destruct Hold as (j' & phj' & Hj' & Hr').
    destruct (decide (j' = i)) as [->|Hne'].
    + exists i, ph'. split; [apply list_lookup_insert_eq; lia|].
      assert (phj' = ph) as -> by congruence. congruence.
    + exists j', phj'. split; [|exact Hr'].
      rewrite list_lookup_insert_ne by congruence. exact Hj'.
Qed.

Lemma reserved_claimed ph : reserved ph = true -> claimed ph = true.
Proof.
  destruct ph as [| | | | | | | | | | |ret w']; try destruct ret; simpl;
    intros H; (discriminate || reflexivity).
Qed.

(** A step of caller [i] that sets a key, inside the critical section. *)
Lemma Inv_update_set i c ph ph' p' phs pool σ σ' key now :
  Inv phs pool σ ->
  callers !! i = Some c -> phs !! i = Some ph ->
  at_phase address clientIP d (caller_w c) (caller_r c) (caller_next c) ph' p' ->
  cache (limiter σ')
  = ttlcache.SetWithTTL (cache (limiter σ)) now key true d ->
  clock (ticks σ0) <= now ->
  key = address \/ reserved ph = true ->
  mutex (limiter σ') = mutex (limiter σ) ->
  (ticks σ <= ticks σ')%nat ->
  critical ph = true -> critical ph' = true ->
  claimed ph = true -> reserved ph' = true ->
  limited ph' = false -> no_rollback ph' = true ->
  Inv (<[i:=ph']> phs) (<[i:=p']> pool) σ'.
Proof.
  intros HI Hc Hph Hat Hcache Hnow Hkey Hmutex Hticks Hcr Hcr' Hcl Hres' Hlim'
    Hnr.
  destruct HI
    as [Hlp Hlq Hall Hskip Ht Hnrb Hlock Hhold Hex Hone Hrsv Hunt Hlimd].
  assert (Hi : (i < length phs)%nat) by (eapply lookup_lt_Some; eassumption).
  assert (Hcl' : claimed ph' = true) by (apply reserved_claimed, Hres').
  split.
  - rewrite length_insert. exact Hlp.
  - rewrite length_insert. exact Hlq.
  - intros j c' ph'' p'' Hc' Hph'' Hp''.
    apply lookup_insert_cases in Hph'' as [[-> ->]|[Hne Hph'']].
    + rewrite list_lookup_insert_eq in Hp'' by lia.
      injection Hp'' as <-. congruence.
    + rewrite list_lookup_insert_ne in Hp'' by congruence. eauto.
  - rewrite Hcache. exact Hskip.
  - lia.
  - intros j phj Hj. apply lookup_insert_cases in Hj as [[-> ->]|[Hne Hj]]; eauto.
  - intros j phj Hj Hcrit. rewrite Hmutex.
    apply lookup_insert_cases in Hj as [[-> ->]|[Hne Hj]]; eauto.
  - intros _. exists i, ph'.
    split; [apply list_lookup_insert_eq; lia|exact Hcr'].
  - intros j1 j2 ph1 ph2 H1 H2 Hc1 Hc2.
    apply lookup_insert_cases in H1 as [[-> ->]|[Hne1 H1]];
      apply lookup_insert_cases in H2 as [[-> ->]|[Hne2 H2]];
      [reflexivity|symmetry; eauto|eauto|eauto].
  - intros j1 j2 ph1 ph2 H1 H2 Hc1 Hc2.
    apply lookup_insert_cases in H1 as [[-> ->]|[Hne1 H1]];
      apply lookup_insert_cases in H2 as [[-> ->]|[Hne2 H2]];
      [reflexivity|symmetry; eauto|eauto|eauto].
  - intros j phj Hj Hr. rewrite Hcache. simpl.
    destruct (decide (key = address)) as [->|Hne].
    + rewrite lookup_insert_eq. eexists. split; [reflexivity|]. simpl. lia.
    + rewrite lookup_insert_ne by exact Hne.
      destruct Hkey as [Hk|Hk]; [contradiction|]. eauto.
  - intros Hnone. exfalso.
    rewrite (Hnone i ph') in Hres'; [discriminate|].
    apply list_lookup_insert_eq. lia.
  - intros j phj Hj Hl.
    exists i, ph'. split; [apply list_lookup_insert_eq; lia|exact Hres'].
Qed.

Lemma reserved_somewhere (phs : list Phase) :
  (forall j phj, phs !! j = Some phj -> reserved phj = false)
  \/ exists j phj, phs !! j = Some phj /\ reserved phj = true.
Proof.
  induction phs as [|ph phs IH].
  - left. intros j phj Hj. rewrite lookup_nil in Hj. discriminate.
  - destruct (reserved ph) eqn:Hr.
    + right. exists 0%nat, ph. split; [reflexivity|exact Hr].
    + destruct IH as [Hnone|(j & phj & Hj & Hrj)].
      * left. intros [|j] phj Hj; simpl in Hj; [congruence|eauto].
      * right. exists (S j), phj. split; assumption.
Qed.

(** With the no-refresh setting a probe leaves the cache as it is. *)
Lemma GetWithTTL_skip c now key :
  ttlcache.skipTTLExtension c = true ->
  (ttlcache.GetWithTTL c now key).1 = c.
Proof.
  intros Hskip. unfold ttlcache.GetWithTTL.
  destruct (ttlcache.items c !! key) as [it|]; [|reflexivity].
  destruct (ttlcache.expired it now); [reflexivity|].
  rewrite Hskip. reflexivity.
Qed.

(** A step of one caller keeps the invariant. *)
Lemma step_Inv i phs pool σ pool' σ' :
  Inv phs pool σ ->
  step clock i (pool, σ) = Some (pool', σ') ->
  exists ph ph',
    phs !! i = Some ph /\ (rank ph' < rank ph)%nat
    /\ Inv (<[i:=ph']> phs) pool' σ'.
Proof.
  intros HI Hstep. unfold step in Hstep. simpl in Hstep.
  destruct (pool !! i) as [[ret|act k]|] eqn:Hp; try discriminate.
  destruct (perform clock act σ) as [[x σ1]|] eqn:Hperf; [|discriminate].
  injection Hstep as <- <-.
  assert (Hi : (i < length callers)%nat).
  { rewrite <- (inv_pool _ _ _ _ _ _ _ _ _ HI). eapply lookup_lt_Some, Hp. }
  destruct (lookup_lt_is_Some_2 callers i Hi) as [c Hc].
  destruct (lookup_lt_is_Some_2 phs i) as [ph Hph];
    [rewrite (inv_phases _ _ _ _ _ _ _ _ _ HI); exact Hi|].
  pose proof (inv_at _ _ _ _ _ _ _ _ _ HI i c ph _ Hc Hph Hp) as Hat.
  assert (Hin : c ∈ callers) by (eapply list_elem_of_lookup_2, Hc).
  pose proof (inv_skip _ _ _ _ _ _ _ _ _ HI) as Hskip.
  pose proof (inv_ticks _ _ _ _ _ _ _ _ _ HI) as Hticks.
  assert (Hnow : clock (ticks σ0) <= clock (ticks σ))
    by (apply clock_monotone, Hticks).
  destruct act; simpl in Hperf, Hat.
  - (* Lock *)
    destruct Hat as [-> Hk].
    destruct (mutex (limiter σ)) eqn:Hm; [discriminate|].
    injection Hperf as <- <-.
    eexists _, (at_GetAddress). split; [exact Hph|]. split; [simpl; lia|].
    eapply Inv_update_same_cache with (ph := at_Lock); eauto;
      simpl; eauto; intros; discriminate.
  - (* Unlock *)
    destruct (mutex (limiter σ)) eqn:Hm; [|discriminate].
    injection Hperf as <- <-.
    destruct Hat as [(w' & -> & Hk)|[-> Hk]].
    + eexists _, (at_return return_limited w'). split; [exact Hph|]. split; [simpl; lia|].
      eapply Inv_update_same_cache with (ph := at_Unlock_limited w'); eauto;
        simpl; eauto; intros; discriminate.
    + eexists _, (at_Next). split; [exact Hph|]. split; [simpl; lia|].
      eapply Inv_update_same_cache with (ph := at_Unlock); eauto;
        simpl; eauto; intros; discriminate.
  - (* GetWithTTL *)
    pose proof (GetWithTTL_skip (cache (limiter σ)) (clock (ticks σ)) key Hskip)
      as Hsame.
    assert (Hres : probe (cache (limiter σ)) (clock (ticks σ)) key
                   = snd <$> (ttlcache.GetWithTTL (cache (limiter σ))
                                (clock (ticks σ)) key).2) by reflexivity.
    destruct (ttlcache.GetWithTTL (cache (limiter σ)) (clock (ticks σ)) key)
      as [c' res]. simpl in Hsame, Hres. subst c'.
    injection Hperf as <- <-.
    assert (Hcache : forall l, cache (with_cache l (cache l)) = cache l)
      by reflexivity.
    destruct Hat as [(-> & -> & Hk)|(-> & -> & Hk)].
    + (* the address key *)
      destruct res as [[v rem]|]; simpl in Hres.
      * eexists _, (at_Unlock_limited (rejection (caller_w c) rem)). split; [exact Hph|]. split; [simpl; lia|].
        eapply Inv_update_same_cache with (ph := at_GetAddress); eauto;
          simpl; eauto; try (intros; discriminate).
        { apply (Hk (Some (v, rem))). }
        intros _. right.
        destruct (reserved_somewhere phs) as [Hnone|Hsome]; [|exact Hsome].
        rewrite (inv_untouched _ _ _ _ _ _ _ _ _ HI Hnone) in Hres.
        rewrite absent in Hres by (auto; lia). discriminate.
      * eexists _, (at_GetClientIP). split; [exact Hph|]. split; [simpl; lia|].
        eapply Inv_update_same_cache with (ph := at_GetAddress); eauto;
          simpl; eauto; try (intros; discriminate).
        { apply (Hk None). }
        intros _. right. intros j phj Hj.
        destruct (claimed phj) eqn:Hcl; [exfalso|reflexivity].
        destruct (reserved phj) eqn:Hr.
        -- destruct (inv_reserved _ _ _ _ _ _ _ _ _ HI j phj Hj Hr)
             as (it & Hit & Hexp).
           rewrite probe_lookup, Hit in Hres by assumption.
           pose proof (window (ticks σ)).
           destruct (Z.ltb_spec (ttlcache.expireAt it) (clock (ticks σ)));
             [lia|discriminate].
        -- assert (critical phj = true)
             by (destruct phj as [| | | | | | | | | | |ret w']; try destruct ret;
                 simpl in *; congruence).
           assert (j = i)
             by (eapply (inv_exclusion _ _ _ _ _ _ _ _ _ HI); eauto).
           subst j. assert (phj = at_GetAddress) as -> by congruence.
           discriminate.
    + (* the identity key *)
      assert (Hnone : forall j phj, phs !! j = Some phj -> reserved phj = false).
      { intros j phj Hj. destruct (reserved phj) eqn:Hr; [exfalso|reflexivity].
        assert (j = i).
        { eapply (inv_one_claim _ _ _ _ _ _ _ _ _ HI); eauto.
          apply reserved_claimed, Hr. }
        subst j. assert (phj = at_GetClientIP) as -> by congruence.
        discriminate. }
      rewrite (inv_untouched _ _ _ _ _ _ _ _ _ HI Hnone) in Hres.
      rewrite absent in Hres by (auto; lia).
      destruct res as [[v rem]|]; [discriminate|].
      eexists _, (at_SetAddress). split; [exact Hph|]. split; [simpl; lia|].
      eapply Inv_update_same_cache with (ph := at_GetClientIP); eauto;
        simpl; eauto.
      apply (Hk None).
  - (* SetWithTTL *)
    injection Hperf as <- <-.
    destruct Hat as (-> & -> & [(-> & -> & Hk)|(-> & -> & Hk)]).
    + eexists _, (at_SetClientIP). split; [exact Hph|]. split; [simpl; lia|].
      eapply Inv_update_set with (ph := at_SetAddress); eauto; simpl; eauto.
    + eexists _, (at_Unlock). split; [exact Hph|]. split; [simpl; lia|].
      eapply Inv_update_set with (ph := at_SetClientIP); eauto; simpl; eauto.
  - (* Remove *)
    exfalso. pose proof (inv_no_rollback _ _ _ _ _ _ _ _ _ HI i ph Hph) as Hnr.
    destruct Hat as (w' & [(-> & _)|(-> & _)]); discriminate.
  - (* Next *)
    destruct Hat as (-> & -> & -> & -> & Hk).
    injection Hperf as <- <-.
    eexists _, (at_LogInfo (caller_next c (caller_w c) (caller_r c))). split; [exact Hph|]. split; [simpl; lia|].
    eapply Inv_update_same_cache with (ph := at_Next); eauto; simpl; eauto.
    specialize (Hk (caller_next c (caller_w c) (caller_r c))).
    unfold after_next in Hk. rewrite (handlers_succeed c Hin) in Hk.
    exact Hk.
  - (* LogInfo *)
    destruct Hat as (w' & -> & Hk).
    injection Hperf as <- <-.
    eexists _, (at_return return_done w'). split; [exact Hph|]. split; [simpl; lia|].
    eapply Inv_update_same_cache with (ph := at_LogInfo w'); eauto;
      simpl; eauto.
Qed.

(** The steps of a schedule keep the invariant. *)
Lemma steps_Inv schedule phs pool σ pool' σ' :
  Inv phs pool σ ->
  steps clock schedule (pool, σ) = Some (pool', σ') ->
  exists phs', Inv phs' pool' σ'.
Proof.
  revert phs pool σ. induction schedule as [|i schedule IH];
    intros phs pool σ HI Hsteps; simpl in Hsteps.
  - injection Hsteps as <- <-. eauto.
  - destruct (step clock i (pool, σ)) as [[pool1 σ1]|] eqn:Hstep;
      [|discriminate].
    destruct (step_Inv _ _ _ _ _ _ HI Hstep) as (ph & ph' & _ & _ & HI1).
    eapply IH; eassumption.
Qed.

(** What the invariant says of a program, given where its caller is. *)
Lemma at_phase_critical w r next ph p :
  at_phase address clientIP d w r next ph p ->
  in_critical_section p = critical ph.
Proof.
  destruct p as [[ret w']|act k]; simpl.
  - intros ->. reflexivity.
  - destruct act; simpl.
    + intros [-> _]. reflexivity.
    + intros [(w' & -> & _)|[-> _]]; reflexivity.
    + intros [(-> & _)|(-> & _)]; reflexivity.
    + intros (_ & _ & [(-> & _)|(-> & _)]); reflexivity.
    + intros (w' & [(-> & _)|(-> & _)]); reflexivity.
    + intros (-> & _). reflexivity.
    + intros (w' & -> & _). reflexivity.
Qed.

Lemma at_phase_returned w r next ph p ret :
  at_phase address clientIP d w r next ph p ->
  returned p = Some ret ->
  exists w', ph = at_return ret w'.
Proof.
  destruct p as [[ret' w']|act k]; simpl; [|discriminate].
  intros -> [= <-]. eauto.
Qed.

(** While a caller has not returned, some caller can do its next action:
    the one that holds the mutex, or, when the mutex is free, any caller
    that has not returned. *)
Lemma Inv_progress phs pool σ :
  Inv phs pool σ ->
  (exists i p, pool !! i = Some p /\ returned p = None) ->
  exists i, is_Some (step clock i (pool, σ)).
Proof.
  intros HI (i0 & p0 & Hp0 & Hret0).
  assert (Hstep : forall i c ph act k,
            callers !! i = Some c -> phs !! i = Some ph ->
            pool !! i = Some (Do act k) ->
            (act = Lock -> mutex (limiter σ) = false) ->
            (act = Unlock -> mutex (limiter σ) = true) ->
            is_Some (step clock i (pool, σ))).
  { intros i c ph act k Hc Hph Hp Hlock Hunlock. unfold step. simpl.
    rewrite Hp.
    assert (is_Some (perform clock act σ)) as [[x σ1] ->]; [|eauto].
    destruct act; simpl; eauto.
    - rewrite Hlock by reflexivity. eauto.
    - rewrite Hunlock by reflexivity. eauto.
    - destruct (ttlcache.GetWithTTL _ _ _). eauto. }
  destruct (mutex (limiter σ)) eqn:Hm.
  - destruct (inv_holder _ _ _ _ _ _ _ _ _ HI Hm) as (i & ph & Hph & Hcr).
    assert (Hi : (i < length callers)%nat).
    { rewrite <- (inv_phases _ _ _ _ _ _ _ _ _ HI).
      eapply lookup_lt_Some, Hph. }
    destruct (lookup_lt_is_Some_2 callers i Hi) as [c Hc].
    destruct (lookup_lt_is_Some_2 pool i) as [p Hp];
      [rewrite (inv_pool _ _ _ _ _ _ _ _ _ HI); exact Hi|].
    pose proof (inv_at _ _ _ _ _ _ _ _ _ HI i c ph p Hc Hph Hp) as Hat.
    pose proof (at_phase_critical _ _ _ _ _ Hat) as Hcs.
    rewrite Hcr in Hcs.
    destruct p as [[ret w']|act k]; [discriminate|].
    exists i. eapply Hstep; eauto.
    intros ->. discriminate.
  - assert (Hi : (i0 < length callers)%nat).
    { rewrite <- (inv_pool _ _ _ _ _ _ _ _ _ HI).
      eapply lookup_lt_Some, Hp0. }
    destruct (lookup_lt_is_Some_2 callers i0 Hi) as [c Hc].
    destruct (lookup_lt_is_Some_2 phs i0) as [ph Hph];
      [rewrite (inv_phases _ _ _ _ _ _ _ _ _ HI); exact Hi|].
    pose proof (inv_at _ _ _ _ _ _ _ _ _ HI i0 c ph p0 Hc Hph Hp0) as Hat.
    pose proof (at_phase_critical _ _ _ _ _ Hat) as Hcs.
    destruct p0 as [[ret w']|act k]; [discriminate|].
    exists i0. eapply Hstep; eauto.
    intros ->. simpl in Hcs.
    rewrite (inv_locked _ _ _ _ _ _ _ _ _ HI i0 ph Hph) in Hm by congruence.
    discriminate.
Qed.

Lemma sum_rank_insert (phs : list Phase) i ph ph' :
  phs !! i = Some ph -> (rank ph' < rank ph)%nat ->
  (sum_list (rank <$> <[i:=ph']> phs) < sum_list (rank <$> phs))%nat.
Proof.
  revert i. induction phs as [|ph0 phs IH]; intros [|i] Hph Hlt;
    try discriminate.
  - injection Hph as ->.
    change (rank ph' + sum_list (rank <$> phs)
            < rank ph + sum_list (rank <$> phs))%nat.
    lia.
  - specialize (IH i Hph Hlt).
    change (rank ph0 + sum_list (rank <$> <[i:=ph']> phs)
            < rank ph0 + sum_list (rank <$> phs))%nat.
    lia.
Qed.

Lemma all_returned_or_not (pool : Pool) :
  (forall i p, pool !! i = Some p -> is_Some (returned p))
  \/ (exists i p, pool !! i = Some p /\ returned p = None).
Proof.
  induction pool as [|p pool IH].
  - left. intros i q Hq. rewrite lookup_nil in Hq. discriminate.
  - destruct (returned p) as [ret|] eqn:Hp.
    + destruct IH as [Hall|(i & q & Hq & Hnone)].
      * left. intros [|i] q Hq; simpl in Hq; [|eauto].
        injection Hq as <-. rewrite Hp. eauto.
      * right. exists (S i), q. split; assumption.
    + right. exists 0%nat, p. split; [reflexivity|exact Hp].
Qed.

(** The callers can always be run on until all of them have returned. *)
Lemma Inv_completion n phs pool σ :
  Inv phs pool σ ->
  (sum_list (rank <$> phs) <= n)%nat ->
  exists schedule pool' σ',
    steps clock schedule (pool, σ) = Some (pool', σ')
    /\ forall i p, pool' !! i = Some p -> is_Some (returned p).
Proof.
  revert phs pool σ. induction n as [|n IH]; intros phs pool σ HI Hsum;
    (destruct (all_returned_or_not pool) as [Hall|Hsome];
     [exists [], pool, σ; split; [reflexivity|exact Hall]|]);
    destruct (Inv_progress _ _ _ HI Hsome) as (i & [[pool1 σ1] Hstep]);
    destruct (step_Inv _ _ _ _ _ _ HI Hstep) as (ph & ph' & Hph & Hlt & HI1);
    pose proof (sum_rank_insert _ _ _ _ Hph Hlt) as Hdec.
  - lia.
  - destruct (IH _ _ _ HI1 ltac:(lia)) as (schedule & pool' & σ' & Hsteps & Hall).
    exists (i :: schedule), pool', σ'. split; [|exact Hall].
    simpl. rewrite Hstep. exact Hsteps.
Qed.

(** Right after the callers have entered [ServeHTTP]. *)
Lemma Inv_start pool0 :
  idle σ0 -> ttl (limiter σ0) = d -> 0 < d ->
  (forall c, c ∈ callers ->
     readAddress (caller_r c) = inl address
     /\ getClientIPFromRequest (proxyCount (limiter σ0)) (caller_r c)
        = Some clientIP) ->
  spawn readAddress (limiter σ0) callers = Some pool0 ->
  Inv (replicate (length callers) at_Lock) pool0 σ0.
Proof.
  intros [Hskip Hfree] Hl Hd Hreq Hspawn.
  unfold spawn in Hspawn. rewrite Hl in Hspawn.
  apply mapM_Some in Hspawn.
  assert (Hph : forall i ph,
            replicate (length callers) at_Lock !! i = Some ph -> ph = at_Lock).
  { intros i ph H. apply lookup_replicate in H as [-> _]. reflexivity. }
  split.
  - apply length_replicate.
  - symmetry. eapply Forall2_length, Hspawn.
  - intros i c ph p Hc Hi Hp. rewrite (Hph _ _ Hi).
    pose proof (Forall2_lookup_lr _ _ _ _ _ _ Hspawn Hc Hp) as Hserve.
    destruct (Hreq c) as [Haddr Hip]; [eapply list_elem_of_lookup_2, Hc|].
    eapply ServeHTTP_at_Lock; eassumption.
  - exact Hskip.
  - lia.
  - intros i ph Hi. rewrite (Hph _ _ Hi). reflexivity.
  - intros i ph Hi. rewrite (Hph _ _ Hi). discriminate.
  - rewrite Hfree. discriminate.
  - intros i j phi phj Hi _. rewrite (Hph _ _ Hi). discriminate.
  - intros i j phi phj Hi _. rewrite (Hph _ _ Hi). discriminate.
  - intros i ph Hi. rewrite (Hph _ _ Hi). discriminate.
  - reflexivity.
  - intros i ph Hi. rewrite (Hph _ _ Hi). discriminate.
Qed.

(** C8, amended: callers that enter [ServeHTTP] at once with the same
    address key and the same identity key, under a positive ttl, with
    neither key in the store, all their probes falling within the window of
    the ttl and every downstream handler answering 200 (so that no entry
    expires or is rolled back meanwhile).  However their actions interleave:
    no two callers are between [Lock] and [Unlock] at a time; the callers
    can always be run on until all have returned; and once all have
    returned, exactly one has been admitted and every other one rejected. *)
Theorem C8_one_admission pool0 schedule pool' σ' :
  idle σ0 -> ttl (limiter σ0) = d -> 0 < d ->
  (forall c, c ∈ callers ->
     readAddress (caller_r c) = inl address
     /\ getClientIPFromRequest (proxyCount (limiter σ0)) (caller_r c)
        = Some clientIP) ->
  spawn readAddress (limiter σ0) callers = Some pool0 ->
  steps clock schedule (pool0, σ0) = Some (pool', σ') ->
  (forall i j p q,
     pool' !! i = Some p -> pool' !! j = Some q ->
     in_critical_section p = true -> in_critical_section q = true -> i = j)
  /\ (exists schedule' pool'' σ'',
        steps clock schedule' (pool', σ') = Some (pool'', σ'')
        /\ forall i p, pool'' !! i = Some p -> is_Some (returned p))
  /\ ((forall i p, pool' !! i = Some p -> is_Some (returned p)) ->
      callers <> [] ->
      exists i0,
        (i0 < length callers)%nat
        /\ length pool' = length callers
        /\ forall i p,
             pool' !! i = Some p ->
             returned p
             = Some (if decide (i = i0) then return_done else return_limited)
             /\ (decision <$> returned p)
                = Some (Some (if decide (i = i0) then admitted else rejected))).
Proof.
  intros Hidle Hl Hd Hreq Hspawn Hsteps.
  pose proof (Inv_start _ Hidle Hl Hd Hreq Hspawn) as HI0.
  destruct (steps_Inv _ _ _ _ _ _ HI0 Hsteps) as [phs HI].
  assert (Hlook : forall i p,
            pool' !! i = Some p ->
            exists c ph,
              callers !! i = Some c /\ phs !! i = Some ph
              /\ at_phase address clientIP d (caller_w c) (caller_r c)
                   (caller_next c) ph p).
  { intros i p Hp.
    assert (Hi : (i < length callers)%nat).
    { rewrite <- (inv_pool _ _ _ _ _ _ _ _ _ HI).
      eapply lookup_lt_Some, Hp. }
    destruct (lookup_lt_is_Some_2 callers i Hi) as [c Hc].
    destruct (lookup_lt_is_Some_2 phs i) as [ph Hph];
      [rewrite (inv_phases _ _ _ _ _ _ _ _ _ HI); exact Hi|].
    exists c, ph. split; [exact Hc|]. split; [exact Hph|].
    eapply (inv_at _ _ _ _ _ _ _ _ _ HI); eassumption. }
  split; [|split].
  - intros i j p q Hp Hq Hcp Hcq.
    destruct (Hlook i p Hp) as (ci & phi & _ & Hphi & Hati).
    destruct (Hlook j q Hq) as (cj & phj & _ & Hphj & Hatj).
    rewrite (at_phase_critical _ _ _ _ _ Hati) in Hcp.
    rewrite (at_phase_critical _ _ _ _ _ Hatj) in Hcq.
    eapply (inv_exclusion _ _ _ _ _ _ _ _ _ HI); eassumption.
  - eapply Inv_completion; [exact HI|reflexivity].
  - intros Hall Hne.
    assert (Hret : forall i p,
              pool' !! i = Some p ->
              exists ret w', phs !! i = Some (at_return ret w')
                             /\ returned p = Some ret
                             /\ (ret = return_done \/ ret = return_limited)).
    { intros i p Hp. destruct (Hlook i p Hp) as (c & ph & _ & Hph & Hat).
      destruct (Hall i p Hp) as [ret Hr].
      destruct (at_phase_returned _ _ _ _ _ _ Hat Hr) as [w' ->].
      exists ret, w'. split; [exact Hph|]. split; [exact Hr|].
      pose proof (inv_no_rollback _ _ _ _ _ _ _ _ _ HI i _ Hph) as Hnr.
      destruct ret; simpl in Hnr; try discriminate; tauto. }
    assert (Hdone : exists i0 w0, phs !! i0 = Some (at_return return_done w0)).
    { destruct callers as [|c0 rest] eqn:Hcs; [contradiction|].
      destruct (lookup_lt_is_Some_2 pool' 0) as [p0 Hp0];
        [rewrite (inv_pool _ _ _ _ _ _ _ _ _ HI); simpl; lia|].
      destruct (Hret 0%nat p0 Hp0) as (ret & w0 & Hph0 & _ & [-> | ->]);
        [eauto|].
      destruct (inv_limited _ _ _ _ _ _ _ _ _ HI 0%nat _ Hph0 eq_refl)
        as (j & phj & Hj & Hr).
      destruct (lookup_lt_is_Some_2 pool' j) as [pj Hpj].
      { rewrite (inv_pool _ _ _ _ _ _ _ _ _ HI),
          <- (inv_phases _ _ _ _ _ _ _ _ _ HI).
        eapply lookup_lt_Some, Hj. }
      destruct (Hret j pj Hpj) as (retj & wj & Hphj & _ & [-> | ->]);
        [eauto|].
      rewrite Hj in Hphj. injection Hphj as ->. discriminate. }
    destruct Hdone as (i0 & w0 & Hi0).
    exists i0. split.
    { rewrite <- (inv_phases _ _ _ _ _ _ _ _ _ HI).
      eapply lookup_lt_Some, Hi0. }
    split; [exact (inv_pool _ _ _ _ _ _ _ _ _ HI)|].
    intros i p Hp.
    destruct (Hret i p Hp) as (ret & w' & Hph & Hr & Hcase).
    rewrite Hr. simpl.
    destruct (decide (i = i0)) as [->|Hne0].
    + rewrite Hi0 in Hph. injection Hph as <- _. split; reflexivity.
    + destruct Hcase as [-> | ->]; [|split; reflexivity].
      exfalso. apply Hne0.
      eapply (inv_one_claim _ _ _ _ _ _ _ _ _ HI); eauto.
Qed.

End Concurrent.

(** * Concrete runs *)

Lemma clock_monotone n m : (n <= m)%nat -> Sample.clock n <= Sample.clock m.
Proof. unfold Sample.clock. lia. Qed.

(** C4: a caller admitted under a window of one minute asks again after
    four and after five tenths of a second.  Both calls are rejected, the
    remaining time is 59.8s and then 59.7s, and both answers report the same
    wait of one minute: the reported value has not decreased. *)
Lemma C4_counterexample_same_wait :
  fst <$> serve_all Sample.readAddress Sample.clock Sample.minute
            [(Sample.fresh, Sample.alice, Sample.succeed);
             (Sample.fresh, Sample.alice, Sample.succeed);
             (Sample.fresh, Sample.alice, Sample.succeed)]
  = Some [(return_done, Sample.succeed Sample.fresh Sample.alice);
          (return_limited, rejection Sample.fresh 59800000000);
          (return_limited, rejection Sample.fresh 59700000000)]
  /\ time.Round 59800000000 time.Second = 60000000000
  /\ time.Round 59700000000 time.Second = 60000000000
  /\ ~ (time.Round 59700000000 time.Second
        < time.Round 59800000000 time.Second)
  /\ rejection Sample.fresh 59700000000 = rejection Sample.fresh 59800000000.
Proof.
  split; [vm_compute; reflexivity|].
  split; [reflexivity|]. split; [reflexivity|].
  split; [vm_compute; discriminate|reflexivity].
Qed.

Lemma after_alice_idle : idle Sample.after_alice.
Proof. split; vm_compute; reflexivity. Defined.

Lemma after_alice_sound : sound Sample.after_alice.
Proof.
  split; [exact after_alice_idle|]. vm_compute. intros H. exfalso.
  apply H. reflexivity.
Defined.


(** C2 at work: bob is admitted, the handler fails, and bob's keys are gone
    from the store. *)
Lemma C2_witness :
  (sound Sample.after_alice
   /\ Sample.readAddress Sample.bob = inl "0xB0B"
   /\ getClientIPFromRequest (proxyCount (limiter Sample.after_alice))
        Sample.bob = Some "198.51.100.9")
  /\ exists σ',
       serve Sample.readAddress Sample.clock Sample.after_alice Sample.fresh
         Sample.bob Sample.fail
       = Some (return_removed, Sample.fail Sample.fresh Sample.bob, σ')
       /\ ttlcache.items (cache (limiter σ')) !! "0xB0B" = None
       /\ ttlcache.items (cache (limiter σ')) !! "198.51.100.9" = None.
Proof.
  assert (H1 : sound Sample.after_alice) by exact after_alice_sound.
  assert (H2 : Sample.readAddress Sample.bob = inl "0xB0B") by reflexivity.
  assert (H3 : getClientIPFromRequest
                 (proxyCount (limiter Sample.after_alice)) Sample.bob
               = Some "198.51.100.9") by (vm_compute; reflexivity).
  split; [exact (conj H1 (conj H2 H3))|].
  destruct (serve Sample.readAddress Sample.clock Sample.after_alice
              Sample.fresh Sample.bob Sample.fail)
    as [[[ret w'] σ']|] eqn:Hserve;
    [|vm_compute in Hserve; discriminate].
  assert (Hret : ret = return_removed
                 /\ w' = Sample.fail Sample.fresh Sample.bob).
  { vm_compute in Hserve. injection Hserve as <- <- _. split; reflexivity. }
  destruct Hret as [-> ->].
  destruct (C2_rollback_on_failure Sample.readAddress Sample.clock
              Sample.after_alice Sample.fresh Sample.bob Sample.fail
              "0xB0B" "198.51.100.9" return_removed _ σ'
              H1 H2 H3 Hserve eq_refl) as (_ & Hgone & _).
  destruct Hgone as (Ha & Hi & _); [vm_compute; discriminate|].
  exists σ'. exact (conj eq_refl (conj Ha Hi)).
Defined.

(** C4 at work: alice's entry is live, her next call is rejected and the
    entry is still the same afterwards. *)
Lemma C4_witness :
  exists it,
    (idle Sample.after_alice
     /\ 0 < ttl (limiter Sample.after_alice)
     /\ ttlcache.items (cache (limiter Sample.after_alice)) !! "0xA11CE"
        = Some it
     /\ Sample.clock (S (ticks Sample.after_alice)) <= ttlcache.expireAt it)
    /\ exists ret w' σ',
         serve Sample.readAddress Sample.clock Sample.after_alice Sample.fresh
           Sample.alice Sample.succeed
         = Some (ret, w', σ')
         /\ ttlcache.items (cache (limiter σ')) !! "0xA11CE" = Some it.
Proof.
  destruct (ttlcache.items (cache (limiter Sample.after_alice)) !! "0xA11CE")
    as [it|] eqn:Hit; [|vm_compute in Hit; discriminate].
  assert (Hexp : ttlcache.expireAt it = 60200000000).
  { vm_compute in Hit. injection Hit as <-. reflexivity. }
  assert (H1 : idle Sample.after_alice) by exact after_alice_idle.
  assert (H2 : 0 < ttl (limiter Sample.after_alice))
    by (vm_compute; reflexivity).
  assert (H4 : Sample.clock (S (ticks Sample.after_alice))
               <= ttlcache.expireAt it)
    by (rewrite Hexp; vm_compute; discriminate).
  exists it. split; [exact (conj H1 (conj H2 (conj eq_refl H4)))|].
  destruct (C4_live_entry_rejects Sample.readAddress Sample.clock
              clock_monotone Sample.after_alice Sample.fresh Sample.alice
              Sample.succeed "0xA11CE" it H1 H2 Hit H4)
    as (ret & w' & σ' & Hserve & Hkept & _).
  exists ret, w', σ'. exact (conj Hserve Hkept).
Defined.

(** C6 at work: with a ttl of zero alice is handed on at once. *)
Lemma C6_witness :
  (Sample.readAddress Sample.alice = inl "0xA11CE"
   /\ ttl (limiter Sample.disabled) <= 0)
  /\ exists σ',
       serve Sample.readAddress Sample.clock Sample.disabled Sample.fresh
         Sample.alice Sample.succeed
       = Some (return_disabled, Sample.succeed Sample.fresh Sample.alice, σ')
       /\ decision return_disabled = Some admitted
       /\ limiter σ' = limiter Sample.disabled
       /\ ticks σ' = ticks Sample.disabled
       /\ trace σ'
          = trace Sample.disabled
            ++ [Next Sample.succeed Sample.fresh Sample.alice].
Proof.
  assert (H1 : Sample.readAddress Sample.alice = inl "0xA11CE")
    by reflexivity.
  assert (H2 : ttl (limiter Sample.disabled) <= 0)
    by (vm_compute; discriminate).
  split; [exact (conj H1 H2)|].
  exact (C6_disabled_admits Sample.readAddress Sample.clock Sample.disabled
           Sample.fresh Sample.alice Sample.succeed "0xA11CE" H1 H2).
Defined.

(** C9 at work: a request with an empty body is answered with the status
    and message of the malformed-request error. *)
Lemma C9_witness :
  Sample.readAddress (Sample.request EmptyString "192.0.2.7:51234" EmptyString)
  = inr (error_malformedRequest
           {| status := 400; message := "Request body must not be empty" |})
  /\ exists w',
       serve Sample.readAddress Sample.clock Sample.minute Sample.fresh
         (Sample.request EmptyString "192.0.2.7:51234" EmptyString)
         Sample.succeed
       = Some (return_error, w', Sample.minute)
       /\ decision return_error = None
       /\ w' = renderJSON Sample.fresh
                 {| Message := "Request body must not be empty" |} 400.
Proof.
  assert (H1 : Sample.readAddress
                 (Sample.request EmptyString "192.0.2.7:51234" EmptyString)
               = inr (error_malformedRequest
                        {| status := 400;
                           message := "Request body must not be empty" |}))
    by reflexivity.
  split; [exact H1|].
  exact (C9_unreadable_address Sample.readAddress Sample.clock Sample.minute
           Sample.fresh _ Sample.succeed _ H1).
Defined.

(** C10 at work: the rejection of alice's second call leaves the limiter as
    it was. *)
Lemma C10_witness :
  exists σ',
    (idle Sample.after_alice
     /\ serve Sample.readAddress Sample.clock Sample.after_alice Sample.fresh
          Sample.alice Sample.succeed
        = Some (return_limited, rejection Sample.fresh 59800000000, σ'))
    /\ limiter σ' = limiter Sample.after_alice.
Proof.
  destruct (serve Sample.readAddress Sample.clock Sample.after_alice
              Sample.fresh Sample.alice Sample.succeed)
    as [[[ret w'] σ']|] eqn:Hserve;
    [|vm_compute in Hserve; discriminate].
  assert (Hret : ret = return_limited
                 /\ w' = rejection Sample.fresh 59800000000).
  { vm_compute in Hserve. injection Hserve as <- <- _. split; reflexivity. }
  destruct Hret as [-> ->].
  exists σ'. split; [split; [exact after_alice_idle|reflexivity]|].
  exact (proj1 (C10_rejection_leaves_store Sample.readAddress Sample.clock
                  Sample.after_alice Sample.fresh Sample.alice Sample.succeed
                  _ σ' after_alice_idle Hserve)).
Defined.

(** C3: alice asks again with 59.8s left.  The remaining time rounds to 60
    seconds, and the message says [1m0s], not [60s]. *)
Lemma C3_counterexample_one_minute :
  fst <$> serve Sample.readAddress Sample.clock Sample.after_alice
            Sample.fresh Sample.alice Sample.succeed
  = Some (return_limited,
          renderJSON Sample.fresh
            {| Message := "You have exceeded the rate limit. Please wait 1m0s before you try again" |}
            429)
  /\ probe (cache (limiter Sample.after_alice))
       (Sample.clock (ticks Sample.after_alice)) "0xA11CE"
     = Some 59800000000
  /\ time.Round 59800000000 time.Second = 60 * time.Second
  /\ "You have exceeded the rate limit. Please wait 1m0s before you try again"
     <> "You have exceeded the rate limit. Please wait 60s before you try again".
Proof.
  split; [vm_compute; reflexivity|]. split; [vm_compute; reflexivity|].
  split; [reflexivity|]. discriminate.
Qed.

(** C3 at work: the rejection of alice's second call. *)
Lemma C3_witness :
  exists σ',
    (idle Sample.after_alice
     /\ serve Sample.readAddress Sample.clock Sample.after_alice Sample.fresh
          Sample.alice Sample.succeed
        = Some (return_limited, rejection Sample.fresh 59800000000, σ'))
    /\ exists key rem text,
         (probe (cache (limiter Sample.after_alice))
            (Sample.clock (ticks Sample.after_alice)) key = Some rem
          \/ probe (cache (limiter Sample.after_alice))
               (Sample.clock (S (ticks Sample.after_alice))) key = Some rem)
         /\ 0 <= rem
         /\ Status (rejection Sample.fresh 59800000000) = 429
         /\ Written (rejection Sample.fresh 59800000000)
            = Written Sample.fresh +:+ "{" +:+ dquote +:+ "message" +:+ dquote
                +:+ ": " +:+ dquote +:+ text +:+ dquote +:+ "}"
         /\ text
            = "You have exceeded the rate limit. Please wait "
                +:+ time.String (time.Round rem time.Second)
                +:+ " before you try again".
Proof.
  destruct (serve Sample.readAddress Sample.clock Sample.after_alice
              Sample.fresh Sample.alice Sample.succeed)
    as [[[ret w'] σ']|] eqn:Hserve;
    [|vm_compute in Hserve; discriminate].
  assert (Hret : ret = return_limited
                 /\ w' = rejection Sample.fresh 59800000000).
  { vm_compute in Hserve. injection Hserve as <- <- _. split; reflexivity. }
  destruct Hret as [-> ->].
  exists σ'. split; [exact (conj after_alice_idle eq_refl)|].
  destruct (C3_rejection_message Sample.readAddress Sample.clock
              Sample.after_alice Sample.fresh Sample.alice Sample.succeed
              _ σ' after_alice_idle Hserve)
    as (key & rem & text & H1 & H2 & H3 & H4 & H5 & _).
  exists key, rem, text. exact (conj H1 (conj H2 (conj H3 (conj H4 H5)))).
Defined.

(** C5 at work: two trusted proxies, three addresses in the header. *)
Lemma C5_witness :
  (0 < 2
   /\ Header_Get (Header Sample.proxied) "X-Forwarded-For"
      = "1.2.3.4, 10.0.0.1, 10.0.0.2"
   /\ "1.2.3.4, 10.0.0.1, 10.0.0.2" <> EmptyString)
  /\ getClientIPFromRequest 2 Sample.proxied = Some "10.0.0.1".
Proof.
  assert (H1 : 0 < 2) by lia.
  assert (H2 : Header_Get (Header Sample.proxied) "X-Forwarded-For"
               = "1.2.3.4, 10.0.0.1, 10.0.0.2") by (vm_compute; reflexivity).
  assert (H3 : "1.2.3.4, 10.0.0.1, 10.0.0.2" <> EmptyString) by discriminate.
  split; [exact (conj H1 (conj H2 H3))|].
  destruct (C5_forwarded_for_token 2 Sample.proxied
              "1.2.3.4, 10.0.0.1, 10.0.0.2" H1 H2 H3)
    as (_ & _ & _ & _ & Hex & _).
  exact (Hex eq_refl eq_refl).
Defined.

(** C8: two calls of alice at once, with neither key in the store and a
    positive ttl.  When the handler answers 500, the first call removes its
    entries while the second holds the mutex, and the second, which then
    finds both keys absent, is admitted too.  When the ttl is a tenth of a
    second and the clock advances by as much from one reading to the next,
    the entries of the first call have expired by the time the second
    probes, and the second is admitted while the first is still with its
    handler. *)
Lemma C8_counterexample_two_admitted :
  (0 < ttl (limiter Sample.minute)
   /\ spawn Sample.readAddress (limiter Sample.minute)
        (Sample.twice Sample.fail)
      = Some (Sample.racers Sample.fail Sample.minute)
   /\ Sample.returns
        (steps Sample.clock Sample.rolled_back
           (Sample.racers Sample.fail Sample.minute, Sample.minute))
      = Some [Some return_removed; Some return_removed]
   /\ decision return_removed = Some admitted)
  /\ (0 < ttl (limiter Sample.short)
      /\ spawn Sample.readAddress (limiter Sample.short)
           (Sample.twice Sample.succeed)
         = Some (Sample.racers Sample.succeed Sample.short)
      /\ Sample.returns
           (steps Sample.clock Sample.overtaken
              (Sample.racers Sample.succeed Sample.short, Sample.short))
         = Some [Some return_done; Some return_done]
      /\ decision return_done = Some admitted).
Proof.
  split; (split; [reflexivity|]); (split; [reflexivity|]);
    (split; [vm_compute; reflexivity|reflexivity]).
Qed.

Lemma bounded_clock_monotone i j :
  (i <= j)%nat -> Sample.bounded_clock i <= Sample.bounded_clock j.
Proof. unfold Sample.bounded_clock. lia. Defined.

Lemma bounded_clock_window n :
  Sample.bounded_clock n
  <= Sample.bounded_clock (ticks Sample.minute) + 60000000000.
Proof. unfold Sample.bounded_clock. simpl. lia. Defined.

Lemma minute_absent n key :
  (ticks Sample.minute <= n)%nat -> key = "0xA11CE" \/ key = "192.0.2.7" ->
  probe (cache (limiter Sample.minute)) (Sample.bounded_clock n) key = None.
Proof.
  intros _ _. unfold probe, ttlcache.GetWithTTL. simpl.
  rewrite lookup_empty. reflexivity.
Defined.

Lemma twice_succeed c :
  c ∈ Sample.twice Sample.succeed ->
  Status (caller_next c (caller_w c) (caller_r c)) = http.StatusOK
  /\ Sample.readAddress (caller_r c) = inl "0xA11CE"
  /\ getClientIPFromRequest 0 (caller_r c) = Some "192.0.2.7".
Proof.
  unfold Sample.twice. intros Hc.
  apply elem_of_cons in Hc as [->|Hc];
    [|apply elem_of_cons in Hc as [->|Hc];
      [|apply elem_of_nil in Hc; contradiction]];
    (split; [reflexivity|split; [reflexivity|vm_compute; reflexivity]]).
Defined.

(** C8 at work: the second call of alice locks while the first is being
    served, and is rejected; the first is admitted. *)
Lemma C8_witness :
  (idle Sample.minute
   /\ ttl (limiter Sample.minute) = 60000000000
   /\ 0 < 60000000000
   /\ spawn Sample.readAddress (limiter Sample.minute) (Sample.twice Sample.succeed)
      = Some (Sample.racers Sample.succeed Sample.minute)
   /\ steps Sample.bounded_clock Sample.interleaved
        (Sample.racers Sample.succeed Sample.minute, Sample.minute)
      = Some Sample.race_end
   /\ returned <$> fst Sample.race_end
      = [Some return_done; Some return_limited])
  /\ exists i0,
       (i0 < 2)%nat
       /\ forall i p,
            fst Sample.race_end !! i = Some p ->
            returned p
            = Some (if decide (i = i0) then return_done else return_limited).
Proof.
  assert (H1 : idle Sample.minute) by (split; reflexivity).
  assert (H2 : 0 < 60000000000) by lia.
  assert (Hl : ttl (limiter Sample.minute) = 60000000000) by reflexivity.
  assert (H3 : spawn Sample.readAddress (limiter Sample.minute)
                 (Sample.twice Sample.succeed)
               = Some (Sample.racers Sample.succeed Sample.minute))
    by reflexivity.
  assert (H4 : steps Sample.bounded_clock Sample.interleaved
                 (Sample.racers Sample.succeed Sample.minute, Sample.minute)
               = Some Sample.race_end) by reflexivity.
  assert (H5 : returned <$> fst Sample.race_end
               = [Some return_done; Some return_limited])
    by (vm_compute; reflexivity).
  split; [exact (conj H1 (conj Hl (conj H2 (conj H3 (conj H4 H5)))))|].
  destruct (C8_one_admission Sample.readAddress Sample.bounded_clock
              "0xA11CE" "192.0.2.7" 60000000000 Sample.minute
              (Sample.twice Sample.succeed)
              bounded_clock_monotone bounded_clock_window minute_absent
              (fun c Hc => proj1 (twice_succeed c Hc))
              _ Sample.interleaved (fst Sample.race_end)
              (snd Sample.race_end) H1 Hl H2
              (fun c Hc => proj2 (twice_succeed c Hc)) H3 H4)
    as (_ & _ & Hone).
  destruct Hone as (i0 & Hi0 & _ & Hall).
  - intros i p Hp.
    assert (Hi : (returned <$> fst Sample.race_end) !! i = Some (returned p))
      by (rewrite list_lookup_fmap, Hp; reflexivity).
    rewrite H5 in Hi.
    destruct i as [|[|i]]; simpl in Hi; [| |discriminate];
      injection Hi as <-; eauto.
  - discriminate.
  - exists i0. split; [exact Hi0|].
    intros i p Hp. exact (proj1 (Hall i p Hp)).
Defined.

(** * Runs of calls: what they leave alone, and the window *)

Section Runs.

Context (readAddress : Request -> string + error) (clock : nat -> Z).

Local Abbreviation serve := (serve readAddress clock).
Local Abbreviation serve_all := (serve_all readAddress clock).

Lemma keys_readable proxyCount r address clientIP :
  readAddress r = inl address ->
  getClientIPFromRequest proxyCount r = Some clientIP ->
  keys readAddress proxyCount r = [address; clientIP].
Proof. intros Haddr Hip. unfold keys. rewrite Haddr, Hip. reflexivity. Qed.

Lemma not_in_pair (key a b : string) : key ∉ [a; b] -> key <> a /\ key <> b.
Proof.
  intros Hnot. split; intros ->; apply Hnot.
  - apply list_elem_of_here.
  - apply list_elem_of_further, list_elem_of_here.
Qed.

(** A call leaves the configuration of the limiter as it is, reads the clock
    at most four times, and changes no entry under another key than the two
    of its request. *)
Lemma serve_frame σ w r next ret w' σ' :
  idle σ ->
  serve σ w r next = Some (ret, w', σ') ->
  proxyCount (limiter σ') = proxyCount (limiter σ)
  /\ ttl (limiter σ') = ttl (limiter σ)
  /\ (ticks σ <= ticks σ' <= ticks σ + 4)%nat
  /\ forall key,
       key ∉ keys readAddress (proxyCount (limiter σ)) r ->
       ttlcache.items (cache (limiter σ')) !! key
       = ttlcache.items (cache (limiter σ)) !! key.
Proof.
  intros Hidle Hserve.
  destruct (serve_cases readAddress σ r)
    as [(err & Herr)|[(address & Haddr & Httl)
                     |(address & clientIP & Haddr & Httl & Hip)]].
  - rewrite (serve_error readAddress clock _ _ _ _ _ Herr) in Hserve.
    injection Hserve as <- <- <-. repeat split; lia.
  - rewrite (serve_disabled readAddress clock _ _ _ _ _ Haddr Httl) in Hserve.
    injection Hserve as <- <- <-. simpl. repeat split; lia.
  - rewrite (keys_readable _ _ _ _ Haddr Hip).
    rewrite (serve_positive readAddress clock _ _ _ _ _ _ Hidle Haddr Httl Hip)
      in Hserve.
    serve_paths Hserve; injection Hserve as <- <- <-; simpl;
      (split; [reflexivity|]); (split; [reflexivity|]); (split; [lia|]);
      intros key Hkey; apply not_in_pair in Hkey as [Ha Hc];
      rewrite ?lookup_delete_ne, ?lookup_insert_ne by congruence;
      reflexivity.
Qed.

(** The same of a run of calls. *)
Lemma serve_all_frame calls σ results σ' :
  idle σ ->
  serve_all σ calls = Some (results, σ') ->
  length results = length calls
  /\ idle σ'
  /\ proxyCount (limiter σ') = proxyCount (limiter σ)
  /\ ttl (limiter σ') = ttl (limiter σ)
  /\ (ticks σ <= ticks σ' <= ticks σ + 4 * length calls)%nat
  /\ forall key,
       (forall w r next,
          (w, r, next) ∈ calls ->
          key ∉ keys readAddress (proxyCount (limiter σ)) r) ->
       ttlcache.items (cache (limiter σ')) !! key
       = ttlcache.items (cache (limiter σ)) !! key.
Proof.
  revert σ results. induction calls as [|[[w r] next] calls IH];
    intros σ results Hidle Hrun; simpl in Hrun.
  - injection Hrun as <- <-. simpl. repeat split; try apply Hidle; lia.
  - destruct (serve σ w r next) as [[[ret w'] σ1]|] eqn:Hserve;
      [|discriminate].
    destruct (serve_all σ1 calls) as [[results1 σ2]|] eqn:Hrest;
      [|discriminate].
    injection Hrun as <- <-.
    pose proof (serve_idle readAddress clock _ _ _ _ _ _ _ Hidle Hserve)
      as Hidle1.
    destruct (serve_frame _ _ _ _ _ _ _ Hidle Hserve)
      as (Hpc & Httl & Hticks & Hframe).
    destruct (IH _ _ Hidle1 Hrest)
      as (Hlen & Hidle2 & Hpc2 & Httl2 & Hticks2 & Hframe2).
    simpl. split; [lia|]. split; [exact Hidle2|].
    split; [congruence|]. split; [congruence|]. split; [lia|].
    intros key Hkey. rewrite Hframe2.
    + apply Hframe. eapply Hkey, list_elem_of_here.
    + intros w0 r0 next0 Hin. rewrite Hpc.
      eapply Hkey, list_elem_of_further, Hin.
Qed.

(** X1: a run of calls on an idle limiter gives one result per call, leaves
    the limiter idle and its configuration as it is, reads the clock at most
    four times per call, and changes no entry of the store under a key that
    is neither the address key nor the identity key of one of its requests:
    a probe of such a key finds, at any instant, what it would have found
    without the run. *)
Theorem X1_run_touches_own_keys calls σ results σ' :
  idle σ ->
  serve_all σ calls = Some (results, σ') ->
  length results = length calls
  /\ idle σ'
  /\ proxyCount (limiter σ') = proxyCount (limiter σ)
  /\ ttl (limiter σ') = ttl (limiter σ)
  /\ (ticks σ <= ticks σ' <= ticks σ + 4 * length calls)%nat
  /\ forall key,
       (forall w r next,
          (w, r, next) ∈ calls ->
          key ∉ keys readAddress (proxyCount (limiter σ)) r) ->
       ttlcache.items (cache (limiter σ')) !! key
       = ttlcache.items (cache (limiter σ)) !! key
       /\ forall now,
            probe (cache (limiter σ')) now key
            = probe (cache (limiter σ)) now key.
Proof.
  intros Hidle Hrun.
  destruct (serve_all_frame _ _ _ _ Hidle Hrun)
    as (Hlen & Hidle' & Hpc & Httl & Hticks & Hframe).
  repeat (split; [assumption|]).
  intros key Hkey. specialize (Hframe key Hkey).
  split; [exact Hframe|]. intros now.
  rewrite !probe_lookup by (apply Hidle || apply Hidle').
  rewrite Hframe. reflexivity.
Qed.

(** What an absent key and a lapsed entry have in common: a probe finds
    nothing. *)
Lemma probe_lapsed c now key :
  ttlcache.skipTTLExtension c = true ->
  match ttlcache.items c !! key with
  | Some it => ttlcache.expireAt it < now
  | None => True
  end ->
  probe c now key = None.
Proof.
  intros Hskip Hlapsed. rewrite probe_lookup by assumption.
  destruct (ttlcache.items c !! key) as [it|]; [|reflexivity].
  destruct (Z.ltb_spec (ttlcache.expireAt it) now); [reflexivity|lia].
Qed.

(** A call that finds neither of its keys is not rejected. *)
Lemma serve_unlimited σ w r next :
  idle σ ->
  (forall key,
     key ∈ keys readAddress (proxyCount (limiter σ)) r ->
     forall n, (ticks σ <= n)%nat ->
     probe (cache (limiter σ)) (clock n) key = None) ->
  exists ret w' σ',
    serve σ w r next = Some (ret, w', σ')
    /\ decision ret <> Some rejected.
Proof.
  intros Hidle Habsent.
  destruct (serve_cases readAddress σ r)
    as [(err & Herr)|[(address & Haddr & Httl)
                     |(address & clientIP & Haddr & Httl & Hip)]].
  - rewrite (serve_error readAddress clock _ _ _ _ _ Herr).
    do 3 eexists. split; [reflexivity|discriminate].
  - rewrite (serve_disabled readAddress clock _ _ _ _ _ Haddr Httl).
    do 3 eexists. split; [reflexivity|discriminate].
  - rewrite (keys_readable _ _ _ _ Haddr Hip) in Habsent.
    rewrite (serve_positive readAddress clock _ _ _ _ _ _ Hidle Haddr Httl Hip).
    cbv zeta.
    rewrite (Habsent address) by (try apply list_elem_of_here; lia).
    rewrite (Habsent clientIP)
      by (try apply list_elem_of_further, list_elem_of_here; lia).
    destruct (negb _); do 3 eexists; (split; [reflexivity|discriminate]).
Qed.

(** X2: in a run of calls on an idle limiter whose requests use keys that
    are not in the store and none of which is a key of another request of
    the run, no call is rejected: every call whose address can be read is
    admitted, whatever the downstream handlers answer. *)
Theorem X2_identities_apart_all_admitted calls σ :
  idle σ ->
  apart readAddress (proxyCount (limiter σ)) calls ->
  (forall w r next key,
     (w, r, next) ∈ calls ->
     key ∈ keys readAddress (proxyCount (limiter σ)) r ->
     ttlcache.items (cache (limiter σ)) !! key = None) ->
  exists results σ',
    serve_all σ calls = Some (results, σ')
    /\ length results = length calls
    /\ Forall (fun res => decision res.1 <> Some rejected) results
    /\ Forall2 (fun call res =>
                  is_Some (decision res.1) <->
                  exists address, readAddress call.1.2 = inl address)
         calls results.
Proof.
  revert σ. induction calls as [|[[w r] next] calls IH];
    intros σ Hidle Hapart Habsent; simpl.
  - exists [], σ. repeat split; constructor.
  - destruct Hapart as [Hhead Hapart].
    destruct (serve_unlimited σ w r next Hidle)
      as (ret & w' & σ1 & Hserve & Hret).
    { intros key Hkey n _. apply probe_lapsed; [apply Hidle|].
      rewrite (Habsent w r next key); [exact I|apply list_elem_of_here|exact Hkey]. }
    rewrite Hserve.
    pose proof (serve_idle readAddress clock _ _ _ _ _ _ _ Hidle Hserve)
      as Hidle1.
    destruct (serve_frame _ _ _ _ _ _ _ Hidle Hserve)
      as (Hpc & _ & _ & Hframe).
    destruct (IH σ1 Hidle1) as (results & σ2 & Hrest & Hlen & Hall & Hboth).
    { rewrite Hpc. exact Hapart. }
    { intros w0 r0 next0 key Hin Hkey. rewrite Hpc in Hkey.
      rewrite Hframe.
      - eapply Habsent; [apply list_elem_of_further, Hin|exact Hkey].
      - intros Hmine. exact (Hhead w0 r0 next0 key Hin Hmine Hkey). }
    rewrite Hrest. exists ((ret, w') :: results), σ2.
    split; [reflexivity|]. split; [simpl; lia|].
    split; [constructor; assumption|].
    constructor; [|exact Hboth]. simpl.
    destruct (serve_cases readAddress σ r)
      as [(err & Herr)|[(address & Haddr & Httl)
                       |(address & clientIP & Haddr & Httl & Hip)]].
    + rewrite (serve_error readAddress clock _ _ _ _ _ Herr) in Hserve.
      injection Hserve as <- _ _. simpl. split.
      * intros [? [=]].
      * intros [address Haddr]. congruence.
    + split; [eauto|]. intros _.
      destruct ret; simpl in *; try eauto; try congruence.
      rewrite (serve_disabled readAddress clock _ _ _ _ _ Haddr Httl) in Hserve.
      discriminate.
    + split; [eauto|]. intros _.
      destruct ret; simpl in *; try eauto; try congruence.
      rewrite (serve_positive readAddress clock _ _ _ _ _ _ Hidle Haddr Httl Hip)
        in Hserve.
      serve_paths Hserve; discriminate.
Qed.

End Runs.

Section Windows.

Context (readAddress : Request -> string + error) (clock : nat -> Z).
Hypothesis clock_monotone : forall i j, (i <= j)%nat -> clock i <= clock j.

Local Abbreviation serve := (serve readAddress clock).
Local Abbreviation serve_all := (serve_all readAddress clock).

(** X3: an identity that has been admitted and served with status 200 is
    admitted again once the window has gone by: whatever calls of other
    identities came in between, a call for the same request that starts
    later than the configured ttl after the identity key was set is handed
    to the downstream handler, and the response is the one the handler
    makes. *)
Theorem X3_admitted_again_after_window σ w r next w1 σ1 others results σ2
    w2 next2 :
  idle σ ->
  serve σ w r next = Some (return_done, w1, σ1) ->
  serve_all σ1 others = Some (results, σ2) ->
  (forall w' r' next' key,
     (w', r', next') ∈ others ->
     key ∈ keys readAddress (proxyCount (limiter σ)) r ->
     key ∉ keys readAddress (proxyCount (limiter σ)) r') ->
  clock (ticks σ + 3) + ttl (limiter σ) < clock (ticks σ2) ->
  exists ret σ3,
    serve σ2 w2 r next2 = Some (ret, next2 w2 r, σ3)
    /\ decision ret = Some admitted.
Proof.
  intros Hidle Hserve Hrun Hothers Hlate.
  destruct (serve_cases readAddress σ r)
    as [(err & Herr)|[(address & Haddr & Httl)
                     |(address & clientIP & Haddr & Httl & Hip)]].
  { rewrite (serve_error readAddress clock _ _ _ _ _ Herr) in Hserve.
    discriminate. }
  { rewrite (serve_disabled readAddress clock _ _ _ _ _ Haddr Httl) in Hserve.
    discriminate. }
  pose proof (serve_idle readAddress clock _ _ _ _ _ _ _ Hidle Hserve)
    as Hidle1.
  destruct (serve_frame readAddress clock _ _ _ _ _ _ _ Hidle Hserve)
    as (Hpc1 & Httl1 & Hticks1 & _).
  destruct (serve_all_frame readAddress clock _ _ _ _ Hidle1 Hrun)
    as (_ & Hidle2 & Hpc2 & Httl2 & Hticks2 & Hframe).
  rewrite (keys_readable readAddress _ _ _ _ Haddr Hip) in Hothers.
  (* the entries the first call has left *)
  assert (Hleft : forall key,
            key = address \/ key = clientIP ->
            exists it,
              ttlcache.items (cache (limiter σ1)) !! key = Some it
              /\ ttlcache.expireAt it
                 <= clock (ticks σ + 3) + ttl (limiter σ)).
  { rewrite (serve_positive readAddress clock _ _ _ _ _ _ Hidle Haddr Httl Hip)
      in Hserve.
    assert (H23 : clock (S (S (ticks σ))) <= clock (ticks σ + 3))
      by (apply clock_monotone; lia).
    assert (H33 : clock (S (S (S (ticks σ)))) <= clock (ticks σ + 3))
      by (apply clock_monotone; lia).
    serve_paths Hserve; try discriminate.
    injection Hserve as _ <-. simpl. intros key Hkey.
    destruct (decide (key = clientIP)) as [->|Hne].
    - eexists. split; [apply lookup_insert_eq|]. simpl. lia.
    - destruct Hkey as [-> | ->]; [|congruence].
      eexists. split.
      + rewrite lookup_insert_ne by congruence. apply lookup_insert_eq.
      + simpl. lia. }
  assert (Hgone : forall key n,
            key = address \/ key = clientIP -> (ticks σ2 <= n)%nat ->
            probe (cache (limiter σ2)) (clock n) key = None).
  { intros key n Hkey Hn. apply probe_lapsed; [apply Hidle2|].
    rewrite Hframe.
    - destruct (Hleft key Hkey) as (it & -> & Hexp).
      pose proof (clock_monotone _ _ Hn). lia.
    - intros w' r' next' Hin. rewrite Hpc1.
      eapply Hothers; [exact Hin|].
      destruct Hkey as [-> | ->];
        [apply list_elem_of_here
        |apply list_elem_of_further, list_elem_of_here]. }
  assert (Hip2 : getClientIPFromRequest (proxyCount (limiter σ2)) r
                 = Some clientIP) by (rewrite Hpc2, Hpc1; exact Hip).
  rewrite (serve_positive readAddress clock _ _ _ _ _ _ Hidle2 Haddr
             ltac:(lia) Hip2).
  cbv zeta. rewrite !Hgone by (auto; lia).
  destruct (negb _); do 2 eexists; (split; reflexivity).
Qed.



End Windows.

(** * The mutex: any callers served at once *)

Section Mutex.

Context (readAddress : Request -> string + error).

Lemma disciplined_critical {A} n held (p : Prog A) :
  disciplined n held p ->
  match p with
  | Do act _ => under_mutex act
  | Ret _ => false
  end = held.
Proof.
  destruct p as [a|act k]; simpl; [intros ->; reflexivity|].
  destruct n; [contradiction|]. tauto.
Qed.

Lemma in_critical_section_under_mutex (p : Prog (Return * ResponseWriter)) :
  in_critical_section p
  = match p with
    | Do act _ => under_mutex act
    | Ret _ => false
    end.
Proof. destruct p as [a|[]]; reflexivity. Qed.

Lemma disciplined_weaken {A} n m held (p : Prog A) :
  (n <= m)%nat -> disciplined n held p -> disciplined m held p.
Proof.
  revert m held p. induction n as [|n IH]; intros m held [a|act k] Hnm;
    simpl; try tauto.
  destruct m as [|m]; [lia|]. intros [Hact Hk].
  split; [exact Hact|]. intros x. apply IH; [lia|apply Hk].
Qed.

(** Every program of [ServeHTTP] keeps the discipline of the mutex. *)
Lemma ServeHTTP_disciplined proxyCount ttl w r next p :
  ServeHTTP readAddress proxyCount ttl w r next = Some p ->
  disciplined 9 false p.
Proof.
  unfold ServeHTTP.
  destruct (readAddress r) as [address|err].
  - destruct (ttl <=? 0).
    + intros [= <-]. simpl. split; [reflexivity|]. intros _. reflexivity.
    + destruct (getClientIPFromRequest proxyCount r) as [clientIP|];
        [|discriminate].
      intros [= <-]. simpl. split; [reflexivity|]. intros _.
      split; [reflexivity|]. intros [[v rem]|]; simpl.
      { split; [reflexivity|]. intros _. reflexivity. }
      split; [reflexivity|]. intros [[v rem]|]; simpl.
      { split; [reflexivity|]. intros _. reflexivity. }
      do 4 (split; [reflexivity|]; intros ?). simpl.
      destruct (negb _); simpl.
      * do 2 (split; [reflexivity|]; intros _). reflexivity.
      * split; [reflexivity|]. intros _. reflexivity.
  - destruct (errors_As err); intros [= <-]; reflexivity.
Qed.

(** What an action that is done makes of the mutex. *)
Lemma perform_mutex clock act σ x σ' :
  perform clock act σ = Some (x, σ') ->
  mutex (limiter σ') = holds_after act (mutex (limiter σ))
  /\ (act = Lock -> mutex (limiter σ) = false)
  /\ (act = Unlock -> mutex (limiter σ) = true).
Proof.
  destruct act; simpl;
    repeat match goal with
           | |- context [if ?b then _ else _] => destruct b
           | |- context [let '(_, _) := ?e in _] => destruct e
           end;
    try discriminate; intros [= _ <-];
    (split; [reflexivity|]);
    split; intros H; first [discriminate H | reflexivity].
Qed.

(** An action can be done unless it is a [Lock] on the locked mutex or an
    [Unlock] of the free one. *)
Lemma perform_possible clock act σ :
  (act = Lock -> mutex (limiter σ) = false) ->
  (act = Unlock -> mutex (limiter σ) = true) ->
  is_Some (perform clock act σ).
Proof.
  intros Hlock Hunlock. destruct act; simpl; eauto.
  - rewrite Hlock by reflexivity. eauto.
  - rewrite Hunlock by reflexivity. eauto.
  - destruct (ttlcache.GetWithTTL _ _ _). eauto.
Qed.

Lemma sum_list_insert (ns : list nat) i n :
  ns !! i = Some (S n) ->
  (sum_list (<[i:=n]> ns) + 1 = sum_list ns)%nat.
Proof.
  revert i. induction ns as [|m ns IH]; intros [|i] Hi; try discriminate;
    simpl in *.
  - injection Hi as ->. lia.
  - specialize (IH i Hi). lia.
Qed.

Lemma sum_list_replicate (m n : nat) :
  sum_list (replicate m n) = (m * n)%nat.
Proof. induction m as [|m IH]; simpl; lia. Qed.

(** A step of caller [i] keeps the discipline, and uses up one of the
    actions the caller has left. *)
Lemma step_Locking clock i ns pool σ pool' σ' :
  Locking ns pool σ ->
  step clock i (pool, σ) = Some (pool', σ') ->
  exists n, ns !! i = Some (S n) /\ Locking (<[i:=n]> ns) pool' σ'.
Proof.
  intros HL Hstep. unfold step in Hstep. simpl in Hstep.
  destruct (pool !! i) as [[a|act k]|] eqn:Hp; try discriminate.
  destruct (perform clock act σ) as [[x σ1]|] eqn:Hperf; [|discriminate].
  injection Hstep as <- <-.
  destruct (lookup_lt_is_Some_2 ns i) as [n0 Hn0].
  { rewrite (locking_bounds _ _ _ HL). eapply lookup_lt_Some, Hp. }
  pose proof (locking_disciplined _ _ _ HL i n0 _ Hn0 Hp) as Hdisc.
  rewrite in_critical_section_under_mutex in Hdisc. simpl in Hdisc.
  destruct n0 as [|n]; [contradiction|]. destruct Hdisc as [_ Hk].
  specialize (Hk x).
  pose proof (disciplined_critical _ _ _ Hk) as Hafter.
  rewrite <- in_critical_section_under_mutex in Hafter.
  destruct (perform_mutex _ _ _ _ _ Hperf) as (Hm & Hlock & Hunlock).
  assert (Hi : (i < length pool)%nat) by (eapply lookup_lt_Some, Hp).
  assert (Hbefore : in_critical_section (Do act k) = under_mutex act)
    by apply in_critical_section_under_mutex.
  (* who is between [Lock] and [Unlock] after the step *)
  assert (Hcs : forall j q,
            <[i:=k x]> pool !! j = Some q ->
            in_critical_section q = true ->
            (j = i /\ holds_after act (under_mutex act) = true)
            \/ (j <> i /\ pool !! j = Some q)).
  { intros j q Hq Hin.
    apply lookup_insert_cases in Hq as [[-> ->]|[Hne Hq]]; [|eauto].
    left. split; [reflexivity|]. rewrite <- Hafter. exact Hin. }
  exists n. split; [exact Hn0|]. split.
  - rewrite !length_insert. apply (locking_bounds _ _ _ HL).
  - intros j m q Hm' Hq.
    apply lookup_insert_cases in Hm' as [[-> ->]|[Hne Hm']].
    + rewrite list_lookup_insert_eq in Hq by exact Hi.
      injection Hq as <-. rewrite Hafter. exact Hk.
    + rewrite list_lookup_insert_ne in Hq by congruence.
      eapply (locking_disciplined _ _ _ HL); eassumption.
  - rewrite Hm. intros Hheld.
    destruct (under_mutex act) eqn:Hact.
    + (* the caller was between [Lock] and [Unlock] *)
      exists i, (k x). split; [apply list_lookup_insert_eq, Hi|].
      rewrite Hafter. destruct act; simpl in *; try discriminate; reflexivity.
    + destruct (holds_after act false) eqn:Hlocks.
      * exists i, (k x). split; [apply list_lookup_insert_eq, Hi|].
        exact Hafter.
      * assert (Hold : mutex (limiter σ) = true)
          by (destruct act; simpl in *; try discriminate; exact Hheld).
        destruct (locking_holder _ _ _ HL Hold) as (j & q & Hq & Hin).
        assert (j <> i).
        { intros ->. rewrite Hp in Hq. injection Hq as <-.
          rewrite Hbefore in Hin. congruence. }
        exists j, q. split; [|exact Hin].
        rewrite list_lookup_insert_ne by congruence. exact Hq.
  - intros j q Hq Hin. rewrite Hm.
    destruct (Hcs j q Hq Hin) as [[-> Hheld]|[Hne Hq']].
    + destruct act; try discriminate; try reflexivity;
        simpl in *;
        apply (locking_locked _ _ _ HL i _ Hp); reflexivity.
    + pose proof (locking_locked _ _ _ HL j q Hq' Hin) as Hold.
      destruct act; simpl; try exact Hold; try reflexivity.
      exfalso. apply Hne.
      eapply (locking_exclusion _ _ _ HL); eauto.
  - intros j1 j2 q1 q2 Hq1 Hq2 Hin1 Hin2.
    assert (Hother : forall j q,
              j <> i -> pool !! j = Some q ->
              in_critical_section q = true ->
              holds_after act (under_mutex act) = true -> False).
    { intros j q Hne Hq Hin Hheld.
      pose proof (locking_locked _ _ _ HL j q Hq Hin) as Hold.
      assert (Hwas : under_mutex act = true).
      { destruct act; try discriminate; try reflexivity.
        rewrite Hlock in Hold by reflexivity. discriminate. }
      apply Hne.
      eapply (locking_exclusion _ _ _ HL);
        [exact Hq|exact Hp|exact Hin|rewrite Hbefore; exact Hwas]. }
    destruct (Hcs j1 q1 Hq1 Hin1) as [[-> Hheld1]|[Hne1 Hq1']];
      destruct (Hcs j2 q2 Hq2 Hin2) as [[-> Hheld2]|[Hne2 Hq2']];
      try reflexivity.
    + exfalso. eauto.
    + exfalso. eauto.
    + eapply (locking_exclusion _ _ _ HL); eauto.
Qed.

(** The steps of a schedule keep the discipline, and there are no more of
    them than the callers had actions left. *)
Lemma steps_Locking clock schedule ns pool σ pool' σ' :
  Locking ns pool σ ->
  steps clock schedule (pool, σ) = Some (pool', σ') ->
  exists ns',
    Locking ns' pool' σ'
    /\ (sum_list ns' + length schedule = sum_list ns)%nat.
Proof.
  revert ns pool σ. induction schedule as [|i schedule IH];
    intros ns pool σ HL Hsteps; simpl in Hsteps.
  - injection Hsteps as <- <-. exists ns. split; [exact HL|simpl; lia].
  - destruct (step clock i (pool, σ)) as [[pool1 σ1]|] eqn:Hstep;
      [|discriminate].
    destruct (step_Locking _ _ _ _ _ _ _ HL Hstep) as (n & Hn & HL1).
    destruct (IH _ _ _ HL1 Hsteps) as (ns' & HL' & Hsum).
    pose proof (sum_list_insert _ _ _ Hn).
    exists ns'. split; [exact HL'|simpl; lia].
Qed.

(** While a caller has not returned, some caller can do its next action. *)
Lemma Locking_progress clock ns pool σ :
  Locking ns pool σ ->
  (exists i p, pool !! i = Some p /\ returned p = None) ->
  exists i, is_Some (step clock i (pool, σ)).
Proof.
  intros HL (i0 & p0 & Hp0 & Hret0).
  assert (Hstep : forall i act k,
            pool !! i = Some (Do act k) ->
            (act = Lock -> mutex (limiter σ) = false) ->
            (act = Unlock -> mutex (limiter σ) = true) ->
            is_Some (step clock i (pool, σ))).
  { intros i act k Hp Hlock Hunlock. unfold step. simpl. rewrite Hp.
    destruct (perform_possible clock act σ Hlock Hunlock) as [[x σ1] ->].
    eauto. }
  destruct (mutex (limiter σ)) eqn:Hm.
  - destruct (locking_holder _ _ _ HL Hm) as (i & p & Hp & Hin).
    destruct p as [a|act k]; [discriminate|].
    exists i. eapply Hstep; [exact Hp| |reflexivity].
    intros ->. discriminate.
  - destruct p0 as [[ret w']|act k]; [discriminate|].
    exists i0. eapply Hstep; [exact Hp0|reflexivity|].
    intros ->. rewrite <- Hm.
    eapply (locking_locked _ _ _ HL); [exact Hp0|reflexivity].
Qed.

(** The callers can always be run on until all of them have returned. *)
Lemma Locking_completion clock m ns pool σ :
  Locking ns pool σ ->
  (sum_list ns <= m)%nat ->
  exists schedule pool' σ',
    steps clock schedule (pool, σ) = Some (pool', σ')
    /\ forall i p, pool' !! i = Some p -> is_Some (returned p).
Proof.
  revert ns pool σ. induction m as [|m IH]; intros ns pool σ HL Hsum;
    (destruct (all_returned_or_not pool) as [Hall|Hsome];
     [exists [], pool, σ; split; [reflexivity|exact Hall]|]);
    destruct (Locking_progress clock _ _ _ HL Hsome)
      as (i & [[pool1 σ1] Hstep]);
    destruct (step_Locking _ _ _ _ _ _ _ HL Hstep) as (n & Hn & HL1);
    pose proof (sum_list_insert _ _ _ Hn) as Hdec.
  - lia.
  - destruct (IH _ _ _ HL1 ltac:(lia))
      as (schedule & pool' & σ' & Hsteps & Hall).
    exists (i :: schedule), pool', σ'. split; [|exact Hall].
    simpl. rewrite Hstep. exact Hsteps.
Qed.

(** Right after the callers have entered [ServeHTTP]. *)
Lemma Locking_start σ0 (callers : list Caller) pool0 :
  mutex (limiter σ0) = false ->
  spawn readAddress (limiter σ0) callers = Some pool0 ->
  Locking (replicate (length callers) 9%nat) pool0 σ0.
Proof.
  intros Hfree Hspawn. unfold spawn in Hspawn. apply mapM_Some in Hspawn.
  assert (Hp : forall i p, pool0 !! i = Some p -> disciplined 9 false p).
  { intros i p Hp.
    destruct (Forall2_lookup_r _ _ _ _ _ Hspawn Hp) as (c & _ & Hc).
    eapply ServeHTTP_disciplined, Hc. }
  assert (Hout : forall i p, pool0 !! i = Some p ->
                             in_critical_section p = false).
  { intros i p Hi. rewrite in_critical_section_under_mutex.
    eapply disciplined_critical, Hp, Hi. }
  split.
  - rewrite length_replicate. eapply Forall2_length, Hspawn.
  - intros i n p Hn Hi. apply lookup_replicate in Hn as [-> _].
    rewrite (Hout _ _ Hi). eapply Hp, Hi.
  - rewrite Hfree. discriminate.
  - intros i p Hi Hin. rewrite (Hout _ _ Hi) in Hin. discriminate.
  - intros i j p q Hi _ Hin. rewrite (Hout _ _ Hi) in Hin. discriminate.
Qed.

(** A program that keeps the discipline, run alone from a state in which
    the mutex is as the program takes it to be, returns with the mutex free
    after at most as many actions as it is bounded by. *)
Lemma disciplined_run {A} clock n (p : Prog A) σ :
  disciplined n (mutex (limiter σ)) p ->
  exists a σ' acts,
    run clock p σ = Some (a, σ')
    /\ mutex (limiter σ') = false
    /\ trace σ' = trace σ ++ acts
    /\ (length acts <= n)%nat.
Proof.
  revert p σ. induction n as [|n IH]; intros [a|act k] σ Hdisc;
    simpl in Hdisc; try contradiction.
  - exists a, σ, []. simpl. rewrite app_nil_r. repeat split; [assumption|lia].
  - exists a, σ, []. simpl. rewrite app_nil_r. repeat split; [assumption|lia].
  - destruct Hdisc as [Hact Hk].
    destruct (perform_possible clock act σ) as [[x σ1] Hperf].
    { intros ->. rewrite <- Hact. reflexivity. }
    { intros ->. rewrite <- Hact. reflexivity. }
    destruct (perform_mutex _ _ _ _ _ Hperf) as (Hm & _ & _).
    assert (Htrace : trace σ1 = trace σ ++ [act]).
    { destruct act; simpl in Hperf;
        repeat match type of Hperf with
               | context [if ?b then _ else _] => destruct b
               | context [let '(_, _) := ?e in _] => destruct e
               end;
        try discriminate; injection Hperf as _ <-; reflexivity. }
    specialize (Hk x). rewrite <- Hm in Hk.
    destruct (IH _ _ Hk) as (a & σ' & acts & Hrun & Hfree & Htr & Hlen).
    exists a, σ', (act :: acts). simpl. rewrite Hperf.
    split; [exact Hrun|]. split; [exact Hfree|].
    split; [|simpl; lia].
    rewrite Htr, Htrace, <- app_assoc. reflexivity.
Qed.

(** X5: [ServeHTTP] keeps the discipline of the mutex.  Whatever the
    request, the response writer, the handler and the configuration, its
    program exists (there is no panic) and, whatever the store and the
    handler give back, does at most nine actions; it probes and sets the
    store only between its [Lock] and its [Unlock]; it calls the downstream
    handler, removes entries and logs only while it does not hold the mutex;
    and it never returns holding it.  So a call run alone from any state in
    which the mutex is free, whatever the store holds, returns after at most
    nine actions and leaves the mutex free. *)
Theorem X5_mutex_discipline proxyCount ttl w r next :
  exists p,
    ServeHTTP readAddress proxyCount ttl w r next = Some p
    /\ disciplined 9 false p
    /\ forall clock σ,
         mutex (limiter σ) = false ->
         exists res σ' acts,
           run clock p σ = Some (res, σ')
           /\ mutex (limiter σ') = false
           /\ trace σ' = trace σ ++ acts
           /\ (length acts <= 9)%nat.
Proof.
  assert (is_Some (ServeHTTP readAddress proxyCount ttl w r next))
    as [p Hp].
  { unfold ServeHTTP.
    destruct (readAddress r) as [address|err];
      [|destruct (errors_As err); eauto].
    destruct (ttl <=? 0); [eauto|].
    destruct (getClientIPFromRequest_total proxyCount r) as [clientIP ->].
    simpl. eauto. }
  pose proof (ServeHTTP_disciplined _ _ _ _ _ _ Hp) as Hdisc.
  exists p. split; [exact Hp|]. split; [exact Hdisc|].
  intros clock σ Hfree. apply disciplined_run. rewrite Hfree. exact Hdisc.
Qed.

(** X6: any callers that enter [ServeHTTP] at once on a limiter whose mutex
    is free, whatever their requests, their handlers and the clock.
    However their actions interleave: no two callers are between [Lock] and
    [Unlock] at a time; the mutex is locked exactly when some caller is
    there; no run takes more than nine steps per caller; and the callers can
    always be run on until all of them have returned. *)
Theorem X6_mutual_exclusion_any_callers clock σ0 (callers : list Caller)
    pool0 schedule pool' σ' :
  mutex (limiter σ0) = false ->
  spawn readAddress (limiter σ0) callers = Some pool0 ->
  steps clock schedule (pool0, σ0) = Some (pool', σ') ->
  (forall i j p q,
     pool' !! i = Some p -> pool' !! j = Some q ->
     in_critical_section p = true -> in_critical_section q = true ->
     i = j)
  /\ (mutex (limiter σ') = true <->
      exists i p, pool' !! i = Some p /\ in_critical_section p = true)
  /\ (length schedule <= 9 * length callers)%nat
  /\ exists schedule' pool'' σ'',
       steps clock schedule' (pool', σ') = Some (pool'', σ'')
       /\ forall i p, pool'' !! i = Some p -> is_Some (returned p).
Proof.
  intros Hfree Hspawn Hsteps.
  pose proof (Locking_start _ _ _ Hfree Hspawn) as HL0.
  destruct (steps_Locking _ _ _ _ _ _ _ HL0 Hsteps) as (ns' & HL & Hsum).
  rewrite sum_list_replicate in Hsum.
  split; [apply (locking_exclusion _ _ _ HL)|]. split; [split|split].
  - apply (locking_holder _ _ _ HL).
  - intros (i & p & Hp & Hin). eapply (locking_locked _ _ _ HL); eassumption.
  - lia.
  - eapply Locking_completion; [exact HL|reflexivity].
Qed.

End Mutex.

(** * The Identity Resolver: forged tokens, blank tokens, the remote address *)

Section Identity.

Import GoString.

(** A string without the separator is its own and only part. *)
Lemma Split_part part sep :
  occurs sep part = false -> strings.Split part sep = [part].
Proof.
  induction part as [|c part IH]; simpl; [reflexivity|].
  destruct (Ascii.eqb c sep); simpl; [discriminate|].
  intros H. rewrite (IH H). reflexivity.
Qed.

(** A first part without the separator is cut off at the separator. *)
Lemma Split_first part rest sep :
  occurs sep part = false ->
  strings.Split (part +:+ String sep rest) sep
  = part :: strings.Split rest sep.
Proof.
  induction part as [|c part IH]; simpl.
  - rewrite Ascii.eqb_refl. reflexivity.
  - destruct (Ascii.eqb c sep); simpl; [discriminate|].
    intros H. rewrite (IH H). reflexivity.
Qed.

(** [strings.Split] undoes [strings.Join] on parts without the separator. *)
Lemma Split_of_Join parts sep :
  parts <> [] ->
  Forall (fun part => occurs sep part = false) parts ->
  strings.Split (Join parts sep) sep = parts.
Proof.
  induction parts as [|part parts IH]; [congruence|].
  intros _ Hparts. inversion Hparts as [|? ? Hpart Hrest]; subst.
  destruct parts as [|part' parts].
  - apply Split_part, Hpart.
  - change (Join (part :: part' :: parts) sep)
      with (part +:+ String sep (Join (part' :: parts) sep)).
    rewrite (Split_first _ _ _ Hpart), IH by (congruence || assumption).
    reflexivity.
Qed.

(** X7: a forged prefix of the forwarded-for header is not read.  When the
    header is made of any tokens followed by as many tokens as there are
    trusted proxies, the resolver returns the first of the latter, trimmed,
    whatever the tokens in front of it are and however many there are: two
    requests that differ in what the client put in front get the same
    identity. *)
Theorem X7_forged_prefix_ignored proxyCount r forged trusted :
  0 < proxyCount ->
  Z.of_nat (length trusted) = proxyCount ->
  Forall (fun token => occurs "," token = false) (forged ++ trusted) ->
  Header_Get (Header r) "X-Forwarded-For" = Join (forged ++ trusted) "," ->
  Join (forged ++ trusted) "," <> EmptyString ->
  getClientIPFromRequest proxyCount r = strings.TrimSpace <$> head trusted
  /\ forall r' forged',
       Forall (fun token => occurs "," token = false) forged' ->
       Header_Get (Header r') "X-Forwarded-For"
       = Join (forged' ++ trusted) "," ->
       Join (forged' ++ trusted) "," <> EmptyString ->
       getClientIPFromRequest proxyCount r'
       = getClientIPFromRequest proxyCount r.
Proof.
  intros Hpc Hlen Htokens Hget Hne.
  assert (Hrun : forall r0 forged0,
            Forall (fun token => occurs "," token = false)
              (forged0 ++ trusted) ->
            Header_Get (Header r0) "X-Forwarded-For"
            = Join (forged0 ++ trusted) "," ->
            Join (forged0 ++ trusted) "," <> EmptyString ->
            getClientIPFromRequest proxyCount r0
            = strings.TrimSpace <$> head trusted).
  { intros r0 forged0 Htokens0 Hget0 Hne0.
    unfold getClientIPFromRequest. rewrite Hget0.
    destruct (Z.ltb_spec 0 proxyCount) as [_|]; [|lia].
    destruct (String.eqb_spec (Join (forged0 ++ trusted) ",") EmptyString)
      as [|_]; [contradiction|].
    simpl. rewrite Split_of_Join; [|destruct trusted, forged0; simpl in *; (congruence || lia)|exact Htokens0].
    rewrite length_app, Nat2Z.inj_add, Hlen.
    replace (Z.of_nat (length forged0) + proxyCount - proxyCount)
      with (Z.of_nat (length forged0)) by lia.
    destruct (Z.ltb_spec (Z.of_nat (length forged0)) 0) as [|_]; [lia|].
    f_equal. unfold index. rewrite length_app, Nat2Z.id.
    destruct (Z.leb_spec 0 (Z.of_nat (length forged0))) as [_|]; [|lia].
    destruct (Z.ltb_spec (Z.of_nat (length forged0))
                (Z.of_nat (length forged0 + length trusted))) as [_|];
      [|lia].
    simpl. rewrite lookup_app_r by lia. rewrite Nat.sub_diag.
    destruct trusted; reflexivity. }
  split; [apply (Hrun r forged); assumption|].
  intros r' forged' Hforged' Hget' Hne'.
  rewrite (Hrun r forged) by assumption.
  apply (Hrun r' forged'); [|assumption|assumption].
  apply Forall_app. split; [exact Hforged'|].
  apply Forall_app in Htokens as [_ Htrusted]. exact Htrusted.
Qed.

Lemma substring_none n s : String.substring n 0 s = EmptyString.
Proof.
  revert s. induction n as [|n IH]; intros [|c s]; simpl; auto.
Qed.

(** [strings.TrimSpace] of a string of space bytes is the empty string. *)
Lemma TrimSpace_all_spaces s :
  (forall i, 0 <= i < len s -> strings.asciiSpace (at_ s i) = true) ->
  strings.TrimSpace s = EmptyString.
Proof.
  intros Hblank.
  assert (Hascii : ascii_only s).
  { intros i Hi. specialize (Hblank i Hi). unfold strings.asciiSpace in Hblank.
    unfold utf8.RuneSelf.
    repeat match type of Hblank with
           | (_ || _) = true => apply orb_true_iff in Hblank as [Hblank|Hblank]
           end;
      apply Z.eqb_eq in Hblank; lia. }
  destruct (TrimSpace_trimmed s Hascii)
    as (start & stop & Hle & Hstop & -> & _ & _ & Hends).
  destruct (Z_lt_le_dec start stop) as [Hlt|Hge].
  - destruct (Hends Hlt) as [Hfirst _].
    rewrite Hblank in Hfirst by lia. discriminate.
  - unfold slice. replace (stop - start) with 0 by lia.
    apply substring_none.
Qed.

(** X9: a blank token gives the empty identity.  With a positive proxy
    count and a forwarded-for header that is not empty, when the token the
    resolver selects holds nothing but space bytes (as after a comma at the
    end of the header), the identity is the empty string: the resolver does
    not fall back to the remote address. *)
Theorem X9_blank_token_empty_identity proxyCount r token :
  0 < proxyCount ->
  Header_Get (Header r) "X-Forwarded-For" <> EmptyString ->
  let tokens := strings.Split (Header_Get (Header r) "X-Forwarded-For") "," in
  tokens !! Z.to_nat (Z.max 0 (Z.of_nat (length tokens) - proxyCount))
  = Some token ->
  (forall i, 0 <= i < len token -> strings.asciiSpace (at_ token i) = true) ->
  getClientIPFromRequest proxyCount r = Some EmptyString.
Proof.
  intros Hpc Hne tokens Htoken Hblank.
  unfold getClientIPFromRequest.
  destruct (Z.ltb_spec 0 proxyCount) as [_|]; [|lia].
  destruct (String.eqb_spec (Header_Get (Header r) "X-Forwarded-For")
              EmptyString) as [|_]; [contradiction|].
  simpl. fold tokens.
  pose proof (Split_length (Header_Get (Header r) "X-Forwarded-For") ",")
    as Hlen. fold tokens in Hlen.
  replace (if Z.of_nat (length tokens) - proxyCount <? 0 then 0
           else Z.of_nat (length tokens) - proxyCount)
    with (Z.max 0 (Z.of_nat (length tokens) - proxyCount))
    by (destruct (Z.ltb_spec (Z.of_nat (length tokens) - proxyCount) 0); lia).
  unfold index.
  destruct (Z.leb_spec 0 (Z.max 0 (Z.of_nat (length tokens) - proxyCount)))
    as [_|]; [|lia].
  destruct (Z.ltb_spec (Z.max 0 (Z.of_nat (length tokens) - proxyCount))
              (Z.of_nat (length tokens))) as [_|]; [|lia].
  simpl. rewrite Htoken. simpl. rewrite (TrimSpace_all_spaces _ Hblank).
  reflexivity.
Qed.

(** ** The remote address *)

Lemma IndexByteString_absent s c :
  IndexByteString s c < 0 -> occurs c s = false.
Proof.
  intros H. destruct (occurs c s) eqn:Ho; [|reflexivity].
  pose proof (IndexByteString_some _ _ Ho). lia.
Qed.

Lemma LastIndexByteString_absent s c :
  LastIndexByteString s c < 0 -> occurs c s = false.
Proof.
  induction s as [|d s IH]; simpl; [reflexivity|].
  destruct (Z.leb_spec 0 (LastIndexByteString s c)); [lia|].
  destruct (Ascii.eqb d c); [lia|]. intros _. apply IH. lia.
Qed.

(** The last occurrence of a byte cuts the string in two, the second part
    without the byte. *)
Lemma LastIndexByteString_split s c :
  0 <= LastIndexByteString s c ->
  exists a b,
    s = a +:+ String c b
    /\ len a = LastIndexByteString s c
    /\ occurs c b = false.
Proof.
  induction s as [|d s IH]; simpl; [lia|].
  destruct (Z.leb_spec 0 (LastIndexByteString s c)) as [Hin|Hout].
  - intros _. destruct (IH Hin) as (a & b & Hs & Hlen & Hb).
    exists (String d a), b. split; [rewrite Hs at 1; reflexivity|].
    split; [rewrite len_String; lia|exact Hb].
  - destruct (Ascii.eqb_spec d c) as [->|_]; [|lia].
    intros _. exists EmptyString, s. split; [reflexivity|].
    split; [reflexivity|]. apply LastIndexByteString_absent. lia.
Qed.

(** The first occurrence of a byte cuts the string in two, the first part
    without the byte. *)
Lemma IndexByteString_split s c :
  0 <= IndexByteString s c ->
  exists a b,
    s = a +:+ String c b
    /\ len a = IndexByteString s c
    /\ occurs c a = false.
Proof.
  induction s as [|d s IH]; simpl; [lia|].
  destruct (Ascii.eqb_spec d c) as [->|Hne].
  - intros _. exists EmptyString, s. repeat split.
  - destruct (Z.ltb_spec (IndexByteString s c) 0) as [|Hin]; [lia|].
    intros _. destruct (IH Hin) as (a & b & Hs & Hlen & Ha).
    exists (String d a), b. split; [rewrite Hs at 1; reflexivity|].
    split; [rewrite len_String; lia|].
    simpl. rewrite Ha. apply orb_false_iff. split; [|reflexivity].
    apply Ascii.eqb_neq, Hne.
Qed.

Lemma app_inj_len a1 b1 a2 b2 :
  a1 +:+ b1 = a2 +:+ b2 -> len a1 = len a2 -> a1 = a2 /\ b1 = b2.
Proof.
  revert a2. induction a1 as [|c a1 IH]; intros [|d a2] Heq Hlen;
    rewrite ?len_String in Hlen; change (len EmptyString) with 0 in Hlen.
  - split; [reflexivity|exact Heq].
  - pose proof (len_nonneg a2). lia.
  - pose proof (len_nonneg a1). lia.
  - simpl in Heq. injection Heq as -> Heq.
    destruct (IH a2 Heq ltac:(lia)) as [-> ->]. split; reflexivity.
Qed.

(** What [net.SplitHostPort] accepts: ["host:port"] with neither colon nor
    bracket in the host, and ["[host]:port"] with no bracket in the host;
    the port without colon and bracket. *)
Lemma SplitHostPort_shape hp host port :
  net.SplitHostPort hp = inl (host, port) ->
  plain port
  /\ ((hp = host +:+ String ":" port /\ plain host)
      \/ (hp = String "[" (host +:+ String "]" (String ":" port))
          /\ occurs "[" host = false /\ occurs "]" host = false)).
Proof.
  unfold net.SplitHostPort, net.addrErr.
  destruct (Z.ltb_spec (LastIndexByteString hp ":") 0) as [|Hi];
    [discriminate|].
  destruct (LastIndexByteString_split _ _ Hi) as (a & b & Hhp & Hlen & Hb).
  assert (Hport : from hp (LastIndexByteString hp ":" + 1) = b).
  { rewrite <- Hlen. rewrite Hhp at 1.
    change (a +:+ String ":" b) with (a +:+ (":" +:+ b)).
    rewrite <- app_assoc_string.
    replace (len a + 1) with (len (a +:+ ":"))
      by (rewrite len_app; reflexivity).
    apply from_suffix. }
  destruct (at_ hp 0 =? byte "[") eqn:Hopen.
  - (* ["[host]:port"] *)
    destruct (Z.ltb_spec (IndexByteString hp "]") 0) as [|Hend];
      [discriminate|].
    destruct (IndexByteString hp "]" + 1 =? len hp); [discriminate|].
    destruct (Z.eqb_spec (IndexByteString hp "]" + 1)
                (LastIndexByteString hp ":")) as [Hnext|_];
      [|destruct (at_ hp (IndexByteString hp "]" + 1) =? byte ":");
        discriminate].
    destruct (IndexByteString_split _ _ Hend) as (a2 & b2 & Hhp2 & Hlen2 & Ha2).
    destruct (Z.leb_spec 0 (IndexByteString (from hp 1) "[")) as [|Hno1];
      [discriminate|].
    destruct (Z.leb_spec 0
                (IndexByteString (from hp (IndexByteString hp "]" + 1)) "]"))
      as [|Hno2]; [discriminate|].
    intros [= <- <-].
    apply IndexByteString_absent in Hno1, Hno2.
    (* the part in front of the bracket that closes starts with the one
       that opens *)
    destruct a2 as [|c a3].
    { rewrite Hhp2 in Hopen. simpl in Hopen. discriminate. }
    assert (c = "["%char) as ->.
    { rewrite Hhp2 in Hopen. change (String c a3 +:+ String "]" b2)
        with (String c (a3 +:+ String "]" b2)) in Hopen.
      rewrite at_0, byte_eqb in Hopen. apply Ascii.eqb_eq, Hopen. }
    simpl in Ha2.
    (* the colon comes right after the bracket that closes *)
    assert (Hcut : String "[" a3 +:+ "]" = a /\ b2 = String ":" b).
    { apply app_inj_len.
      - rewrite app_assoc_string. change ("]" +:+ b2) with (String "]" b2).
        rewrite <- Hhp2. exact Hhp.
      - rewrite len_app. change (len "]") with 1. lia. }
    destruct Hcut as [<- ->].
    assert (Hshape : hp = String "[" (a3 +:+ String "]" (String ":" b)))
      by exact Hhp2.
    assert (Hhost : slice hp 1 (IndexByteString hp "]") = a3).
    { rewrite <- Hlen2, len_String, (Z.add_comm (len a3) 1). rewrite Hshape at 1.
      apply (slice_middle "[" a3 (String "]" (String ":" b))). }
    assert (Hfrom1 : from hp 1 = a3 +:+ String "]" (String ":" b)).
    { rewrite Hshape at 1. apply (from_suffix "[" _). }
    assert (Hfrom2 : from hp (IndexByteString hp "]" + 1) = String ":" b).
    { rewrite <- Hlen2. rewrite Hshape at 1.
      replace (len (String "[" a3) + 1) with (len (String "[" a3 +:+ "]"))
        by (rewrite len_app; reflexivity).
      change (String "[" (a3 +:+ String "]" (String ":" b)))
        with (String "[" a3 +:+ ("]" +:+ String ":" b)).
      rewrite <- app_assoc_string. apply from_suffix. }
    rewrite Hfrom1, occurs_app in Hno1. simpl in Hno1.
    apply orb_false_iff in Hno1 as [Hno1a Hno1b].
    rewrite Hfrom2 in Hno2. simpl in Hno2.
    rewrite Hhost, Hport.
    split; [repeat split; assumption|].
    right. split; [exact Hshape|]. split; [exact Hno1a|exact Ha2].
  - (* ["host:port"] *)
    assert (Hhost : slice hp 0 (LastIndexByteString hp ":") = a).
    { rewrite <- Hlen. rewrite Hhp at 1. apply slice_prefix. }
    rewrite Hhost.
    destruct (Z.leb_spec 0 (IndexByteString a ":")) as [|Hcolon];
      [discriminate|].
    rewrite from_0.
    destruct (Z.leb_spec 0 (IndexByteString hp "[")) as [|Hno1];
      [discriminate|].
    destruct (Z.leb_spec 0 (IndexByteString hp "]")) as [|Hno2];
      [discriminate|].
    intros [= <- <-].
    apply IndexByteString_absent in Hcolon, Hno1, Hno2.
    rewrite Hhp, occurs_app in Hno1, Hno2. simpl in Hno1, Hno2.
    apply orb_false_iff in Hno1 as [Hno1a Hno1b].
    apply orb_false_iff in Hno2 as [Hno2a Hno2b].
    rewrite Hport.
    split; [repeat split; assumption|].
    left. split; [exact Hhp|]. repeat split; assumption.
Qed.

(** X8: the identity taken from the remote address.  When the proxy count
    is not positive or there is no forwarded-for value, the resolver returns
    the host exactly when the remote address reads ["host:port"], with
    neither colon nor square bracket in the host, or ["[host]:port"], with
    no square bracket in the host, the port being without colon and square
    bracket in both; the host put together with the port in that form is
    the remote address again.  The remote address is returned as it is
    exactly when it reads in neither way. *)
Theorem X8_remote_address_shape proxyCount r :
  proxyCount <= 0 \/ Header_Get (Header r) "X-Forwarded-For" = EmptyString ->
  (exists host port,
     getClientIPFromRequest proxyCount r = Some host
     /\ plain port
     /\ ((RemoteAddr r = host +:+ String ":" port /\ plain host)
         \/ (RemoteAddr r = String "[" (host +:+ String "]" (String ":" port))
             /\ occurs "[" host = false /\ occurs "]" host = false)))
  \/ (getClientIPFromRequest proxyCount r = Some (RemoteAddr r)
      /\ forall host port,
           plain port ->
           (plain host -> RemoteAddr r <> host +:+ String ":" port)
           /\ (occurs "[" host = false -> occurs "]" host = false ->
               RemoteAddr r
               <> String "[" (host +:+ String "]" (String ":" port)))).
Proof.
  intros Hfallback.
  assert (Hrun : getClientIPFromRequest proxyCount r = Some (remoteIP r)).
  { unfold getClientIPFromRequest.
    destruct (Z.ltb_spec 0 proxyCount) as [Hpc|]; [|reflexivity].
    destruct Hfallback as [Hle|Hempty]; [lia|rewrite Hempty; reflexivity]. }
  rewrite Hrun. unfold remoteIP.
  destruct (net.SplitHostPort (RemoteAddr r)) as [[host port]|e] eqn:Hsplit.
  - left. exists host, port. split; [reflexivity|].
    apply SplitHostPort_shape, Hsplit.
  - right. split; [reflexivity|]. intros host port Hport. split.
    + intros Hhost Heq. rewrite Heq, SplitHostPort_plain in Hsplit
        by assumption. discriminate.
    + intros Ho Hc Heq. rewrite Heq, SplitHostPort_bracketed in Hsplit
        by assumption. discriminate.
Qed.

End Identity.

(** * The CAPTCHA middleware behind the limiter, and the CORS middleware *)

Section Chain.

Context (readAddress : Request -> string + error) (clock : nat -> Z).
Context (VerifyToken : hcaptcha.Client -> string -> hcaptcha.Response).

Local Abbreviation serve := (serve readAddress clock).

(** X10: the limiter with the CAPTCHA middleware as its downstream handler,
    for a request whose keys are not live.  The client the verifier is
    called with carries the site key and the secret given to [NewCaptcha].
    Without a secret, or when the verifier accepts the token of the request,
    the response is the one of the handler behind the CAPTCHA middleware,
    and the entries stay exactly when its status is 200.  When the verifier
    refuses the token, the response is the 429 of the CAPTCHA middleware,
    the handler behind it not being called; the limiter takes it for a
    failure and removes both entries, so that the request does not count: a
    call for the same request that follows at once is admitted. *)
Theorem X10_refused_captcha_not_counted siteKey hcaptchaSecret σ w r next
    address clientIP :
  idle σ ->
  readAddress r = inl address ->
  0 < ttl (limiter σ) ->
  getClientIPFromRequest (proxyCount (limiter σ)) r = Some clientIP ->
  probe (cache (limiter σ)) (clock (ticks σ)) address = None ->
  probe (cache (limiter σ)) (clock (S (ticks σ))) clientIP = None ->
  let captcha := NewCaptcha siteKey hcaptchaSecret in
  let token := Header_Get (Header r) "H-Captcha-Response" in
  let accepted := hcaptcha.Success (VerifyToken (client captcha) token) in
  let guarded : HandlerFunc :=
    fun w r => Captcha_ServeHTTP VerifyToken captcha w r next in
  client captcha
  = {| hcaptcha.SiteKey := siteKey; hcaptcha.secret := hcaptchaSecret |}
  /\ exists ret w' σ',
       serve σ w r guarded = Some (ret, w', σ')
       /\ if String.eqb hcaptchaSecret EmptyString || accepted then
            w' = next w r
            /\ (ret = return_done <-> Status (next w r) = http.StatusOK)
            /\ (ret = return_removed <-> Status (next w r) <> http.StatusOK)
          else
            ret = return_removed
            /\ w' = renderJSON w
                      {| Message :=
                           "Captcha verification failed, please try again" |}
                      http.StatusTooManyRequests
            /\ (forall next', Captcha_ServeHTTP VerifyToken captcha w r next'
                              = w')
            /\ ttlcache.items (cache (limiter σ')) !! address = None
            /\ ttlcache.items (cache (limiter σ')) !! clientIP = None
            /\ forall w2 next2,
                 exists ret2 σ2,
                   serve σ' w2 r next2 = Some (ret2, next2 w2 r, σ2)
                   /\ decision ret2 = Some admitted.
Proof.
  intros Hidle Haddr Httl Hip Hfree1 Hfree2 captcha token accepted guarded.
  split; [reflexivity|].
  destruct (serve_total readAddress clock σ w r guarded Hidle)
    as [[[ret w'] σ'] Hserve].
  exists ret, w', σ'. split; [exact Hserve|].
  pose proof (serve_idle readAddress clock _ _ _ _ _ _ _ Hidle Hserve)
    as Hidle'.
  destruct (serve_frame readAddress clock _ _ _ _ _ _ _ Hidle Hserve)
    as (Hpc & Httl' & _ & _).
  rewrite (serve_positive readAddress clock _ _ _ _ _ _ Hidle Haddr Httl Hip)
    in Hserve.
  cbv zeta in Hserve. rewrite Hfree1, Hfree2 in Hserve.
  assert (Hguarded :
            guarded w r
            = if String.eqb hcaptchaSecret EmptyString || accepted
              then next w r
              else renderJSON w
                     {| Message :=
                          "Captcha verification failed, please try again" |}
                     http.StatusTooManyRequests).
  { unfold guarded, Captcha_ServeHTTP. fold token. fold accepted.
    change (secret captcha) with hcaptchaSecret.
    destruct (String.eqb hcaptchaSecret EmptyString), accepted; reflexivity. }
  rewrite Hguarded in Hserve.
  destruct (String.eqb hcaptchaSecret EmptyString || accepted) eqn:Hpass.
  - destruct (Z.eqb_spec (Status (next w r)) http.StatusOK) as [Hok|Hko];
      simpl in Hserve; injection Hserve as <- <- <-;
      (split; [reflexivity|]); split; split; try discriminate; tauto.
  - simpl in Hserve. injection Hserve as <- <- <-.
    split; [reflexivity|]. split; [reflexivity|]. split.
    { intros next'. unfold Captcha_ServeHTTP. fold token.
      change (secret captcha) with hcaptchaSecret.
      apply orb_false_iff in Hpass as [-> Hrefused].
      unfold accepted in Hrefused. rewrite Hrefused. reflexivity. }
    assert (Hgone : forall key,
              key = address \/ key = clientIP ->
              ttlcache.items
                (ttlcache.Remove
                   (ttlcache.Remove
                      (ttlcache.SetWithTTL
                         (ttlcache.SetWithTTL (cache (limiter σ))
                            (clock (S (S (ticks σ)))) address true
                            (ttl (limiter σ)))
                         (clock (S (S (S (ticks σ))))) clientIP true
                         (ttl (limiter σ))) address) clientIP) !! key
              = None).
    { intros key Hkey. simpl.
      destruct (decide (key = clientIP)) as [->|Hne];
        [apply lookup_delete_eq|].
      rewrite lookup_delete_ne by congruence.
      destruct Hkey as [-> | ->]; [apply lookup_delete_eq|congruence]. }
    split; [apply Hgone; auto|]. split; [apply Hgone; auto|].
    intros w2 next2.
    match type of Hidle' with idle ?s => set (σ1 := s) in * end.
    assert (Hip1 : getClientIPFromRequest (proxyCount (limiter σ1)) r
                   = Some clientIP) by exact Hip.
    rewrite (serve_positive readAddress clock _ _ _ _ _ _ Hidle' Haddr
               ltac:(exact Httl) Hip1).
    cbv zeta.
    rewrite !probe_lapsed;
      try apply Hidle';
      try (subst σ1; simpl; rewrite Hgone by auto; exact I).
    destruct (negb _); do 2 eexists; (split; reflexivity).
Qed.

End Chain.

Section CORS.

(** The names [CORSMiddleware] sets. *)
Local Abbreviation cors_names :=
  ["Access-Control-Allow-Origin"; "Access-Control-Allow-Methods";
   "Access-Control-Allow-Headers"].

(** The response writer with the three headers set. *)
Lemma set_headers_lookup (w : Response) :
  let w' :=
    set_header
      (set_header (set_header w "Access-Control-Allow-Origin" "*")
         "Access-Control-Allow-Methods" "GET, POST, OPTIONS")
      "Access-Control-Allow-Headers" "Content-Type, Authorization" in
  writer w' = writer w
  /\ ResponseHeader w' !! "Access-Control-Allow-Origin" = Some ["*"]
  /\ ResponseHeader w' !! "Access-Control-Allow-Methods"
     = Some ["GET, POST, OPTIONS"]
  /\ ResponseHeader w' !! "Access-Control-Allow-Headers"
     = Some ["Content-Type, Authorization"]
  /\ forall key,
       key ∉ cors_names ->
       ResponseHeader w' !! key = ResponseHeader w !! key.
Proof.
  simpl. unfold Header_Set. split; [reflexivity|].
  split; [rewrite !lookup_insert_ne by discriminate; apply lookup_insert_eq|].
  split; [rewrite lookup_insert_ne by discriminate; apply lookup_insert_eq|].
  split; [apply lookup_insert_eq|].
  intros key Hkey.
  rewrite !lookup_insert_ne; [reflexivity| | |];
    intros <-; apply Hkey; repeat constructor.
Qed.

(** Setting the three headers again changes nothing. *)
Lemma set_headers_twice (w : Response) :
  let set w :=
    set_header
      (set_header (set_header w "Access-Control-Allow-Origin" "*")
         "Access-Control-Allow-Methods" "GET, POST, OPTIONS")
      "Access-Control-Allow-Headers" "Content-Type, Authorization" in
  set (set w) = set w.
Proof.
  simpl. unfold set_header, Header_Set. simpl. f_equal.
  apply map_eq. intros key.
  destruct (decide (key = "Access-Control-Allow-Headers")) as [->|H1];
    [rewrite !lookup_insert_eq; reflexivity|].
  rewrite !(lookup_insert_ne _ "Access-Control-Allow-Headers") by congruence.
  destruct (decide (key = "Access-Control-Allow-Methods")) as [->|H2];
    [rewrite !lookup_insert_eq; reflexivity|].
  rewrite !(lookup_insert_ne _ "Access-Control-Allow-Methods") by congruence.
  destruct (decide (key = "Access-Control-Allow-Origin")) as [->|H3];
    [rewrite !lookup_insert_eq; reflexivity|].
  rewrite !lookup_insert_ne by congruence. reflexivity.
Qed.

(** X11: what [CORSMiddleware] does to the response.  Whatever the header
    map of the response held before, the three CORS headers have their one
    fixed value each (earlier values are replaced, not added to) and every
    other header is as it was, when the request is handed on to the
    wrapped handler and when a preflight request is answered.  A request
    with the method OPTIONS is answered without calling the wrapped
    handler, and nothing is written to the body; its status is 200 unless
    the response had a status already.  Every other request is handed on,
    with the request as it is, and the response is the one of the wrapped
    handler. *)
Theorem X11_cors_headers_and_preflight next w r :
  exists w0,
    writer w0 = writer w
    /\ ResponseHeader w0 !! "Access-Control-Allow-Origin" = Some ["*"]
    /\ ResponseHeader w0 !! "Access-Control-Allow-Methods"
       = Some ["GET, POST, OPTIONS"]
    /\ ResponseHeader w0 !! "Access-Control-Allow-Headers"
       = Some ["Content-Type, Authorization"]
    /\ (forall key,
          key ∉ cors_names ->
          ResponseHeader w0 !! key = ResponseHeader w !! key)
    /\ (Method r = "OPTIONS" ->
        let w' := CORSMiddleware next w r in
        ResponseHeader w' = ResponseHeader w0
        /\ Written (writer w') = Written (writer w)
        /\ Status (writer w')
           = (if Status (writer w) =? 0 then http.StatusOK
              else Status (writer w))
        /\ forall next', CORSMiddleware next' w r = w')
    /\ (Method r <> "OPTIONS" -> CORSMiddleware next w r = next w0 r).
Proof.
  eexists. destruct (set_headers_lookup w) as (Hw & Ho & Hm & Hh & Hrest).
  split; [exact Hw|]. split; [exact Ho|]. split; [exact Hm|].
  split; [exact Hh|]. split; [exact Hrest|]. split.
  - intros Hoptions. unfold CORSMiddleware. rewrite Hoptions. simpl.
    unfold WriteHeader. simpl.
    destruct (Status (writer w) =? 0) eqn:Hfresh; simpl;
      repeat split; reflexivity.
  - intros Hother. unfold CORSMiddleware.
    destruct (String.eqb_spec (Method r) "OPTIONS"); [contradiction|].
    reflexivity.
Qed.

(** X12: wrapping a handler twice is the same as wrapping it once: the
    headers are set, not added, so the second wrapper changes nothing of
    what the first has done, and a preflight request is answered by the
    outer wrapper alone. *)
Theorem X12_cors_twice next w r :
  CORSMiddleware (CORSMiddleware next) w r = CORSMiddleware next w r.
Proof.
  unfold CORSMiddleware at 1 3.
  destruct (String.eqb (Method r) "OPTIONS") eqn:Hmethod; [reflexivity|].
  unfold CORSMiddleware. rewrite Hmethod.
  f_equal. apply set_headers_twice.
Qed.

End CORS.

(** * Callers of different identities served at once *)

Section Apart.

Context (readAddress : Request -> string + error) (clock : nat -> Z).

(** The program of [ServeHTTP] for a request keeps to the keys of the
    request. *)
Lemma ServeHTTP_confined proxyCount ttl w r next p :
  ServeHTTP readAddress proxyCount ttl w r next = Some p ->
  confined (keys readAddress proxyCount r) true p.
Proof.
  unfold ServeHTTP, keys.
  destruct (readAddress r) as [address|err].
  - destruct (ttl <=? 0).
    + intros [= <-]. simpl. intros x. discriminate.
    + destruct (getClientIPFromRequest proxyCount r) as [clientIP|];
        [|discriminate].
      assert (Ha : address ∈ [address; clientIP]) by apply list_elem_of_here.
      assert (Hc : clientIP ∈ [address; clientIP])
        by apply list_elem_of_further, list_elem_of_here.
      intros [= <-]. simpl. intros _.
      split; [reflexivity|]. split; [exact Ha|].
      split; [reflexivity|]. split; [exact Hc|].
      split; [exact Ha|]. intros _. split; [exact Hc|]. intros _ _ w'.
      destruct (negb _); simpl.
      * split; [exact Ha|]. intros _. split; [exact Hc|]. intros _.
        discriminate.
      * intros _. discriminate.
  - destruct (errors_As err); intros [= <-]; discriminate.
Qed.

(** A step of one caller keeps every caller to its keys. *)
Lemma step_Confined i owns flags pool σ pool' σ' :
  (forall i j own own' key,
     owns !! i = Some own -> owns !! j = Some own' -> i <> j ->
     key ∈ own -> key ∉ own') ->
  Confined owns flags pool σ ->
  step clock i (pool, σ) = Some (pool', σ') ->
  exists flags', Confined owns flags' pool' σ'.
Proof.
  intros Hapart HC Hstep. unfold step in Hstep. simpl in Hstep.
  destruct (pool !! i) as [[a|act k]|] eqn:Hp; try discriminate.
  destruct (perform clock act σ) as [[x σ1]|] eqn:Hperf; [|discriminate].
  injection Hstep as <- <-.
  assert (Hi : (i < length pool)%nat) by (eapply lookup_lt_Some, Hp).
  destruct (lookup_lt_is_Some_2 owns i) as [own Hown];
    [rewrite (confined_owns _ _ _ _ HC); exact Hi|].
  destruct (lookup_lt_is_Some_2 flags i) as [probing Hflag];
    [rewrite (confined_flags _ _ _ _ HC); exact Hi|].
  pose proof (confined_programs _ _ _ _ HC i own probing _ Hown Hflag Hp)
    as Hconf.
  (* a step that leaves the entries of the other callers as they are *)
  assert (Hupdate : forall probing',
            confined own probing' (k x) ->
            (forall j own' key,
               j <> i -> owns !! j = Some own' -> key ∈ own' ->
               ttlcache.items (cache (limiter σ)) !! key = None ->
               ttlcache.items (cache (limiter σ1)) !! key = None) ->
            (probing' = true ->
             probing = true
             /\ cache (limiter σ1) = cache (limiter σ)) ->
            exists flags', Confined owns flags' (<[i:=k x]> pool) σ1).
  { intros probing' Hk Hothers Hmine. exists (<[i:=probing']> flags). split.
    - rewrite length_insert. apply (confined_owns _ _ _ _ HC).
    - rewrite !length_insert. apply (confined_flags _ _ _ _ HC).
    - intros j own' probing'' q Hown' Hflag' Hq.
      apply lookup_insert_cases in Hflag' as [[-> ->]|[Hne Hflag']].
      + rewrite list_lookup_insert_eq in Hq by exact Hi.
        injection Hq as <-. congruence.
      + rewrite list_lookup_insert_ne in Hq by congruence.
        eapply (confined_programs _ _ _ _ HC); eassumption.
    - intros j own' key Hown' Hflag' Hkey.
      apply lookup_insert_cases in Hflag' as [[-> Htrue]|[Hne Hflag']].
      + destruct (Hmine (eq_sym Htrue)) as [Hwas ->].
        rewrite Hwas in Hflag.
        eapply (confined_absent _ _ _ _ HC); eassumption.
      + eapply Hothers; try eassumption.
        eapply (confined_absent _ _ _ _ HC); eassumption. }
  destruct act; simpl in Hperf, Hconf.
  - (* Lock *)
    destruct (mutex (limiter σ)); [discriminate|]. injection Hperf as <- <-.
    apply (Hupdate probing); [apply Hconf|auto|auto].
  - (* Unlock *)
    destruct (mutex (limiter σ)); [|discriminate]. injection Hperf as <- <-.
    apply (Hupdate probing); [apply Hconf|auto|auto].
  - (* GetWithTTL *)
    destruct Hconf as (-> & Hkey & Hk).
    unfold ttlcache.GetWithTTL in Hperf.
    rewrite (confined_absent _ _ _ _ HC i own key Hown Hflag Hkey) in Hperf.
    injection Hperf as <- <-.
    apply (Hupdate true); [exact Hk|auto|auto].
  - (* SetWithTTL *)
    destruct Hconf as (Hkey & Hk). injection Hperf as <- <-.
    apply (Hupdate false); [apply Hk| |discriminate].
    intros j own' key' Hne Hown' Hkey' Hnone. simpl.
    rewrite lookup_insert_ne; [exact Hnone|].
    intros <-. exact (Hapart i j own own' key Hown Hown' ltac:(congruence)
                        Hkey Hkey').
  - (* Remove *)
    destruct Hconf as (Hkey & Hk). injection Hperf as <- <-.
    apply (Hupdate false); [apply Hk| |discriminate].
    intros j own' key' Hne Hown' Hkey' Hnone. simpl.
    destruct (decide (key' = key)) as [->|Hother];
      [apply lookup_delete_eq|].
    rewrite lookup_delete_ne by congruence. exact Hnone.
  - (* Next *)
    injection Hperf as <- <-.
    apply (Hupdate probing); [apply Hconf|auto|auto].
  - (* LogInfo *)
    injection Hperf as <- <-.
    apply (Hupdate probing); [apply Hconf|auto|auto].
Qed.

Lemma steps_Confined schedule owns flags pool σ pool' σ' :
  (forall i j own own' key,
     owns !! i = Some own -> owns !! j = Some own' -> i <> j ->
     key ∈ own -> key ∉ own') ->
  Confined owns flags pool σ ->
  steps clock schedule (pool, σ) = Some (pool', σ') ->
  exists flags', Confined owns flags' pool' σ'.
Proof.
  intros Hapart. revert flags pool σ.
  induction schedule as [|i schedule IH]; intros flags pool σ HC Hsteps;
    simpl in Hsteps.
  - injection Hsteps as <- <-. eauto.
  - destruct (step clock i (pool, σ)) as [[pool1 σ1]|] eqn:Hstep;
      [|discriminate].
    destruct (step_Confined _ _ _ _ _ _ _ Hapart HC Hstep) as (flags1 & HC1).
    eapply IH; eassumption.
Qed.

(** X13: callers of different identities are not rejected, however their
    actions interleave.  For any callers that enter [ServeHTTP] at once on a
    limiter whose mutex is free, with requests whose keys are not in the
    store and none of which is a key of the request of another caller,
    whatever the handlers answer and the clock shows: in every state the
    callers can reach, no caller has been rejected, and the callers can be
    run on from there until all have returned, none of them rejected. *)
Theorem X13_identities_apart_at_once σ0 (callers : list Caller) pool0
    schedule pool' σ' :
  mutex (limiter σ0) = false ->
  spawn readAddress (limiter σ0) callers = Some pool0 ->
  (forall i j ci cj key,
     callers !! i = Some ci -> callers !! j = Some cj -> i <> j ->
     key ∈ keys readAddress (proxyCount (limiter σ0)) (caller_r ci) ->
     key ∉ keys readAddress (proxyCount (limiter σ0)) (caller_r cj)) ->
  (forall c key,
     c ∈ callers ->
     key ∈ keys readAddress (proxyCount (limiter σ0)) (caller_r c) ->
     ttlcache.items (cache (limiter σ0)) !! key = None) ->
  steps clock schedule (pool0, σ0) = Some (pool', σ') ->
  (forall i p, pool' !! i = Some p -> returned p <> Some return_limited)
  /\ exists schedule' pool'' σ'',
       steps clock schedule' (pool', σ') = Some (pool'', σ'')
       /\ forall i p,
            pool'' !! i = Some p ->
            exists ret,
              returned p = Some ret /\ decision ret <> Some rejected.
Proof.
  intros Hfree Hspawn Hapart Habsent Hsteps.
  set (owns := (fun c => keys readAddress (proxyCount (limiter σ0))
                           (caller_r c)) <$> callers).
  assert (Hown : forall i own,
            owns !! i = Some own ->
            exists c, callers !! i = Some c
                      /\ own = keys readAddress (proxyCount (limiter σ0))
                                 (caller_r c)).
  { intros i own Hi. subst owns. rewrite list_lookup_fmap in Hi.
    destruct (callers !! i) as [c|]; [|discriminate].
    injection Hi as <-. eauto. }
  assert (Hapart' : forall i j own own' key,
            owns !! i = Some own -> owns !! j = Some own' -> i <> j ->
            key ∈ own -> key ∉ own').
  { intros i j own own' key Hi Hj Hne.
    destruct (Hown _ _ Hi) as (ci & Hci & ->).
    destruct (Hown _ _ Hj) as (cj & Hcj & ->).
    eapply Hapart; eassumption. }
  assert (HC0 : Confined owns (replicate (length callers) true) pool0 σ0).
  { pose proof Hspawn as Hall. unfold spawn in Hall.
    apply mapM_Some in Hall. split.
    - subst owns. rewrite length_fmap. eapply Forall2_length, Hall.
    - rewrite length_replicate. eapply Forall2_length, Hall.
    - intros i own probing p Hi Hflag Hp.
      apply lookup_replicate in Hflag as [-> _].
      destruct (Hown _ _ Hi) as (c & Hc & ->).
      eapply ServeHTTP_confined.
      exact (Forall2_lookup_lr _ _ _ _ _ _ Hall Hc Hp).
    - intros i own key Hi _ Hkey.
      destruct (Hown _ _ Hi) as (c & Hc & ->).
      eapply Habsent; [eapply list_elem_of_lookup_2, Hc|exact Hkey]. }
  assert (Hnever : forall schedule1 pool1 σ1,
            steps clock schedule1 (pool0, σ0) = Some (pool1, σ1) ->
            forall i p, pool1 !! i = Some p ->
                        returned p <> Some return_limited).
  { intros schedule1 pool1 σ1 Hsteps1 i p Hp.
    destruct (steps_Confined _ _ _ _ _ _ _ Hapart' HC0 Hsteps1)
      as (flags1 & HC1).
    assert (Hi : (i < length pool1)%nat) by (eapply lookup_lt_Some, Hp).
    destruct (lookup_lt_is_Some_2 owns i) as [own Hi1];
      [rewrite (confined_owns _ _ _ _ HC1); exact Hi|].
    destruct (lookup_lt_is_Some_2 flags1 i) as [probing Hi2];
      [rewrite (confined_flags _ _ _ _ HC1); exact Hi|].
    pose proof (confined_programs _ _ _ _ HC1 i own probing p Hi1 Hi2 Hp)
      as Hconf.
    destruct p as [[ret w']|act k]; simpl in *; congruence. }
  split; [eapply Hnever, Hsteps|].
  destruct (steps_Locking clock _ _ _ _ _ _
              (Locking_start readAddress _ _ _ Hfree Hspawn) Hsteps)
    as (ns & HL & _).
  destruct (Locking_completion clock _ _ _ _ HL (Nat.le_refl _))
    as (schedule' & pool'' & σ'' & Hsteps' & Hall).
  exists schedule', pool'', σ''. split; [exact Hsteps'|].
  intros i p Hp. destruct (Hall i p Hp) as [ret Hret].
  exists ret. split; [exact Hret|].
  assert (Hwhole : steps clock (schedule ++ schedule') (pool0, σ0)
                   = Some (pool'', σ'')).
  { clear -Hsteps Hsteps'. revert pool0 σ0 Hsteps.
    induction schedule as [|j schedule IH]; intros pool0 σ0 Hsteps;
      simpl in *.
    - injection Hsteps as <- <-. exact Hsteps'.
    - destruct (step clock j (pool0, σ0)) as [[pool1 σ1]|]; [|discriminate].
      apply IH, Hsteps. }
  pose proof (Hnever _ _ _ Hwhole i p Hp) as Hnot.
  destruct ret; simpl; congruence.
Qed.

End Apart.

(** * The further properties at work *)

Lemma minute_idle : idle Sample.minute.
Proof. split; reflexivity. Defined.

Lemma two_calls_apart :
  apart Sample.readAddress (proxyCount (limiter Sample.minute))
    Sample.two_calls.
Proof.
  split; [|split; [|exact I]].
  - intros w' r' next' key Hin Hkey. listed Hin.
    injection Hin as -> -> ->. vm_compute (keys _ _ _) in *.
    listed Hkey; subst key; not_listed.
  - intros w' r' next' key Hin. apply elem_of_nil in Hin. contradiction.
Defined.

(** X1 at work: alice is served and bob's reservation is rolled back; the
    store holds nothing for a third address afterwards, as before. *)
Lemma X1_witness :
  (idle Sample.minute
   /\ serve_all Sample.readAddress Sample.clock Sample.minute
        Sample.two_calls
      = Some (Sample.after_two_calls.1, Sample.after_two_calls.2))
  /\ length Sample.after_two_calls.1 = 2%nat
  /\ ttlcache.items (cache (limiter Sample.after_two_calls.2)) !! "0xC0FFEE"
     = None.
Proof.
  assert (H1 : idle Sample.minute) by exact minute_idle.
  assert (H2 : serve_all Sample.readAddress Sample.clock Sample.minute
                 Sample.two_calls
               = Some (Sample.after_two_calls.1, Sample.after_two_calls.2))
    by (vm_compute; reflexivity).
  split; [exact (conj H1 H2)|].
  destruct (X1_run_touches_own_keys Sample.readAddress Sample.clock
              _ _ _ _ H1 H2) as (Hlen & _ & _ & _ & _ & Hframe).
  split; [exact Hlen|].
  destruct (Hframe "0xC0FFEE") as [Hsame _].
  - intros w r next Hin. listed Hin; injection Hin as -> -> ->;
      vm_compute (keys _ _ _); not_listed.
  - rewrite Hsame. reflexivity.
Defined.

(** X2 at work: alice and bob, one after the other, are both admitted. *)
Lemma X2_witness :
  (idle Sample.minute
   /\ apart Sample.readAddress (proxyCount (limiter Sample.minute))
        Sample.two_calls)
  /\ exists results σ',
       serve_all Sample.readAddress Sample.clock Sample.minute
         Sample.two_calls = Some (results, σ')
       /\ Forall (fun res => decision res.1 <> Some rejected) results.
Proof.
  split; [exact (conj minute_idle two_calls_apart)|].
  destruct (X2_identities_apart_all_admitted Sample.readAddress Sample.clock
              Sample.two_calls Sample.minute minute_idle two_calls_apart)
    as (results & σ' & Hrun & _ & Hall & _).
  - intros w r next key _ _. reflexivity.
  - exists results, σ'. split; [exact Hrun|exact Hall].
Defined.

Lemma slow_clock_monotone i j :
  (i <= j)%nat -> Sample.slow_clock i <= Sample.slow_clock j.
Proof. unfold Sample.slow_clock. lia. Defined.

(** X3 at work: alice is served, then bob; four minutes after her identity
    key was set, alice is admitted again under a ttl of one minute. *)
Lemma X3_witness :
  (idle Sample.minute
   /\ serve Sample.readAddress Sample.slow_clock Sample.minute Sample.fresh
        Sample.alice Sample.succeed
      = Some (return_done, Sample.slow_alice.1.2, Sample.slow_alice.2)
   /\ serve_all Sample.readAddress Sample.slow_clock Sample.slow_alice.2
        Sample.then_bob
      = Some (Sample.slow_bob.1, Sample.slow_bob.2)
   /\ Sample.slow_clock (ticks Sample.minute + 3) + ttl (limiter Sample.minute)
      < Sample.slow_clock (ticks Sample.slow_bob.2))
  /\ exists ret σ3,
       serve Sample.readAddress Sample.slow_clock Sample.slow_bob.2
         Sample.fresh Sample.alice Sample.fail
       = Some (ret, Sample.fail Sample.fresh Sample.alice, σ3)
       /\ decision ret = Some admitted.
Proof.
  assert (H1 : idle Sample.minute) by exact minute_idle.
  assert (H2 : serve Sample.readAddress Sample.slow_clock Sample.minute
                 Sample.fresh Sample.alice Sample.succeed
               = Some (return_done, Sample.slow_alice.1.2,
                       Sample.slow_alice.2)) by (vm_compute; reflexivity).
  assert (H3 : serve_all Sample.readAddress Sample.slow_clock
                 Sample.slow_alice.2 Sample.then_bob
               = Some (Sample.slow_bob.1, Sample.slow_bob.2))
    by (vm_compute; reflexivity).
  assert (H4 : Sample.slow_clock (ticks Sample.minute + 3)
               + ttl (limiter Sample.minute)
               < Sample.slow_clock (ticks Sample.slow_bob.2))
    by (vm_compute; reflexivity).
  split; [exact (conj H1 (conj H2 (conj H3 H4)))|].
  apply (X3_admitted_again_after_window Sample.readAddress Sample.slow_clock
           slow_clock_monotone Sample.minute Sample.fresh Sample.alice
           Sample.succeed _ _ Sample.then_bob _ _ Sample.fresh Sample.fail
           H1 H2 H3); [|exact H4].
  intros w' r' next' key Hin Hkey. listed Hin. injection Hin as -> -> ->.
  vm_compute (keys _ _ _) in *. listed Hkey; subst key; not_listed.
Defined.



Lemma both_spawned :
  spawn Sample.readAddress (limiter Sample.minute)
    (Sample.both Sample.succeed)
  = Some (Sample.both_pool Sample.succeed Sample.minute).
Proof. reflexivity. Defined.

Lemma both_stepped :
  steps Sample.clock Sample.side_by_side
    (Sample.both_pool Sample.succeed Sample.minute, Sample.minute)
  = Some (Sample.both_end.1, Sample.both_end.2).
Proof. vm_compute. reflexivity. Defined.

(** X6 at work: alice and bob at once; bob takes the mutex while alice is
    with her handler.  At the end the mutex is free, and the sixteen steps
    are within the bound of eighteen. *)
Lemma X6_witness :
  (mutex (limiter Sample.minute) = false
   /\ spawn Sample.readAddress (limiter Sample.minute)
        (Sample.both Sample.succeed)
      = Some (Sample.both_pool Sample.succeed Sample.minute)
   /\ steps Sample.clock Sample.side_by_side
        (Sample.both_pool Sample.succeed Sample.minute, Sample.minute)
      = Some (Sample.both_end.1, Sample.both_end.2))
  /\ (mutex (limiter Sample.both_end.2) = true <->
      exists i p,
        Sample.both_end.1 !! i = Some p /\ in_critical_section p = true)
  /\ (length Sample.side_by_side <= 9 * length (Sample.both Sample.succeed))%nat.
Proof.
  assert (H1 : mutex (limiter Sample.minute) = false) by reflexivity.
  split; [exact (conj H1 (conj both_spawned both_stepped))|].
  destruct (X6_mutual_exclusion_any_callers Sample.readAddress Sample.clock
              Sample.minute (Sample.both Sample.succeed) _
              Sample.side_by_side _ _ H1 both_spawned both_stepped)
    as (_ & Hheld & Hlen & _).
  exact (conj Hheld Hlen).
Defined.

(** X7 at work: two trusted proxies; what the client put in front is not
    read. *)
Lemma X7_witness :
  (0 < 2
   /\ Z.of_nat (length [" 10.0.0.1"; " 10.0.0.2"]) = 2
   /\ Forall (fun token => occurs "," token = false)
        (["1.2.3.4"] ++ [" 10.0.0.1"; " 10.0.0.2"])
   /\ Header_Get (Header Sample.proxied) "X-Forwarded-For"
      = Join (["1.2.3.4"] ++ [" 10.0.0.1"; " 10.0.0.2"]) ","
   /\ Join (["1.2.3.4"] ++ [" 10.0.0.1"; " 10.0.0.2"]) "," <> EmptyString)
  /\ getClientIPFromRequest 2 Sample.proxied = Some "10.0.0.1".
Proof.
  assert (H1 : 0 < 2) by lia.
  assert (H2 : Z.of_nat (length [" 10.0.0.1"; " 10.0.0.2"]) = 2)
    by reflexivity.
  assert (H3 : Forall (fun token => occurs "," token = false)
                 (["1.2.3.4"] ++ [" 10.0.0.1"; " 10.0.0.2"]))
    by (repeat constructor).
  assert (H4 : Header_Get (Header Sample.proxied) "X-Forwarded-For"
               = Join (["1.2.3.4"] ++ [" 10.0.0.1"; " 10.0.0.2"]) ",")
    by (vm_compute; reflexivity).
  assert (H5 : Join (["1.2.3.4"] ++ [" 10.0.0.1"; " 10.0.0.2"]) ","
               <> EmptyString) by discriminate.
  split; [exact (conj H1 (conj H2 (conj H3 (conj H4 H5))))|].
  destruct (X7_forged_prefix_ignored 2 Sample.proxied ["1.2.3.4"]
              [" 10.0.0.1"; " 10.0.0.2"] H1 H2 H3 H4 H5) as [Hrun _].
  rewrite Hrun. reflexivity.
Defined.

(** X8 at work: the remote address of alice reads ["host:port"]. *)
Lemma X8_witness :
  (0 <= 0 \/ Header_Get (Header Sample.alice) "X-Forwarded-For" = EmptyString)
  /\ exists port,
       getClientIPFromRequest 0 Sample.alice = Some "192.0.2.7"
       /\ RemoteAddr Sample.alice = "192.0.2.7" +:+ String ":" port.
Proof.
  assert (H1 : 0 <= 0
               \/ Header_Get (Header Sample.alice) "X-Forwarded-For"
                  = EmptyString) by (left; lia).
  split; [exact H1|].
  assert (Hip : getClientIPFromRequest 0 Sample.alice = Some "192.0.2.7")
    by (vm_compute; reflexivity).
  destruct (X8_remote_address_shape 0 Sample.alice H1)
    as [(host & port & Hrun & _ & [[Hshape _]|[Hshape _]])|[Hrun _]].
  - rewrite Hip in Hrun. injection Hrun as <-.
    exists port. split; [reflexivity|exact Hshape].
  - discriminate Hshape.
  - rewrite Hip in Hrun. discriminate Hrun.
Defined.

(** X9 at work: a header that ends with a comma and a space, and one
    trusted proxy. *)
Lemma X9_witness :
  (0 < 1
   /\ Header_Get (Header Sample.trailing) "X-Forwarded-For" <> EmptyString
   /\ strings.Split (Header_Get (Header Sample.trailing) "X-Forwarded-For")
        "," !! 1%nat = Some " "
   /\ forall i,
        0 <= i < GoString.len " " ->
        strings.asciiSpace (GoString.at_ " " i) = true)
  /\ getClientIPFromRequest 1 Sample.trailing = Some EmptyString.
Proof.
  assert (H1 : 0 < 1) by lia.
  assert (H2 : Header_Get (Header Sample.trailing) "X-Forwarded-For"
               <> EmptyString) by (vm_compute; discriminate).
  assert (H3 : strings.Split
                 (Header_Get (Header Sample.trailing) "X-Forwarded-For") ","
                 !! 1%nat = Some " ") by (vm_compute; reflexivity).
  assert (H4 : forall i,
             0 <= i < GoString.len " " ->
             strings.asciiSpace (GoString.at_ " " i) = true).
  { intros i Hi. change (GoString.len " ") with 1 in Hi.
    assert (i = 0) as -> by lia. reflexivity. }
  split; [exact (conj H1 (conj H2 (conj H3 H4)))|].
  exact (X9_blank_token_empty_identity 1 Sample.trailing " " H1 H2 H3 H4).
Defined.

(** X10 at work: alice sends no token; the verifier refuses, the CAPTCHA
    middleware answers 429, and the limiter removes her entries. *)
Lemma X10_witness :
  (idle Sample.minute
   /\ Sample.readAddress Sample.alice = inl "0xA11CE"
   /\ 0 < ttl (limiter Sample.minute)
   /\ getClientIPFromRequest (proxyCount (limiter Sample.minute))
        Sample.alice = Some "192.0.2.7"
   /\ probe (cache (limiter Sample.minute))
        (Sample.clock (ticks Sample.minute)) "0xA11CE" = None
   /\ probe (cache (limiter Sample.minute))
        (Sample.clock (S (ticks Sample.minute))) "192.0.2.7" = None)
  /\ exists σ',
       serve Sample.readAddress Sample.clock Sample.minute Sample.fresh
         Sample.alice
         (fun w r =>
            Captcha_ServeHTTP Sample.verifier (NewCaptcha "site" "s3cret")
              w r Sample.succeed)
       = Some (return_removed,
               renderJSON Sample.fresh
                 {| Message :=
                      "Captcha verification failed, please try again" |}
                 http.StatusTooManyRequests, σ')
       /\ ttlcache.items (cache (limiter σ')) !! "0xA11CE" = None
       /\ ttlcache.items (cache (limiter σ')) !! "192.0.2.7" = None.
Proof.
  assert (H1 : idle Sample.minute) by exact minute_idle.
  assert (H2 : Sample.readAddress Sample.alice = inl "0xA11CE")
    by reflexivity.
  assert (H3 : 0 < ttl (limiter Sample.minute)) by (vm_compute; reflexivity).
  assert (H4 : getClientIPFromRequest (proxyCount (limiter Sample.minute))
                 Sample.alice = Some "192.0.2.7") by (vm_compute; reflexivity).
  assert (H5 : probe (cache (limiter Sample.minute))
                 (Sample.clock (ticks Sample.minute)) "0xA11CE" = None)
    by (vm_compute; reflexivity).
  assert (H6 : probe (cache (limiter Sample.minute))
                 (Sample.clock (S (ticks Sample.minute))) "192.0.2.7" = None)
    by (vm_compute; reflexivity).
  split; [exact (conj H1 (conj H2 (conj H3 (conj H4 (conj H5 H6)))))|].
  destruct (X10_refused_captcha_not_counted Sample.readAddress Sample.clock
              Sample.verifier "site" "s3cret" Sample.minute Sample.fresh
              Sample.alice Sample.succeed "0xA11CE" "192.0.2.7"
              H1 H2 H3 H4 H5 H6)
    as (_ & ret & w' & σ' & Hserve & Hrefused).
  cbv zeta in Hrefused.
  match type of Hrefused with
  | if ?c then _ else _ => change c with false in Hrefused
  end.
  destruct Hrefused as (-> & -> & _ & Ha & Hc & _).
  exists σ'. split; [exact Hserve|]. split; assumption.
Defined.

Lemma both_apart i j ci cj key :
  Sample.both Sample.succeed !! i = Some ci ->
  Sample.both Sample.succeed !! j = Some cj ->
  i <> j ->
  key ∈ keys Sample.readAddress (proxyCount (limiter Sample.minute))
          (caller_r ci) ->
  key ∉ keys Sample.readAddress (proxyCount (limiter Sample.minute))
          (caller_r cj).
Proof.
  destruct i as [|[|i]], j as [|[|j]]; simpl; try discriminate;
    try congruence; intros [= <-] [= <-] _ Hkey;
    vm_compute (keys _ _ _) in *; listed Hkey; subst key; not_listed.
Defined.

(** X13 at work: alice and bob at once; neither is rejected. *)
Lemma X13_witness :
  (mutex (limiter Sample.minute) = false
   /\ spawn Sample.readAddress (limiter Sample.minute)
        (Sample.both Sample.succeed)
      = Some (Sample.both_pool Sample.succeed Sample.minute)
   /\ steps Sample.clock Sample.side_by_side
        (Sample.both_pool Sample.succeed Sample.minute, Sample.minute)
      = Some (Sample.both_end.1, Sample.both_end.2))
  /\ forall i p,
       Sample.both_end.1 !! i = Some p ->
       returned p <> Some return_limited.
Proof.
  assert (H1 : mutex (limiter Sample.minute) = false) by reflexivity.
  split; [exact (conj H1 (conj both_spawned both_stepped))|].
  destruct (X13_identities_apart_at_once Sample.readAddress Sample.clock
              Sample.minute (Sample.both Sample.succeed)
              (Sample.both_pool Sample.succeed Sample.minute)
              Sample.side_by_side Sample.both_end.1 Sample.both_end.2
              H1 both_spawned both_apart)
    as [Hnever _].
  - intros c key _ _. reflexivity.
  - exact both_stepped.
  - exact Hnever.
Defined.
